(** * Commercial-loan simulation: payment calendar and amortisation engines

    A shallow embedding of [loan_calculators/payment_calendar.py],
    [loan_calculators/equal_principal_loan.py] and
    [loan_calculators/equal_installment_loan.py], together with the
    properties of the schedules they produce.

    Python objects become records, the dictionaries keyed by installment
    number become [gmap Z _], exceptions become the [Err] branch of a small
    error monad, and [decimal.Decimal] under the context the three modules
    install ([prec = 15], [ROUND_HALF_UP]) becomes a coefficient/exponent
    pair with the rounding written out. *)

From Stdlib Require Import ZArith Lia Bool.
From stdpp Require Import base option list list_numbers gmap strings.

Local Open Scope Z_scope.

(** ** Exceptions and the error monad *)

Inductive exn : Type :=
| UnsupportedPaymentFrequency  (* ValueError("Unsupported Payment Frequency: ...") *)
| DateOutOfRange               (* datetime refusing a year outside 1..9999 *)
| InvalidOperation             (* decimal.InvalidOperation *)
| DivisionByZero               (* decimal.DivisionByZero *)
| KeyError                     (* dict lookup of a missing installment number *)
| NonTermination.              (* the business-day search ran out of fuel *)

Inductive result (A : Type) : Type :=
| Ok (a : A)
| Err (e : exn).
Arguments Ok {A} a.
Arguments Err {A} e.

#[global] Instance result_ret : MRet result := fun A a => Ok a.
#[global] Instance result_bind : MBind result := fun A B f m =>
  match m with
  | Ok a => f a
  | Err e => Err e
  end.

Definition of_option {A} (o : option A) (e : exn) : result A :=
  match o with
  | Some a => Ok a
  | None => Err e
  end.

(** [for x in xs: s = body(s, x)], stopping at the first exception. *)
Fixpoint for_each {A S : Type} (body : S -> A -> result S) (s : S) (xs : list A)
  : result S :=
  match xs with
  | [] => Ok s
  | x :: xs' =>
      match body s x with
      | Ok s' => for_each body s' xs'
      | Err e => Err e
      end
  end.

(** [range(1, n + 1)] *)
Definition range1 (n : Z) : list Z := seqZ 1 n.

(** ** [decimal.Decimal] with [getcontext().prec = 15], [ROUND_HALF_UP]

    A finite decimal is [coeff * 10 ^ dexp].  The coefficient carries the
    sign, so the two zeros [0] and [-0] are one value here; Python compares
    them equal and no operation below tells them apart.  The exponent limits
    of the default context ([Emax = 999999]) are far outside every amount of
    a loan schedule and are not modelled.  The traps of the default context
    ([InvalidOperation], [DivisionByZero]) raise. *)

Record Decimal : Type := Dec { coeff : Z; dexp : Z }.

#[global] Instance Decimal_eq_dec : EqDecision Decimal.
Proof. solve_decision. Defined.

Definition prec : Z := 15.

Fixpoint ndigits_aux (fuel : nat) (n : Z) : Z :=
  match fuel with
  | O => 1
  | S f => if n <? 10 then 1 else 1 + ndigits_aux f (n / 10)
  end.

(** [len(str(abs(n)))] *)
Definition ndigits (n : Z) : Z :=
  ndigits_aux (S (Z.to_nat (Z.log2 (Z.abs n)))) (Z.abs n).

(** Drop the last [k] digits of [a >= 0], rounding half up. *)
Definition round_half_up (a : Z) (k : Z) : Z :=
  let p := 10 ^ k in
  if p <=? 2 * (a mod p) then a / p + 1 else a / p.

(** [Decimal._fix]: round to the precision of the context. *)
Definition dfix (d : Decimal) : Decimal :=
  let n := ndigits (coeff d) in
  if n <=? prec then d
  else
    let k := n - prec in
    let q := round_half_up (Z.abs (coeff d)) k in
    if q =? 10 ^ prec
    then Dec (Z.sgn (coeff d) * (q / 10)) (dexp d + k + 1)
    else Dec (Z.sgn (coeff d) * q) (dexp d + k).

(** [Decimal._rescale(e, ROUND_HALF_UP)] *)
Definition rescale (d : Decimal) (e : Z) : Decimal :=
  if e <=? dexp d
  then Dec (coeff d * 10 ^ (dexp d - e)) e
  else Dec (Z.sgn (coeff d) * round_half_up (Z.abs (coeff d)) (e - dexp d)) e.

(** [d.quantize(ex)] *)
Definition quantize (d ex : Decimal) : result Decimal :=
  let e := dexp ex in
  if coeff d =? 0 then Ok (Dec 0 e)
  else if prec <? ndigits (coeff d) + dexp d - 1 - e + 1 then Err InvalidOperation
  else
    let ans := rescale d e in
    if prec <? ndigits (coeff ans) then Err InvalidOperation
    else Ok (dfix ans).

(** The exact sum, before the context rounds it. *)
Definition dadd_exact (a b : Decimal) : Decimal :=
  let e := Z.min (dexp a) (dexp b) in
  Dec (coeff a * 10 ^ (dexp a - e) + coeff b * 10 ^ (dexp b - e)) e.

Definition dneg (a : Decimal) : Decimal := Dec (- coeff a) (dexp a).

Definition dadd (a b : Decimal) : Decimal := dfix (dadd_exact a b).
Definition dsub (a b : Decimal) : Decimal := dfix (dadd_exact a (dneg b)).
Definition dmul (a b : Decimal) : Decimal :=
  dfix (Dec (coeff a * coeff b) (dexp a + dexp b)).

(** The loop of [Decimal.__truediv__] that brings an exact quotient as close
    to the ideal exponent as its trailing zeros allow. *)
Fixpoint strip_zeros (fuel : nat) (q e : Z) : Z * Z :=
  match fuel with
  | O => (q, e)
  | S f => if q mod 10 =? 0 then strip_zeros f (q / 10) (e + 1) else (q, e)
  end.

(** [a / b], following [Decimal.__truediv__]. *)
Definition ddiv (a b : Decimal) : result Decimal :=
  if coeff b =? 0 then
    if coeff a =? 0 then Err InvalidOperation else Err DivisionByZero
  else if coeff a =? 0 then Ok (dfix (Dec 0 (dexp a - dexp b)))
  else
    let shift := ndigits (coeff b) - ndigits (coeff a) + prec + 1 in
    let e := dexp a - dexp b - shift in
    let n := Z.abs (coeff a) in
    let m := Z.abs (coeff b) in
    let num := if 0 <=? shift then n * 10 ^ shift else n in
    let den := if 0 <=? shift then m else m * 10 ^ (- shift) in
    let q := num / den in
    let r := num mod den in
    let sg := Z.sgn (coeff a) * Z.sgn (coeff b) in
    if r =? 0 then
      let '(q', e') := strip_zeros (Z.to_nat shift) q e in
      Ok (dfix (Dec (sg * q') e'))
    else
      Ok (dfix (Dec (sg * (if q mod 5 =? 0 then q + 1 else q)) e)).

(** [a ** n] for the only use the source makes of it: [n] is
    [Decimal(str(num_payments))], a non-negative integer.  The power is
    taken exactly and rounded once by the context. *)
Definition dpow (a n : Decimal) : result Decimal :=
  let k := coeff n * 10 ^ dexp n in
  if k =? 0 then
    if coeff a =? 0 then Err InvalidOperation else Ok (Dec 1 0)
  else if k <? 0 then Err InvalidOperation
  else Ok (dfix (Dec (coeff a ^ k) (dexp a * k))).

(** Numeric comparison, as [==], [<=] and [>] on two Decimals. *)
Definition aligned (a b : Decimal) : Z * Z :=
  let e := Z.min (dexp a) (dexp b) in
  (coeff a * 10 ^ (dexp a - e), coeff b * 10 ^ (dexp b - e)).

Definition deqb (a b : Decimal) : bool := fst (aligned a b) =? snd (aligned a b).
Definition dleb (a b : Decimal) : bool := fst (aligned a b) <=? snd (aligned a b).
Definition dltb (a b : Decimal) : bool := fst (aligned a b) <? snd (aligned a b).

(** [Decimal(str(n))] for a Python [int]. *)
Definition of_int (n : Z) : Decimal := Dec n 0.

Definition CENTS : Decimal := Dec 1 (-2).        (* Decimal("0.01") *)
Definition ZERO_00 : Decimal := Dec 0 (-2).      (* Decimal("0.00") *)

(** ** [datetime.date] and [dateutil.relativedelta] *)

Record date : Type := Date { year : Z; month : Z; day : Z }.

#[global] Instance date_eq_dec : EqDecision date.
Proof. solve_decision. Defined.

Definition is_leap (y : Z) : bool :=
  (y mod 4 =? 0) && (negb (y mod 100 =? 0) || (y mod 400 =? 0)).

Definition days_in_month (y m : Z) : Z :=
  if m =? 2 then (if is_leap y then 29 else 28)
  else if (m =? 4) || (m =? 6) || (m =? 9) || (m =? 11) then 30
  else 31.

Definition days_before_year (y : Z) : Z :=
  let y' := y - 1 in y' * 365 + y' / 4 - y' / 100 + y' / 400.

Fixpoint days_before_month_aux (y : Z) (months : nat) : Z :=
  match months with
  | O => 0
  | S k => days_before_month_aux y k + days_in_month y (Z.of_nat (S k))
  end.

Definition days_before_month (y m : Z) : Z :=
  days_before_month_aux y (Z.to_nat (m - 1)).

Definition toordinal (d : date) : Z :=
  days_before_year (year d) + days_before_month (year d) (month d) + day d.

(** [d.weekday()]: Monday is 0, Sunday is 6. *)
Definition weekday (d : date) : Z := (toordinal d + 6) mod 7.

(** [(a - b).days] *)
Definition days_between (a b : date) : Z := toordinal a - toordinal b.

Definition MAXYEAR : Z := 9999.

(** [d + timedelta(days=1)] *)
Definition next_day (d : date) : result date :=
  if day d <? days_in_month (year d) (month d)
  then Ok (Date (year d) (month d) (day d + 1))
  else if month d <? 12 then Ok (Date (year d) (month d + 1) 1)
  else if year d <? MAXYEAR then Ok (Date (year d + 1) 1 1)
  else Err DateOutOfRange.

(** [d + relativedelta(months=k)] for [1 <= k <= 12]: the month moves, the
    day is clamped to the length of the month reached. *)
Definition add_months (d : date) (k : Z) : result date :=
  let m := month d + k in
  let y := if 12 <? m then year d + 1 else year d in
  let m' := if 12 <? m then m - 12 else m in
  if MAXYEAR <? y then Err DateOutOfRange
  else Ok (Date y m' (Z.min (days_in_month y m') (day d))).

(** [d.replace(day=n)]; [None] is the [ValueError] the source catches. *)
Definition replace_day (d : date) (n : Z) : option date :=
  if (1 <=? n) && (n <=? days_in_month (year d) (month d))
  then Some (Date (year d) (month d) n)
  else None.

(** [d + relativedelta(day=31)]: the last day of the month of [d]. *)
Definition last_day_of_month (d : date) : date :=
  Date (year d) (month d) (Z.min (days_in_month (year d) (month d)) 31).

(** ** [PaymentCalendar] *)

Module PaymentCalendar.

(** The object.  [holiday_calendar d] is the test [d in self.holiday_calendar];
    the [holidays] package that answers it is an outside collaborator.
    [accrual_date_ranges], which only [to_dataframe] reads, is left out. *)
Record t : Type := Build {
  start_date : date;
  term_in_months : Z;
  payment_frequency : string;
  holiday_calendar : date -> bool;
  payment_dates : gmap Z date;
  accrual_days : gmap Z Z;
  turkish_banking_accrual_days : gmap Z Z
}.

Definition init (start : date) (term : Z) (freq : string)
    (holiday : date -> bool) : t :=
  Build start term freq holiday ∅ ∅ ∅.

Definition _frequency_to_days (self : t) : result Z :=
  if String.eqb (payment_frequency self) "1m" then Ok 30
  else if String.eqb (payment_frequency self) "3m" then Ok 90
  else if String.eqb (payment_frequency self) "6m" then Ok 180
  else Err UnsupportedPaymentFrequency.

(** The months of the [relativedelta] chosen at the top of
    [generate_schedule]. *)
Definition frequency_delta (self : t) : result Z :=
  if String.eqb (payment_frequency self) "1m" then Ok 1
  else if String.eqb (payment_frequency self) "3m" then Ok 3
  else if String.eqb (payment_frequency self) "6m" then Ok 6
  else Err UnsupportedPaymentFrequency.

(** [while d.weekday() >= 5 or d in self.holiday_calendar: d += timedelta(days=1)] *)
Fixpoint next_business_day (fuel : nat) (holiday : date -> bool) (d : date)
  : result date :=
  match fuel with
  | O => Err NonTermination
  | S f =>
      if (5 <=? weekday d) || holiday d
      then d' ← next_day d; next_business_day f holiday d'
      else Ok d
  end.

(** The date of an installment before the business-day search: one
    interval after the nominal base, on the day of month of the start
    date, or on the last day of a month too short for it. *)
Definition nominal_anchor (base : date) (delta : Z) (target_day : Z)
  : result date :=
  scheduled ← add_months base delta;
  mret (match replace_day scheduled target_day with
        | Some d => d
        | None => last_day_of_month scheduled
        end).

(** State of the loop: the object and the local [nominal_base_date]. *)
Definition loop_state : Type := t * date.

Definition schedule_step (fuel : nat) (delta : Z) (current_payment_day : Z)
    (st : loop_state) (i : Z) : result loop_state :=
  let '(self, nominal_base_date) := st in
  anchor ← nominal_anchor nominal_base_date delta current_payment_day;
  scheduled_date ← next_business_day fuel (holiday_calendar self) anchor;
  accrual_start ←
    (if 1 <? i then of_option (payment_dates self !! (i - 1)) KeyError
     else Ok (start_date self));
  fixed_days ← _frequency_to_days self;
  nominal' ← add_months nominal_base_date delta;
  mret (Build (start_date self) (term_in_months self) (payment_frequency self)
          (holiday_calendar self)
          (<[i := scheduled_date]> (payment_dates self))
          (<[i := days_between scheduled_date accrual_start]> (accrual_days self))
          (<[i := fixed_days]> (turkish_banking_accrual_days self)),
        nominal').

(** The loop of [generate_schedule], with its final local state. *)
Definition run_schedule (fuel : nat) (self : t) : result loop_state :=
  delta ← frequency_delta self;
  fd ← _frequency_to_days self;
  for_each (schedule_step fuel delta (day (start_date self)))
    (self, start_date self)
    (range1 (term_in_months self * 30 / fd)).

(** [generate_schedule]: the object after the call; the value returned to
    the caller is its [payment_dates]. *)
Definition generate_schedule (fuel : nat) (self : t) : result t :=
  st ← run_schedule fuel self; mret (fst st).

Definition get_accrual_days (fuel : nat) (self : t) : result (t * gmap Z Z) :=
  if decide (accrual_days self = ∅) then
    self' ← generate_schedule fuel self; mret (self', accrual_days self')
  else Ok (self, accrual_days self).

(** [get_total_accrual_days]: the object after the call and
    [sum(self.accrual_days.values())]. *)
Definition get_total_accrual_days (fuel : nat) (self : t) : result (t * Z) :=
  if decide (accrual_days self = ∅) then
    self' ← generate_schedule fuel self;
    mret (self', map_fold (fun _ days total => total + days) 0 (accrual_days self'))
  else Ok (self, map_fold (fun _ days total => total + days) 0 (accrual_days self)).

(** [accrual_start + timedelta(days=n)] for [n >= 0], a day at a time. *)
Fixpoint add_days (d : date) (n : nat) : result date :=
  match n with
  | O => Ok d
  | S k => d' ← add_days d k; next_day d'
  end.

(** [[accrual_start + timedelta(days=d) for d in range(days)]] *)
Definition accrual_date_range (accrual_start : date) (days : Z) : result (list date) :=
  for_each (fun dates d => x ← add_days accrual_start (Z.to_nat d); mret (dates ++ [x]))
    [] (seqZ 0 days).

(** The object together with its fourth dictionary, [accrual_date_ranges],
    which [get_accrual_date_ranges] hands out. *)
Definition with_ranges : Type := t * gmap Z (list date).

(** The body of the loop of [generate_schedule] with the entry it writes
    into [accrual_date_ranges]. *)
Definition schedule_step_ranges (fuel : nat) (delta : Z) (current_payment_day : Z)
    (st : with_ranges * date) (i : Z) : result (with_ranges * date) :=
  let '((self, accrual_date_ranges), nominal_base_date) := st in
  anchor ← nominal_anchor nominal_base_date delta current_payment_day;
  scheduled_date ← next_business_day fuel (holiday_calendar self) anchor;
  accrual_start ←
    (if 1 <? i then of_option (payment_dates self !! (i - 1)) KeyError
     else Ok (start_date self));
  let days := days_between scheduled_date accrual_start in
  range ← accrual_date_range accrual_start days;
  fixed_days ← _frequency_to_days self;
  nominal' ← add_months nominal_base_date delta;
  mret ((Build (start_date self) (term_in_months self) (payment_frequency self)
           (holiday_calendar self)
           (<[i := scheduled_date]> (payment_dates self))
           (<[i := days]> (accrual_days self))
           (<[i := fixed_days]> (turkish_banking_accrual_days self)),
         <[i := range]> accrual_date_ranges),
        nominal').

Definition generate_schedule_ranges (fuel : nat) (obj : with_ranges)
  : result with_ranges :=
  delta ← frequency_delta (fst obj);
  fd ← _frequency_to_days (fst obj);
  st ← for_each (schedule_step_ranges fuel delta (day (start_date (fst obj))))
         (obj, start_date (fst obj))
         (range1 (term_in_months (fst obj) * 30 / fd));
  mret (fst st).

Definition get_accrual_date_ranges (fuel : nat) (obj : with_ranges)
  : result (with_ranges * gmap Z (list date)) :=
  if decide (snd obj = ∅) then
    obj' ← generate_schedule_ranges fuel obj; mret (obj', snd obj')
  else Ok (obj, snd obj).

End PaymentCalendar.

(** ** Amortisation rows *)

(** One dict of the list [calculate_schedule] returns. *)
Record row : Type := Row {
  installment_number : Z;
  payment_date : date;
  row_accrual_days : Z;
  principal_payment : Decimal;
  interest_payment : Decimal;
  commission_payment : Decimal;
  bsmv : Decimal;
  installment_amount : Decimal;
  remaining_principal : Decimal
}.

(** What [get_totals] returns. *)
Record totals : Type := Totals {
  total_loan_cost : Decimal;
  total_interest_paid : Decimal;
  total_bsmv_paid : Decimal;
  total_installments_paid : Decimal;
  total_commission_paid : Decimal
}.

(** What [calculate_average_maturity_and_all_in_rate] returns. *)
Record summary : Type := Summary {
  ortalama_vade_yil : Decimal;
  all_in_rate_percent : Decimal
}.

(** The commission row both amortisers put first when [commission > 0]. *)
Definition commission_rows (principal commission bsmv_rate : Decimal)
    (start : date) (remaining : Decimal) : result (list row) :=
  if dltb (of_int 0) commission then
    commission_amount ← quantize (dmul principal commission) CENTS;
    commission_bsmv ← quantize (dmul commission_amount bsmv_rate) CENTS;
    installment ← quantize (dadd commission_amount commission_bsmv) CENTS;
    remaining' ← quantize remaining CENTS;
    mret [Row 0 start 0 ZERO_00 ZERO_00 commission_amount commission_bsmv
            installment remaining']
  else Ok [].

(** The fixed-convention period rate: the monthly rate times 1, 3 or 6. *)
Definition fixed_period_rate (freq : string) (monthly : Decimal) : Decimal :=
  if String.eqb freq "1m" then monthly
  else if String.eqb freq "3m" then dmul monthly (Dec 3 0)
  else dmul monthly (Dec 6 0).

(** [get_totals], the same in both classes. *)
Definition totals_step (acc : Decimal * Decimal * Decimal * Decimal) (r : row)
  : Decimal * Decimal * Decimal * Decimal :=
  let '(total_commission_payment, total_bsmv, total_installments,
       total_interest) := acc in
  let total_bsmv := dadd total_bsmv (bsmv r) in
  if installment_number r =? 0 then
    (dadd total_commission_payment (installment_amount r), total_bsmv,
     total_installments, total_interest)
  else
    (total_commission_payment, total_bsmv,
     dadd total_installments (installment_amount r),
     dadd total_interest (interest_payment r)).

Definition get_totals (schedule : list row) : result totals :=
  let '(total_commission_payment, total_bsmv, total_installments,
       total_interest) :=
    foldl totals_step (ZERO_00, ZERO_00, ZERO_00, ZERO_00) schedule in
  let total_loan_cost := dadd total_installments total_commission_payment in
  a ← quantize total_loan_cost CENTS;
  b ← quantize total_interest CENTS;
  c ← quantize total_bsmv CENTS;
  d ← quantize total_installments CENTS;
  e ← quantize total_commission_payment CENTS;
  mret (Totals a b c d e).

(** The five accumulators of [calculate_average_maturity_and_all_in_rate]. *)
Record maturity_acc : Type := Acc {
  total_weighted_days : Decimal;
  total_principal_paid : Decimal;
  acc_interest : Decimal;
  acc_bsmv : Decimal;
  acc_commission : Decimal
}.

Definition acc0 : maturity_acc := Acc ZERO_00 ZERO_00 ZERO_00 ZERO_00 ZERO_00.

(** ** [EqualPrincipalLoan] *)

Module EqualPrincipalLoan.

Record t : Type := Build {
  principal : Decimal;
  monthly_interest_rate : Decimal;
  commission : Decimal;
  start_date : date;
  term : Z;
  payment_frequency : string;
  bsmv_rate : Decimal;
  use_variable_accrual_days : bool;
  payment_calendar : PaymentCalendar.t;
  payment_dates : gmap Z date;
  num_payments : Z;
  actual_accrual_days : gmap Z Z;
  fixed_accrual_days : gmap Z Z;
  fixed_principal : Decimal
}.

Definition fixed_days_of (freq : string) : Z :=
  if String.eqb freq "1m" then 30
  else if String.eqb freq "3m" then 90
  else 180.

(** [__init__]; [fuel] bounds every business-day search of the calendar. *)
Definition init (fuel : nat) (principal monthly_interest_rate commission : Decimal)
    (start : date) (term : Z) (freq : string) (bsmv_rate : Decimal)
    (holiday : date -> bool) (variable : bool) : result t :=
  cal ← PaymentCalendar.generate_schedule fuel
           (PaymentCalendar.init start term freq holiday);
  let num_payments := Z.of_nat (size (PaymentCalendar.payment_dates cal)) in
  '(cal', actual) ← PaymentCalendar.get_accrual_days fuel cal;
  let fixed_days := fixed_days_of freq in
  let fixed := foldl (fun m k => <[k := fixed_days]> m) ∅ (range1 num_payments) in
  fixed_principal ← ddiv principal (of_int num_payments);
  mret (Build principal monthly_interest_rate commission start term freq
          bsmv_rate variable cal' (PaymentCalendar.payment_dates cal')
          num_payments actual fixed fixed_principal).

(** The period rate and the accrual days of installment [k]. *)
Definition period_terms (self : t) (k : Z) : result (Decimal * Z) :=
  if use_variable_accrual_days self then
    days ← of_option (actual_accrual_days self !! k) KeyError;
    days_ratio ← ddiv (of_int days) (Dec 30 0);
    mret (dmul (monthly_interest_rate self) days_ratio, days)
  else
    days ← of_option (fixed_accrual_days self !! k) KeyError;
    mret (fixed_period_rate (payment_frequency self) (monthly_interest_rate self),
          days).

(** Body of the loop over the regular installments; the state is the
    list built so far and the running [remaining_principal]. *)
Definition schedule_step (self : t) (st : list row * Decimal) (k : Z)
  : result (list row * Decimal) :=
  let '(schedule, remaining) := st in
  '(period_rate, accrual) ← period_terms self k;
  interest ← quantize (dmul remaining period_rate) CENTS;
  tax ← quantize (dmul interest (bsmv_rate self)) CENTS;
  installment ←
    quantize (dadd (dadd (fixed_principal self) interest) tax) CENTS;
  pay_date ← of_option (payment_dates self !! k) KeyError;
  principal_part ← quantize (fixed_principal self) CENTS;
  remaining' ← quantize (dsub remaining (fixed_principal self)) CENTS;
  mret (schedule ++ [Row k pay_date accrual principal_part interest ZERO_00
                        tax installment remaining'],
        dsub remaining (fixed_principal self)).

Definition run_schedule (self : t) : result (list row * Decimal) :=
  first ← commission_rows (principal self) (commission self) (bsmv_rate self)
            (start_date self) (principal self);
  for_each (schedule_step self) (first, principal self)
    (range1 (num_payments self)).

Definition calculate_schedule (self : t) : result (list row) :=
  st ← run_schedule self; mret (fst st).

Definition maturity_step (self : t) (a : maturity_acc) (r : row) : maturity_acc :=
  if installment_number r =? 0 then
    Acc (total_weighted_days a) (total_principal_paid a) (acc_interest a)
      (acc_bsmv a) (dadd (acc_commission a) (installment_amount r))
  else
    let days_from_start := days_between (payment_date r) (start_date self) in
    let weighted := dmul (principal_payment r) (of_int days_from_start) in
    Acc (dadd (total_weighted_days a) weighted)
      (dadd (total_principal_paid a) (principal_payment r))
      (dadd (acc_interest a) (interest_payment r))
      (dadd (acc_bsmv a) (bsmv r))
      (acc_commission a).

Definition calculate_average_maturity_and_all_in_rate (self : t)
    (schedule : list row) : result summary :=
  let a := foldl (maturity_step self) acc0 schedule in
  ortalama_vade_gun ← ddiv (total_weighted_days a) (total_principal_paid a);
  yil_raw ← ddiv ortalama_vade_gun (Dec 365 0);
  yil ← quantize yil_raw CENTS;
  let toplam_maliyet := dadd (dadd (acc_interest a) (acc_bsmv a)) (acc_commission a) in
  ratio ← ddiv toplam_maliyet (dmul yil (principal self));
  all_in_rate ← quantize (dmul ratio (Dec 100 0)) CENTS;
  mret (Summary yil all_in_rate).

End EqualPrincipalLoan.

(** ** [EqualInstallmentLoan] *)

Module EqualInstallmentLoan.

Record t : Type := Build {
  principal : Decimal;
  monthly_interest_rate : Decimal;
  commission : Decimal;
  start_date : date;
  term : Z;
  payment_frequency : string;
  bsmv_rate : Decimal;
  payment_calendar : PaymentCalendar.t;
  payment_dates : gmap Z date;
  num_payments : Z;
  fixed_accrual_days : gmap Z Z;
  fixed_installment : Decimal
}.

(** The annuity amount
    [T = P * r' * (1 + r')^n / ((1 + r')^n - 1)] as [__init__] computes it. *)
Definition annuity (principal monthly bsmv_rate : Decimal) (days num : Z)
  : result Decimal :=
  period_multiplier ← ddiv (of_int days) (Dec 30 0);
  let period_rate := dmul monthly period_multiplier in
  let period_rate_prime := dadd period_rate (dmul period_rate bsmv_rate) in
  one_plus_r_pow_n ← dpow (dadd (Dec 10 (-1)) period_rate_prime) (of_int num);
  ddiv (dmul (dmul principal period_rate_prime) one_plus_r_pow_n)
       (dsub one_plus_r_pow_n (Dec 10 (-1))).

Definition init (fuel : nat) (principal monthly_interest_rate commission : Decimal)
    (start : date) (term : Z) (freq : string) (bsmv_rate : Decimal)
    (holiday : date -> bool) : result t :=
  cal ← PaymentCalendar.generate_schedule fuel
           (PaymentCalendar.init start term freq holiday);
  let num_payments := Z.of_nat (size (PaymentCalendar.payment_dates cal)) in
  days ← PaymentCalendar._frequency_to_days cal;
  fixed_installment ←
    annuity principal monthly_interest_rate bsmv_rate days num_payments;
  mret (Build principal monthly_interest_rate commission start term freq
          bsmv_rate cal (PaymentCalendar.payment_dates cal) num_payments
          (PaymentCalendar.turkish_banking_accrual_days cal) fixed_installment).

Definition schedule_step (self : t) (st : list row * Decimal) (k : Z)
  : result (list row * Decimal) :=
  let '(schedule, remaining) := st in
  let period_rate :=
    fixed_period_rate (payment_frequency self) (monthly_interest_rate self) in
  interest ← quantize (dmul remaining period_rate) CENTS;
  tax ← quantize (dmul interest (bsmv_rate self)) CENTS;
  principal_part ←
    quantize (dsub (dsub (fixed_installment self) interest) tax) CENTS;
  installment ← quantize (dadd (dadd principal_part interest) tax) CENTS;
  pay_date ← of_option (payment_dates self !! k) KeyError;
  accrual ← of_option (fixed_accrual_days self !! k) KeyError;
  remaining' ← quantize (dsub remaining principal_part) CENTS;
  mret (schedule ++ [Row k pay_date accrual principal_part interest ZERO_00
                        tax installment remaining'],
        dsub remaining principal_part).

Definition run_schedule (self : t) : result (list row * Decimal) :=
  first ← commission_rows (principal self) (commission self) (bsmv_rate self)
            (start_date self) (principal self);
  for_each (schedule_step self) (first, principal self)
    (range1 (num_payments self)).

Definition calculate_schedule (self : t) : result (list row) :=
  st ← run_schedule self; mret (fst st).

Definition maturity_step (self : t) (a : maturity_acc) (r : row) : maturity_acc :=
  if installment_number r =? 0 then
    Acc (total_weighted_days a) (total_principal_paid a) (acc_interest a)
      (dadd (acc_bsmv a) (bsmv r))
      (dadd (acc_commission a) (installment_amount r))
  else
    let days_from_start :=
      of_int (days_between (payment_date r) (start_date self)) in
    let weighted := dmul days_from_start (principal_payment r) in
    Acc (dadd (total_weighted_days a) weighted)
      (dadd (total_principal_paid a) (principal_payment r))
      (dadd (acc_interest a) (interest_payment r))
      (dadd (acc_bsmv a) (bsmv r))
      (acc_commission a).

Definition calculate_average_maturity_and_all_in_rate (self : t)
    (schedule : list row) : result summary :=
  let a := foldl (maturity_step self) acc0 schedule in
  ortalama_vade_gun ← ddiv (total_weighted_days a) (total_principal_paid a);
  ortalama_vade_yil ← ddiv ortalama_vade_gun (Dec 365 0);
  let toplam_maliyet := dadd (dadd (acc_interest a) (acc_bsmv a)) (acc_commission a) in
  ratio ← ddiv toplam_maliyet (dmul ortalama_vade_yil (principal self));
  let all_in_rate := dmul ratio (Dec 100 0) in
  yil ← quantize ortalama_vade_yil CENTS;
  rate ← quantize all_in_rate CENTS;
  mret (Summary yil rate).

(** The class's own [_frequency_to_days], which answers in [Decimal]. *)
Definition _frequency_to_days (self : t) : result Decimal :=
  if String.eqb (payment_frequency self) "1m" then Ok (Dec 30 0)
  else if String.eqb (payment_frequency self) "3m" then Ok (Dec 90 0)
  else if String.eqb (payment_frequency self) "6m" then Ok (Dec 180 0)
  else Err UnsupportedPaymentFrequency.

End EqualInstallmentLoan.

(** The jurisdiction calendar with no public holiday: only the weekend test
    of [generate_schedule] defers a payment. *)
Definition no_holidays : date -> bool := fun _ => false.

(** The number and the six amounts of a row. *)
Definition amounts (r : row)
  : Z * Decimal * Decimal * Decimal * Decimal * Decimal * Decimal :=
  (installment_number r, principal_payment r, interest_payment r, bsmv r,
   commission_payment r, installment_amount r, remaining_principal r).

(** The parts of a row added up exactly: principal, interest, tax and
    commission. *)
Definition row_sum (r : row) : Decimal :=
  dadd_exact
    (dadd_exact (dadd_exact (principal_payment r) (interest_payment r)) (bsmv r))
    (commission_payment r).

(** The cost of a schedule as the specification counts it: the interest,
    the tax of every row and the commission amount, each once. *)
Definition spec_total_cost (schedule : list row) : Decimal :=
  foldl (fun acc r =>
           dadd (dadd (dadd acc (interest_payment r)) (bsmv r)) (commission_payment r))
        ZERO_00 schedule.

(** The all-in rate of the specification:
    [cost / (average_maturity_years * principal) * 100], to the cent. *)
Definition spec_all_in_rate (cost years principal : Decimal) : result Decimal :=
  ratio ← ddiv cost (dmul years principal);
  quantize (dmul ratio (Dec 100 0)) CENTS.

(** The cost [calculate_average_maturity_and_all_in_rate] divides. *)
Definition toplam_maliyet (a : maturity_acc) : Decimal :=
  dadd (dadd (acc_interest a) (acc_bsmv a)) (acc_commission a).

(** ** Vocabulary of the properties *)

(** The payment frequencies [generate_schedule] accepts. *)
Definition supported (freq : string) : Prop :=
  freq = "1m" \/ freq = "3m" \/ freq = "6m".

(** The three dictionaries after [i] rounds of the loop that started from
    the fresh object [init start term freq holiday]. *)
Record filled (start : date) (term : Z) (freq : string) (fd : Z) (i : Z)
    (s : PaymentCalendar.t) : Prop := {
  filled_start : PaymentCalendar.start_date s = start;
  filled_term : PaymentCalendar.term_in_months s = term;
  filled_freq : PaymentCalendar.payment_frequency s = freq;
  filled_dates : dom (PaymentCalendar.payment_dates s) = list_to_set (seqZ 1 i);
  filled_accrual : dom (PaymentCalendar.accrual_days s) = list_to_set (seqZ 1 i);
  filled_fixed :
    dom (PaymentCalendar.turkish_banking_accrual_days s) = list_to_set (seqZ 1 i);
  filled_fixed_days :
    forall k v, PaymentCalendar.turkish_banking_accrual_days s !! k = Some v -> v = fd;
  filled_elapsed :
    forall k a, PaymentCalendar.accrual_days s !! k = Some a ->
      exists d prev,
        PaymentCalendar.payment_dates s !! k = Some d /\
        (if 1 <? k then PaymentCalendar.payment_dates s !! (k - 1) = Some prev
         else prev = start) /\
        a = days_between d prev
}.

(** The periods a calendar holds: [term * 30 // days], none when that is
    negative. *)
Definition periods (term fd : Z) : Z := Z.max 0 (term * 30 / fd).

(** The fixed banking convention: 30, 90 or 180 days by frequency. *)
Definition convention_days (freq : string) (days : Z) : Prop :=
  (freq = "1m" /\ days = 30) \/ (freq = "3m" /\ days = 90) \/
  (freq = "6m" /\ days = 180).

(** Two decimals with the same value ([a == b] in Python). *)
Definition value_eq (a b : Decimal) : Prop := fst (aligned a b) = snd (aligned a b).

(** [d] is worth exactly [c] cents. *)
Definition in_cents (d : Decimal) (c : Z) : Prop := value_eq d (Dec c (-2)).

(** A decimal too large for a two-place 15-digit result. *)
Definition oversized (d : Decimal) : Prop :=
  coeff d <> 0 /\ 14 <= ndigits (coeff d) + dexp d.

(** The remaining principal after [k] installments as the loop keeps it:
    the unrounded quotient [fixed_principal] subtracted [k] times. *)
Definition remaining_after (P fixed : Decimal) (k : Z) : Decimal :=
  Nat.iter (Z.to_nat k) (fun remaining => dsub remaining fixed) P.

(** The remaining principal the specification describes: the principal
    minus [k] times the quotient rounded to cents. *)
Definition spec_remaining (P : Decimal) (N k : Z) : result Decimal :=
  fixed ← ddiv P (of_int N);
  rounded ← quantize fixed CENTS;
  mret (dsub P (dmul (of_int k) rounded)).

(** A date [datetime.date] can hold. *)
Definition valid_date (d : date) : Prop :=
  1 <= year d <= MAXYEAR /\ 1 <= month d <= 12 /\
  1 <= day d <= days_in_month (year d) (month d).

(** Months counted from year 0. *)
Definition month_index (d : date) : Z := year d * 12 + (month d - 1).

(** The nominal date [months] months after [start]: the day of month of
    [start], or the last day of a month that is too short for it. *)
Definition nominal_date (start : date) (months : Z) : date :=
  let idx := month_index start + months in
  let y := idx / 12 in
  let m := idx mod 12 + 1 in
  Date y m (Z.min (day start) (days_in_month y m)).

(** A day on which a payment can fall: no weekend day, no holiday. *)
Definition business_day (holiday : date -> bool) (d : date) : Prop :=
  weekday d < 5 /\ holiday d = false.

(** The months between two payments. *)
Definition months_per_period (freq : string) : Z :=
  if String.eqb freq "1m" then 1
  else if String.eqb freq "3m" then 3
  else 6.

(** The state of the calendar loop after [i] rounds: every stored payment
    date is what the business-day search finds from the nominal date of its
    installment. *)
Definition anchored (fuel : nat) (start : date) (months : Z) (holiday : date -> bool)
    (i : Z) (st : PaymentCalendar.loop_state) : Prop :=
  PaymentCalendar.holiday_calendar (fst st) = holiday /\
  valid_date (snd st) /\
  month_index (snd st) = month_index start + i * months /\
  forall k d, PaymentCalendar.payment_dates (fst st) !! k = Some d ->
    1 <= k <= i /\
    valid_date (nominal_date start (k * months)) /\
    PaymentCalendar.next_business_day fuel holiday (nominal_date start (k * months))
    = Ok d.

(** What [accrual_date_ranges] holds beside the other dictionaries: for every
    installment as many dates as its accrual days, counted back from the
    payment date. *)
Definition ranges_cover (s : PaymentCalendar.t) (ranges : gmap Z (list date)) : Prop :=
  dom ranges = dom (PaymentCalendar.payment_dates s) /\
  forall k dates, ranges !! k = Some dates ->
    exists d a,
      PaymentCalendar.payment_dates s !! k = Some d /\
      PaymentCalendar.accrual_days s !! k = Some a /\
      length dates = Z.to_nat a /\
      forall (j : nat) (x : date), dates !! j = Some x ->
        valid_date x /\ days_between d x = a - Z.of_nat j.

(** What every row of a schedule looks like, whichever class built it:
    [dates] are the payment dates of the loan. *)
Definition row_shape (start : date) (dates : gmap Z date) (r : row) : Prop :=
  if installment_number r =? 0
  then payment_date r = start /\ row_accrual_days r = 0 /\
       principal_payment r = ZERO_00 /\ interest_payment r = ZERO_00
  else dates !! installment_number r = Some (payment_date r) /\
       commission_payment r = ZERO_00.

(** The coefficients of one amount added up over the rows: cents, when the
    amounts have two places. *)
Definition sum_cents (f : row -> Decimal) (rows : list row) : Z :=
  foldr (fun r total => coeff (f r) + total) 0 rows.

(** A non-negative amount of two places. *)
Definition cent_amount (d : Decimal) : Prop := dexp d = -2 /\ 0 <= coeff d.

(** A running total of non-negative amounts worth [A] cents: exact while it
    fits 15 digits, oversized for good once it does not. *)
Definition tracks (acc : Decimal) (A : Z) : Prop :=
  0 <= A /\
  if A <? 10 ^ prec then in_cents acc A else oversized acc /\ 0 < coeff acc.

(** A row whose interest, tax and commission are not negative. *)
Definition nonneg_costs (r : row) : Prop :=
  0 <= coeff (interest_payment r) /\ 0 <= coeff (bsmv r) /\
  0 <= coeff (commission_payment r).

(** The cost amounts of a row of a schedule: two places each; the commission
    row carries no interest and its installment is commission plus tax; a
    regular row carries no commission. *)
Definition cost_amounts (r : row) : Prop :=
  dexp (interest_payment r) = -2 /\ dexp (bsmv r) = -2 /\
  dexp (commission_payment r) = -2 /\ dexp (installment_amount r) = -2 /\
  if installment_number r =? 0
  then coeff (interest_payment r) = 0 /\
       coeff (installment_amount r) = coeff (commission_payment r) + coeff (bsmv r)
  else coeff (commission_payment r) = 0.

(** * Properties *)

(** ** The error monad and the loops *)

Lemma bind_Ok {A B} (m : result A) (f : A -> result B) (b : B) :
  m ≫= f = Ok b <-> exists a, m = Ok a /\ f a = Ok b.
Proof.
  destruct m as [a|e]; simpl; split.
  - intros H. exists a. auto.
  - intros (a' & Ha & Hf). congruence.
  - discriminate.
  - intros (a' & Ha & _). discriminate.
Qed.

Lemma bind_Err {A B} (m : result A) (f : A -> result B) (e : exn) :
  m ≫= f = Err e <-> m = Err e \/ exists a, m = Ok a /\ f a = Err e.
Proof.
  destruct m as [a|e']; simpl; split.
  - intros H. right. exists a. auto.
  - intros [H|(a' & Ha & Hf)]; congruence.
  - intros [= ->]. left. reflexivity.
  - intros [[= ->]|(a' & Ha & _)]; [reflexivity | discriminate].
Qed.

Lemma of_option_Ok {A} (o : option A) (e : exn) (a : A) :
  of_option o e = Ok a -> o = Some a.
Proof. destruct o; simpl; congruence. Qed.

(** Take a chain of binds that ended in [Ok] apart. *)
Ltac inv_bind H :=
  repeat match type of H with
  | _ ≫= _ = Ok _ =>
      let a := fresh "v" in
      let Ha := fresh "Hv" in
      apply bind_Ok in H; destruct H as (a & Ha & H)
  | mret _ = Ok _ => injection H as H
  | Ok _ = Ok _ => injection H as H
  | Err _ = Ok _ => discriminate H
  end.

Lemma for_each_app {A S} (body : S -> A -> result S) s xs ys :
  for_each body s (xs ++ ys) = for_each body s xs ≫= fun s' => for_each body s' ys.
Proof.
  revert s. induction xs as [|x xs IH]; intros s; simpl; [reflexivity|].
  destruct (body s x) as [s'|e]; simpl; [apply IH | reflexivity].
Qed.

Lemma range1_snoc (n : Z) : 0 <= n -> range1 (n + 1) = range1 n ++ [n + 1].
Proof.
  intros Hn. unfold range1. rewrite seqZ_app by lia.
  rewrite (seqZ_cons (1 + n)) by lia.
  rewrite (seqZ_nil (Z.succ (1 + n))) by lia.
  do 2 f_equal. lia.
Qed.

Lemma range1_neg (n : Z) : n <= 0 -> range1 n = [].
Proof. apply seqZ_nil. Qed.

(** Invariants of [for k in range(1, n + 1)]: [P i s] holds of the state
    after [i] rounds. *)
Lemma for_each_range1 {S} (P : Z -> S -> Prop) (body : S -> Z -> result S)
    (n : Z) (s0 : S) :
  P 0 s0 ->
  (forall i s s', 0 <= i < n -> P i s -> body s (i + 1) = Ok s' -> P (i + 1) s') ->
  forall s', for_each body s0 (range1 n) = Ok s' -> P (Z.max 0 n) s'.
Proof.
  intros H0 Hstep.
  destruct (Z_le_gt_dec n 0) as [Hn|Hn].
  { intros s'. rewrite range1_neg by lia. simpl. intros [= <-].
    replace (Z.max 0 n) with 0 by lia. exact H0. }
  assert (Hgen : forall k : nat, Z.of_nat k <= n ->
            forall s', for_each body s0 (range1 (Z.of_nat k)) = Ok s' ->
                       P (Z.of_nat k) s').
  { induction k as [|k IH]; intros Hk s'.
    - simpl. intros [= <-]. exact H0.
    - rewrite Nat2Z.inj_succ, <- Z.add_1_r.
      rewrite range1_snoc by lia. rewrite for_each_app.
      intros H. apply bind_Ok in H. destruct H as (s1 & H1 & H2).
      simpl in H2. destruct (body s1 (Z.of_nat k + 1)) as [s2|] eqn:Hb; [|discriminate].
      injection H2 as <-.
      apply (Hstep (Z.of_nat k) s1); [lia | apply IH; [lia | exact H1] | exact Hb]. }
  intros s' H. replace (Z.max 0 n) with (Z.of_nat (Z.to_nat n)) by lia.
  apply Hgen; [lia|]. rewrite Z2Nat.id by lia. exact H.
Qed.

(** An exception of the loop is an exception of one round. *)
Lemma for_each_Err {A S} (Q : exn -> Prop) (I : S -> Prop)
    (body : S -> A -> result S) (xs : list A) (s0 : S) :
  I s0 ->
  (forall s x, I s -> match body s x with Ok s' => I s' | Err e => Q e end) ->
  match for_each body s0 xs with Ok s' => I s' | Err e => Q e end.
Proof.
  intros H0 Hstep. revert s0 H0.
  induction xs as [|x xs IH]; intros s0 H0; simpl; [exact H0|].
  specialize (Hstep s0 x H0). destruct (body s0 x) as [s1|e]; [|exact Hstep].
  apply IH, Hstep.
Qed.

(** ** The payment calendar *)

Section calendar.
Import PaymentCalendar.

Lemma frequency_to_days_Err self e :
  _frequency_to_days self = Err e ->
  e = UnsupportedPaymentFrequency /\ ~ supported (payment_frequency self).
Proof.
  unfold _frequency_to_days, supported.
  destruct (String.eqb_spec (payment_frequency self) "1m"); [discriminate|].
  destruct (String.eqb_spec (payment_frequency self) "3m"); [discriminate|].
  destruct (String.eqb_spec (payment_frequency self) "6m"); [discriminate|].
  intros [= <-]. split; [reflexivity | tauto].
Qed.

Lemma frequency_delta_Err self e :
  frequency_delta self = Err e ->
  e = UnsupportedPaymentFrequency /\ ~ supported (payment_frequency self).
Proof.
  unfold frequency_delta, supported.
  destruct (String.eqb_spec (payment_frequency self) "1m"); [discriminate|].
  destruct (String.eqb_spec (payment_frequency self) "3m"); [discriminate|].
  destruct (String.eqb_spec (payment_frequency self) "6m"); [discriminate|].
  intros [= <-]. split; [reflexivity | tauto].
Qed.

Lemma next_day_Err d e : next_day d = Err e -> e = DateOutOfRange.
Proof. unfold next_day. repeat case_match; congruence. Qed.

Lemma add_months_Err d k e : add_months d k = Err e -> e = DateOutOfRange.
Proof. unfold add_months. repeat case_match; congruence. Qed.

Lemma next_business_day_Err fuel holiday d e :
  next_business_day fuel holiday d = Err e ->
  e = DateOutOfRange \/ e = NonTermination.
Proof.
  revert d. induction fuel as [|f IH]; intros d; simpl.
  - intros [= <-]. auto.
  - destruct ((5 <=? weekday d) || holiday d); [|discriminate].
    intros H. apply bind_Err in H. destruct H as [H|(d' & _ & H)].
    + left. eapply next_day_Err, H.
    + eapply IH, H.
Qed.

Lemma schedule_step_frequency fuel delta cpd self nb i :
  match schedule_step fuel delta cpd (self, nb) i with
  | Ok (self', _) => payment_frequency self' = payment_frequency self
  | Err e => e = UnsupportedPaymentFrequency -> ~ supported (payment_frequency self)
  end.
Proof.
  destruct (schedule_step fuel delta cpd (self, nb) i) as [[self' nb']|e] eqn:H.
  - unfold schedule_step in H. inv_bind H. subst self'. reflexivity.
  - intros ->. unfold schedule_step in H.
    apply bind_Err in H. destruct H as [H|(a1 & _ & H)].
    { unfold nominal_anchor in H. apply bind_Err in H.
      destruct H as [H|(? & _ & H)]; [apply add_months_Err in H|]; discriminate. }
    apply bind_Err in H. destruct H as [H|(a2 & _ & H)].
    { apply next_business_day_Err in H. destruct H; discriminate. }
    apply bind_Err in H. destruct H as [H|(a3 & _ & H)].
    { destruct (1 <? i); [|discriminate].
      destruct (payment_dates self !! (i - 1)); discriminate. }
    apply bind_Err in H. destruct H as [H|(a4 & _ & H)].
    { apply frequency_to_days_Err in H. tauto. }
    apply bind_Err in H. destruct H as [H|(a5 & _ & H)]; [|discriminate].
    apply add_months_Err in H. discriminate.
Qed.

End calendar.

(** C9: [generate_schedule] raises the unsupported-frequency error exactly
    when [payment_frequency] is none of "1m", "3m" and "6m"; it raises it
    before any date is computed, so no schedule comes back, and for the
    three supported values it never raises it. *)
Theorem C9_invalid_frequency (fuel : nat) (self : PaymentCalendar.t) :
  PaymentCalendar.generate_schedule fuel self = Err UnsupportedPaymentFrequency
  <-> ~ supported (PaymentCalendar.payment_frequency self).
Proof.
  unfold PaymentCalendar.generate_schedule, PaymentCalendar.run_schedule.
  split.
  - intros H. apply bind_Err in H. destruct H as [H|(st & _ & H)]; [|discriminate].
    apply bind_Err in H. destruct H as [H|(delta & _ & H)].
    { apply frequency_delta_Err in H. tauto. }
    apply bind_Err in H. destruct H as [H|(fd & _ & H)].
    { apply frequency_to_days_Err in H. tauto. }
    pose proof (for_each_Err
      (fun e => e = UnsupportedPaymentFrequency ->
                ~ supported (PaymentCalendar.payment_frequency self))
      (fun st : PaymentCalendar.loop_state =>
         PaymentCalendar.payment_frequency (fst st) =
         PaymentCalendar.payment_frequency self)
      (PaymentCalendar.schedule_step fuel delta
         (day (PaymentCalendar.start_date self)))
      (range1 (PaymentCalendar.term_in_months self * 30 / fd))
      (self, PaymentCalendar.start_date self) eq_refl) as Hloop.
    rewrite H in Hloop. apply Hloop; [|reflexivity].
    intros [s nb] x Hs. simpl in Hs.
    pose proof (schedule_step_frequency fuel delta
                  (day (PaymentCalendar.start_date self)) s nb x) as Hstep.
    destruct (PaymentCalendar.schedule_step fuel delta _ (s, nb) x) as [[s' nb']|e].
    + simpl. congruence.
    + rewrite <- Hs. exact Hstep.
  - intros Hns. unfold PaymentCalendar.frequency_delta, supported in *.
    destruct (String.eqb_spec (PaymentCalendar.payment_frequency self) "1m"); [tauto|].
    destruct (String.eqb_spec (PaymentCalendar.payment_frequency self) "3m"); [tauto|].
    destruct (String.eqb_spec (PaymentCalendar.payment_frequency self) "6m"); [tauto|].
    reflexivity.
Qed.

(** C5: start 2024-01-10, monthly, two periods, no holiday besides the
    weekends.  Installment 1 is anchored on Saturday 2024-02-10 and paid on
    Monday 2024-02-12 after 33 days; the nominal base the loop carries into
    round 2 is 2024-02-10, so installment 2 is anchored on Sunday
    2024-03-10 and paid on Monday 2024-03-11 after 28 days.  Three steps of
    the business-day search are enough. *)
Theorem C5_scenario_weekend_shift (extra : nat) :
  let fuel := (3 + extra)%nat in
  let cal := PaymentCalendar.init (Date 2024 1 10) 2 "1m" no_holidays in
  weekday (Date 2024 2 10) = 5 /\ weekday (Date 2024 3 10) = 6 /\
  PaymentCalendar.nominal_anchor (Date 2024 1 10) 1 10 = Ok (Date 2024 2 10) /\
  (exists cal1,
     PaymentCalendar.schedule_step fuel 1 10 (cal, Date 2024 1 10) 1
       = Ok (cal1, Date 2024 2 10) /\
     PaymentCalendar.payment_dates cal1 !! 1 = Some (Date 2024 2 12)) /\
  PaymentCalendar.nominal_anchor (Date 2024 2 10) 1 10 = Ok (Date 2024 3 10) /\
  exists cal2,
    PaymentCalendar.generate_schedule fuel cal = Ok cal2 /\
    PaymentCalendar.payment_dates cal2
      = {[ 1 := Date 2024 2 12; 2 := Date 2024 3 11 ]} /\
    PaymentCalendar.accrual_days cal2 = {[ 1 := 33; 2 := 28 ]}.
Proof.
  cbv zeta.
  split; [vm_compute; reflexivity|].
  split; [vm_compute; reflexivity|].
  split; [vm_compute; reflexivity|].
  split.
  { eexists. split; [vm_compute; reflexivity | vm_compute; reflexivity]. }
  split; [vm_compute; reflexivity|].
  eexists. split; [vm_compute; reflexivity|].
  split; vm_compute; reflexivity.
Qed.

(** ** What a generated calendar looks like *)

Section calendar_shape.
Import PaymentCalendar.

Lemma in_range1 (k i : Z) : k ∈ (list_to_set (seqZ 1 i) : gset Z) <-> 1 <= k <= i.
Proof. rewrite elem_of_list_to_set, elem_of_seqZ. lia. Qed.

Lemma range1_succ_set (i : Z) : 0 <= i ->
  (list_to_set (seqZ 1 (i + 1)) : gset Z) = {[ i + 1 ]} ∪ list_to_set (seqZ 1 i).
Proof.
  intros Hi. apply set_eq. intros k.
  rewrite elem_of_union, elem_of_singleton, !in_range1. lia.
Qed.

Lemma filled_lookup start term freq fd i s k :
  filled start term freq fd i s -> 1 <= k <= i ->
  exists d a, payment_dates s !! k = Some d /\ accrual_days s !! k = Some a /\
              turkish_banking_accrual_days s !! k = Some fd.
Proof.
  intros F Hk.
  assert (Hd : is_Some (payment_dates s !! k)).
  { apply elem_of_dom. rewrite (filled_dates _ _ _ _ _ _ F). apply in_range1, Hk. }
  assert (Ha : is_Some (accrual_days s !! k)).
  { apply elem_of_dom. rewrite (filled_accrual _ _ _ _ _ _ F). apply in_range1, Hk. }
  assert (Hf : is_Some (turkish_banking_accrual_days s !! k)).
  { apply elem_of_dom. rewrite (filled_fixed _ _ _ _ _ _ F). apply in_range1, Hk. }
  destruct Hd as [d Hd], Ha as [a Ha], Hf as [v Hf].
  exists d, a. repeat split; try assumption.
  rewrite Hf. f_equal. eapply filled_fixed_days; eassumption.
Qed.

Lemma schedule_step_filled fuel delta cpd start term freq fd i s nb s' nb' :
  0 <= i ->
  filled start term freq fd i s ->
  _frequency_to_days s = Ok fd ->
  schedule_step fuel delta cpd (s, nb) (i + 1) = Ok (s', nb') ->
  filled start term freq fd (i + 1) s'.
Proof.
  intros Hi F Hfd H. unfold schedule_step in H. inv_bind H.
  rewrite Hfd in Hv2. injection Hv2 as <-.
  subst s'. destruct F as [Fs Fm Ff Fd Fa Ft Ftd Fe].
  split; simpl; try assumption.
  - rewrite dom_insert_L, Fd, range1_succ_set by lia. reflexivity.
  - rewrite dom_insert_L, Fa, range1_succ_set by lia. reflexivity.
  - rewrite dom_insert_L, Ft, range1_succ_set by lia. reflexivity.
  - intros k w. rewrite lookup_insert. case_decide; [congruence|]. apply Ftd.
  - intros k a. rewrite lookup_insert. case_decide as Hk.
    + subst k. intros [= <-]. exists v0, v1. rewrite lookup_insert_eq.
      split; [reflexivity|]. split; [|reflexivity].
      destruct (1 <? i + 1) eqn:Hlt.
      * rewrite lookup_insert_ne by lia.
        destruct (payment_dates s !! (i + 1 - 1)); simpl in Hv1; congruence.
      * congruence.
    + intros Hk'.
      assert (Hr : 1 <= k <= i).
      { apply in_range1. rewrite <- Fa. apply elem_of_dom. eauto. }
      destruct (Fe k a Hk') as (d & prev & Hd & Hp & ->).
      exists d, prev. rewrite lookup_insert_ne by lia.
      split; [exact Hd|]. split; [|reflexivity].
      destruct (1 <? k); [|exact Hp]. rewrite lookup_insert_ne by lia. exact Hp.
Qed.

Lemma schedule_step_days fuel delta cpd s nb i s' nb' :
  schedule_step fuel delta cpd (s, nb) i = Ok (s', nb') ->
  _frequency_to_days s' = _frequency_to_days s.
Proof.
  intros H. unfold schedule_step in H. inv_bind H. subst s'. reflexivity.
Qed.

Lemma generate_schedule_filled fuel start term freq holiday cal :
  generate_schedule fuel (init start term freq holiday) = Ok cal ->
  exists fd,
    _frequency_to_days cal = Ok fd /\
    filled start term freq fd (periods term fd) cal.
Proof.
  unfold generate_schedule, run_schedule. intros H. inv_bind H. inv_bind Hv.
  rename v0 into delta, v1 into fd. subst cal. exists fd.
  set (P := fun (i : Z) (st : loop_state) =>
              _frequency_to_days (fst st) = Ok fd /\
              filled start term freq fd i (fst st)).
  assert (HP : P (Z.max 0 (term * 30 / fd)) v).
  { eapply (for_each_range1 P); [| |exact Hv].
    - split; [exact Hv1|]. simpl.
      split; simpl; try reflexivity;
        try (intros ? ?; rewrite lookup_empty; discriminate).
      all: rewrite dom_empty_L, seqZ_nil by lia; reflexivity.
    - intros i [s nb] [s' nb'] Hi [Hfd F] Hstep. simpl in *. split.
      + erewrite schedule_step_days by exact Hstep. exact Hfd.
      + eapply schedule_step_filled; [lia | exact F | exact Hfd | exact Hstep]. }
  exact HP.
Qed.

Lemma filled_size start term freq fd i s :
  0 <= i -> filled start term freq fd i s -> Z.of_nat (size (payment_dates s)) = i.
Proof.
  intros Hi F. rewrite <- size_dom, (filled_dates _ _ _ _ _ _ F).
  rewrite size_list_to_set by apply NoDup_seqZ. rewrite length_seqZ. lia.
Qed.

Lemma frequency_to_days_cases self fd :
  _frequency_to_days self = Ok fd ->
  (payment_frequency self = "1m" /\ fd = 30) \/
  (payment_frequency self = "3m" /\ fd = 90) \/
  (payment_frequency self = "6m" /\ fd = 180).
Proof.
  unfold _frequency_to_days.
  destruct (String.eqb_spec (payment_frequency self) "1m"); [intros [= <-]; auto|].
  destruct (String.eqb_spec (payment_frequency self) "3m"); [intros [= <-]; auto|].
  destruct (String.eqb_spec (payment_frequency self) "6m"); [intros [= <-]; auto|].
  discriminate.
Qed.

(** On a generated calendar [get_accrual_days] hands out the dictionary
    that is there: a second run happens only for an empty calendar and
    leaves it empty. *)
Lemma get_accrual_days_filled fuel start term freq fd cal cal' actual :
  filled start term freq fd (periods term fd) cal ->
  _frequency_to_days cal = Ok fd ->
  get_accrual_days fuel cal = Ok (cal', actual) ->
  cal' = cal /\ actual = accrual_days cal.
Proof.
  intros F Hfd. unfold get_accrual_days.
  destruct (decide (accrual_days cal = ∅)) as [Hempty|_].
  - assert (Hnone : term * 30 / fd <= 0).
    { destruct (Z_le_gt_dec (term * 30 / fd) 0) as [|Hpos]; [assumption|].
      exfalso. assert (H1 : 1 ∈ dom (accrual_days cal)).
      { rewrite (filled_accrual _ _ _ _ _ _ F). apply in_range1.
        unfold periods. lia. }
      rewrite Hempty, dom_empty_L in H1. set_solver. }
    unfold generate_schedule, run_schedule.
    destruct (frequency_delta cal); simpl; [|discriminate].
    rewrite Hfd. simpl.
    rewrite (filled_term _ _ _ _ _ _ F), range1_neg by exact Hnone.
    simpl. intros [= <- <-]. auto.
  - intros [= <- <-]. auto.
Qed.

End calendar_shape.

(** ** What a constructed loan looks like *)

Lemma foldl_insert_const (v : Z) (l : list Z) (m : gmap Z Z) (k : Z) :
  foldl (fun m k => <[k := v]> m) m l !! k
  = if decide (k ∈ l) then Some v else m !! k.
Proof.
  revert m. induction l as [|x l IH]; intros m; cbn [foldl].
  - destruct (decide (k ∈ [])) as [Hin|_]; [|reflexivity].
    apply elem_of_nil in Hin. contradiction.
  - rewrite IH. destruct (decide (k = x)) as [->|Hne].
    + rewrite lookup_insert_eq.
      destruct (decide (x ∈ l)), (decide (x ∈ x :: l)) as [|Hn]; try reflexivity;
        exfalso; apply Hn; left.
    + rewrite lookup_insert_ne by congruence.
      destruct (decide (k ∈ l)) as [Hin|Hnin], (decide (k ∈ x :: l)) as [Hin'|Hnin'];
        try reflexivity.
      * exfalso. apply Hnin'. right. exact Hin.
      * exfalso. apply elem_of_cons in Hin'. tauto.
Qed.

Lemma EqualPrincipalLoan_init_inv fuel P r c start term freq b holiday variable loan :
  EqualPrincipalLoan.init fuel P r c start term freq b holiday variable = Ok loan ->
  exists fd cal fp,
    PaymentCalendar._frequency_to_days cal = Ok fd /\
    filled start term freq fd (periods term fd) cal /\
    ddiv P (of_int (periods term fd)) = Ok fp /\
    loan = EqualPrincipalLoan.Build P r c start term freq b variable cal
             (PaymentCalendar.payment_dates cal) (periods term fd)
             (PaymentCalendar.accrual_days cal)
             (foldl (fun m k => <[k := EqualPrincipalLoan.fixed_days_of freq]> m) ∅
                (range1 (periods term fd)))
             fp.
Proof.
  unfold EqualPrincipalLoan.init. intros H. inv_bind H.
  destruct v0 as [cal' actual]. inv_bind H.
  apply generate_schedule_filled in Hv. destruct Hv as (fd & Hfd & F).
  destruct (get_accrual_days_filled _ _ _ _ _ _ _ _ F Hfd Hv0) as [-> ->].
  assert (Hn : Z.of_nat (size (PaymentCalendar.payment_dates v)) = periods term fd).
  { eapply filled_size; [unfold periods; lia | exact F]. }
  rewrite Hn in *. exists fd, v, v0.
  split; [exact Hfd|]. split; [exact F|]. split; [exact Hv1|].
  symmetry. exact H.
Qed.

Lemma EqualInstallmentLoan_init_inv fuel P r c start term freq b holiday loan :
  EqualInstallmentLoan.init fuel P r c start term freq b holiday = Ok loan ->
  exists fd cal T,
    PaymentCalendar._frequency_to_days cal = Ok fd /\
    filled start term freq fd (periods term fd) cal /\
    EqualInstallmentLoan.annuity P r b fd (periods term fd) = Ok T /\
    loan = EqualInstallmentLoan.Build P r c start term freq b cal
             (PaymentCalendar.payment_dates cal) (periods term fd)
             (PaymentCalendar.turkish_banking_accrual_days cal) T.
Proof.
  unfold EqualInstallmentLoan.init. intros H. inv_bind H.
  apply generate_schedule_filled in Hv. destruct Hv as (fd & Hfd & F).
  rewrite Hfd in Hv0. injection Hv0 as <-.
  assert (Hn : Z.of_nat (size (PaymentCalendar.payment_dates v)) = periods term fd).
  { eapply filled_size; [unfold periods; lia | exact F]. }
  rewrite Hn in *. exists fd, v, v1.
  split; [exact Hfd|]. split; [exact F|]. split; [exact Hv1|].
  symmetry. exact H.
Qed.

(** ** The loop over the regular installments *)

Section amortisation_loop.
Context (step : list row * Decimal -> Z -> result (list row * Decimal)).
Hypothesis step_snoc : forall sch rem k sch' rem',
  step (sch, rem) k = Ok (sch', rem') ->
  exists r, sch' = sch ++ [r] /\ installment_number r = k.

(** [R i rem] describes the running remaining principal after [i] rounds,
    [Q] the rows the rounds append. *)
Lemma loop_rows (R : Z -> Decimal -> Prop) (Q : row -> Prop)
    (first : list row) (P0 : Decimal) (N : Z) (sched : list row) (rem : Decimal) :
  R 0 P0 ->
  (forall i sch rem0 r rem',
      0 <= i < N -> R i rem0 ->
      step (sch, rem0) (i + 1) = Ok (sch ++ [r], rem') ->
      installment_number r = i + 1 ->
      R (i + 1) rem' /\ Q r) ->
  for_each step (first, P0) (range1 N) = Ok (sched, rem) ->
  exists regs,
    sched = first ++ regs /\
    installment_number <$> regs = range1 N /\
    Forall Q regs /\
    R (Z.max 0 N) rem.
Proof.
  intros H0 Hstep Hrun.
  set (I := fun (i : Z) (st : list row * Decimal) =>
              exists regs, fst st = first ++ regs /\
                           installment_number <$> regs = range1 i /\
                           Forall Q regs /\ R i (snd st)).
  assert (HI : I (Z.max 0 N) (sched, rem)).
  { eapply (for_each_range1 I); [| |exact Hrun].
    - exists []. simpl. rewrite app_nil_r. repeat split; auto.
    - intros i [sch rem0] [sch' rem'] Hi (regs & Hs & Hn & HQ & HR) Hb.
      simpl in Hs, HR. subst sch.
      destruct (step_snoc _ _ _ _ _ Hb) as (r & -> & Hk).
      destruct (Hstep i _ _ _ _ Hi HR Hb Hk) as [HR' HQ'].
      exists (regs ++ [r]). simpl. rewrite <- app_assoc.
      split; [reflexivity|]. split.
      + rewrite fmap_app, Hn, range1_snoc by lia. simpl. rewrite Hk. reflexivity.
      + split; [|exact HR']. apply Forall_app. split; [exact HQ|].
        constructor; [exact HQ'|constructor]. }
  destruct HI as (regs & Hs & Hn & HQ & HR). simpl in Hs, HR.
  exists regs. repeat split; try assumption.
  rewrite Hn. unfold range1. destruct (Z_le_gt_dec N 0).
  - rewrite !seqZ_nil by lia. reflexivity.
  - f_equal. lia.
Qed.

End amortisation_loop.

Lemma EqualPrincipalLoan_step_snoc self sch rem k sch' rem' :
  EqualPrincipalLoan.schedule_step self (sch, rem) k = Ok (sch', rem') ->
  exists r, sch' = sch ++ [r] /\ installment_number r = k.
Proof.
  unfold EqualPrincipalLoan.schedule_step. intros H. inv_bind H.
  destruct v as [period_rate accrual]. inv_bind H.
  eexists. split; [symmetry; exact H|reflexivity].
Qed.

Lemma EqualInstallmentLoan_step_snoc self sch rem k sch' rem' :
  EqualInstallmentLoan.schedule_step self (sch, rem) k = Ok (sch', rem') ->
  exists r, sch' = sch ++ [r] /\ installment_number r = k.
Proof.
  unfold EqualInstallmentLoan.schedule_step. intros H. inv_bind H.
  eexists. split; [symmetry; exact H|reflexivity].
Qed.

Lemma commission_rows_number P c b start rem first :
  commission_rows P c b start rem = Ok first ->
  Forall (fun r => installment_number r = 0) first.
Proof.
  unfold commission_rows. destruct (dltb (of_int 0) c).
  - intros H. inv_bind H. subst first. repeat constructor.
  - intros [= <-]. constructor.
Qed.

(** ** Accrual days written into the rows *)

Lemma fixed_days_of_convention freq :
  supported freq -> convention_days freq (EqualPrincipalLoan.fixed_days_of freq).
Proof.
  unfold supported, convention_days.
  intros [-> | [-> | ->]]; unfold EqualPrincipalLoan.fixed_days_of; simpl; auto.
Qed.

(** A property every round of the loop gives its row holds of every
    regular row of the schedule. *)
Lemma EqualPrincipalLoan_regular_rows (Q : row -> Prop) self sched :
  (forall i sch rem r rem',
      0 <= i < EqualPrincipalLoan.num_payments self ->
      EqualPrincipalLoan.schedule_step self (sch, rem) (i + 1)
      = Ok (sch ++ [r], rem') ->
      Q r) ->
  EqualPrincipalLoan.calculate_schedule self = Ok sched ->
  forall r, r ∈ sched -> installment_number r <> 0 -> Q r.
Proof.
  intros Hstep Hcalc r Hin Hreg.
  unfold EqualPrincipalLoan.calculate_schedule in Hcalc. inv_bind Hcalc.
  destruct v as [sched' rem]. simpl in Hcalc. subst sched'.
  unfold EqualPrincipalLoan.run_schedule in Hv. inv_bind Hv.
  apply (loop_rows _ (EqualPrincipalLoan_step_snoc self) (fun _ _ => True) Q)
    in Hv; [|exact I|].
  - destruct Hv as (regs & -> & _ & HQ & _).
    apply elem_of_app in Hin. destruct Hin as [Hin|Hin].
    + apply commission_rows_number in Hv0.
      rewrite Forall_forall in Hv0. specialize (Hv0 r Hin). contradiction.
    + rewrite Forall_forall in HQ. apply HQ, Hin.
  - intros i sch rem0 r0 rem' Hi _ Hs _. split; [exact I|]. eapply Hstep; eassumption.
Qed.

Lemma EqualInstallmentLoan_regular_rows (Q : row -> Prop) self sched :
  (forall i sch rem r rem',
      0 <= i < EqualInstallmentLoan.num_payments self ->
      EqualInstallmentLoan.schedule_step self (sch, rem) (i + 1)
      = Ok (sch ++ [r], rem') ->
      Q r) ->
  EqualInstallmentLoan.calculate_schedule self = Ok sched ->
  forall r, r ∈ sched -> installment_number r <> 0 -> Q r.
Proof.
  intros Hstep Hcalc r Hin Hreg.
  unfold EqualInstallmentLoan.calculate_schedule in Hcalc. inv_bind Hcalc.
  destruct v as [sched' rem]. simpl in Hcalc. subst sched'.
  unfold EqualInstallmentLoan.run_schedule in Hv. inv_bind Hv.
  apply (loop_rows _ (EqualInstallmentLoan_step_snoc self) (fun _ _ => True) Q)
    in Hv; [|exact I|].
  - destruct Hv as (regs & -> & _ & HQ & _).
    apply elem_of_app in Hin. destruct Hin as [Hin|Hin].
    + apply commission_rows_number in Hv0.
      rewrite Forall_forall in Hv0. specialize (Hv0 r Hin). contradiction.
    + rewrite Forall_forall in HQ. apply HQ, Hin.
  - intros i sch rem0 r0 rem' Hi _ Hs _. split; [exact I|]. eapply Hstep; eassumption.
Qed.

Lemma snoc_inj {A} (l : list A) (x y : A) : l ++ [x] = l ++ [y] -> x = y.
Proof. intros H. apply app_inv_head in H. congruence. Qed.

(** C10: the [accrual_days] field of a regular row is the constant of the
    fixed convention (30, 90 or 180 by frequency) in every
    [EqualInstallmentLoan] schedule and in every [EqualPrincipalLoan]
    schedule built with [use_variable_accrual_days = False], whatever the
    gap between the payment dates; with [use_variable_accrual_days = True]
    the field is the number of days from the previous payment date (the
    start date for installment 1) to the row's own payment date. *)
Theorem C10_accrual_days_field (fuel : nat) (P r c b : Decimal) (start : date)
    (term : Z) (freq : string) (holiday : date -> bool) :
  (forall loan sched row,
      EqualInstallmentLoan.init fuel P r c start term freq b holiday = Ok loan ->
      EqualInstallmentLoan.calculate_schedule loan = Ok sched ->
      row ∈ sched -> installment_number row <> 0 ->
      convention_days freq (row_accrual_days row)) /\
  (forall loan sched row,
      EqualPrincipalLoan.init fuel P r c start term freq b holiday false = Ok loan ->
      EqualPrincipalLoan.calculate_schedule loan = Ok sched ->
      row ∈ sched -> installment_number row <> 0 ->
      convention_days freq (row_accrual_days row)) /\
  (forall loan sched row,
      EqualPrincipalLoan.init fuel P r c start term freq b holiday true = Ok loan ->
      EqualPrincipalLoan.calculate_schedule loan = Ok sched ->
      row ∈ sched -> installment_number row <> 0 ->
      exists prev,
        (if 1 <? installment_number row
         then EqualPrincipalLoan.payment_dates loan !! (installment_number row - 1)
              = Some prev
         else prev = start) /\
        row_accrual_days row = days_between (payment_date row) prev).
Proof.
  split; [|split].
  - intros loan sched row Hinit Hcalc.
    apply EqualInstallmentLoan_init_inv in Hinit.
    destruct Hinit as (fd & cal & T & Hfd & F & _ & ->).
    eapply (EqualInstallmentLoan_regular_rows
             (fun row => convention_days freq (row_accrual_days row)));
      [|exact Hcalc].
    intros i sch rem r0 rem' Hi Hs.
    unfold EqualInstallmentLoan.schedule_step in Hs. inv_bind Hs. simpl in *.
    apply snoc_inj in Hs. subst r0. simpl.
    destruct (PaymentCalendar.turkish_banking_accrual_days cal !! (i + 1))
      as [days|] eqn:Hd; [|discriminate].
    injection Hv4 as <-.
    apply (filled_fixed_days _ _ _ _ _ _ F) in Hd. subst days.
    apply frequency_to_days_cases in Hfd.
    rewrite (filled_freq _ _ _ _ _ _ F) in Hfd. exact Hfd.
  - intros loan sched row Hinit Hcalc.
    apply EqualPrincipalLoan_init_inv in Hinit.
    destruct Hinit as (fd & cal & fp & Hfd & F & _ & ->).
    eapply (EqualPrincipalLoan_regular_rows
             (fun row => convention_days freq (row_accrual_days row)));
      [|exact Hcalc].
    intros i sch rem r0 rem' Hi Hs. simpl in Hi.
    unfold EqualPrincipalLoan.schedule_step in Hs. inv_bind Hs.
    destruct v as [period_rate accrual]. inv_bind Hs.
    apply snoc_inj in Hs. subst r0. simpl.
    unfold EqualPrincipalLoan.period_terms in Hv. simpl in Hv.
    rewrite foldl_insert_const in Hv.
    destruct (decide (i + 1 ∈ range1 (periods term fd))) as [_|Hn].
    + simpl in Hv. injection Hv as _ <-.
      apply fixed_days_of_convention.
      apply frequency_to_days_cases in Hfd.
      rewrite (filled_freq _ _ _ _ _ _ F) in Hfd. unfold supported. tauto.
    + rewrite lookup_empty in Hv. discriminate.
  - intros loan sched row Hinit Hcalc.
    apply EqualPrincipalLoan_init_inv in Hinit.
    destruct Hinit as (fd & cal & fp & Hfd & F & _ & ->).
    eapply (EqualPrincipalLoan_regular_rows
             (fun row => exists prev,
                (if 1 <? installment_number row
                 then PaymentCalendar.payment_dates cal !! (installment_number row - 1)
                      = Some prev
                 else prev = start) /\
                row_accrual_days row = days_between (payment_date row) prev));
      [|exact Hcalc].
    intros i sch rem r0 rem' Hi Hs. simpl in Hi.
    unfold EqualPrincipalLoan.schedule_step in Hs. inv_bind Hs.
    destruct v as [period_rate accrual]. inv_bind Hs.
    apply snoc_inj in Hs. subst r0. simpl.
    unfold EqualPrincipalLoan.period_terms in Hv. simpl in Hv. inv_bind Hv.
    simpl in Hv3. apply of_option_Ok in Hv3, Hv6. subst accrual.
    destruct (filled_elapsed _ _ _ _ _ _ F _ _ Hv6) as (d & prev & Hd & Hp & ->).
    rewrite Hd in Hv3. injection Hv3 as <-.
    exists prev. split; [exact Hp | reflexivity].
Qed.

Lemma C10_accrual_days_witness :
  let row1 :=
    Row 1 (Date 2024 2 12) 30 (Dec 5937655 (-2)) (Dec 240000 (-2)) ZERO_00
      (Dec 12000 (-2)) (Dec 6189655 (-2)) (Dec 6062345 (-2)) in
  let row1' :=
    Row 1 (Date 2024 2 12) 33 (Dec 6000000 (-2)) (Dec 264000 (-2)) ZERO_00
      (Dec 13200 (-2)) (Dec 6277200 (-2)) (Dec 6000000 (-2)) in
  convention_days "1m" (row_accrual_days row1) /\
  days_between (payment_date row1) (Date 2024 1 10) = 33 /\
  exists prev, prev = Date 2024 1 10 /\
               row_accrual_days row1' = days_between (payment_date row1') prev.
Proof.
  intros row1 row1'.
  destruct (C10_accrual_days_field 3 (Dec 12000000 (-2)) (Dec 2 (-2)) (Dec 0 0)
              (Dec 5 (-2)) (Date 2024 1 10) 2 "1m" no_holidays)
    as (Hinstallment & _ & Hvariable).
  split; [|split].
  - refine (Hinstallment _ _ row1 _ _ _ _).
    + vm_compute. reflexivity.
    + vm_compute. reflexivity.
    + constructor.
    + discriminate.
  - vm_compute. reflexivity.
  - refine (Hvariable _ _ row1' _ _ _ _).
    + vm_compute. reflexivity.
    + vm_compute. reflexivity.
    + constructor.
    + discriminate.
Defined.

(** ** Scenario 2: equal principal, 120000.00 over three months at 2% *)

Lemma filled_dates_three start term freq fd cal :
  filled start term freq fd 3 cal ->
  exists d1 d2 d3,
    PaymentCalendar.payment_dates cal = <[1 := d1]> (<[2 := d2]> (<[3 := d3]> ∅)).
Proof.
  intros F.
  destruct (filled_lookup _ _ _ _ _ _ 1 F ltac:(lia)) as (d1 & _ & H1 & _).
  destruct (filled_lookup _ _ _ _ _ _ 2 F ltac:(lia)) as (d2 & _ & H2 & _).
  destruct (filled_lookup _ _ _ _ _ _ 3 F ltac:(lia)) as (d3 & _ & H3 & _).
  exists d1, d2, d3. apply map_eq. intros i.
  destruct (decide (i = 1)) as [->|N1]; [rewrite lookup_insert_eq; exact H1|].
  rewrite lookup_insert_ne by congruence.
  destruct (decide (i = 2)) as [->|N2]; [rewrite lookup_insert_eq; exact H2|].
  rewrite lookup_insert_ne by congruence.
  destruct (decide (i = 3)) as [->|N3]; [rewrite lookup_insert_eq; exact H3|].
  rewrite lookup_insert_ne by congruence. rewrite lookup_empty.
  apply not_elem_of_dom. rewrite (filled_dates _ _ _ _ _ _ F), in_range1. lia.
Qed.

(** C6: principal 120000.00, monthly rate 0.02, no commission, three monthly
    periods, fixed convention.  Whatever the start date and the holiday
    calendar the loan was built with, [calculate_schedule] returns, and what
    it returns is the three rows
    (1: 40000.00, 2400.00, 120.00, 42520.00, 80000.00),
    (2: 40000.00, 1600.00, 80.00, 41680.00, 40000.00),
    (3: 40000.00, 800.00, 40.00, 40840.00, 0.00),
    each with commission 0.00, and no commission row. *)
Theorem C6_scenario_equal_principal (fuel : nat) (start : date)
    (holiday : date -> bool) (loan : EqualPrincipalLoan.t) :
  EqualPrincipalLoan.init fuel (Dec 12000000 (-2)) (Dec 2 (-2)) (Dec 0 0) start 3
    "1m" (Dec 5 (-2)) holiday false = Ok loan ->
  exists sched,
    EqualPrincipalLoan.calculate_schedule loan = Ok sched /\
    amounts <$> sched =
      [ (1, Dec 4000000 (-2), Dec 240000 (-2), Dec 12000 (-2), Dec 0 (-2),
         Dec 4252000 (-2), Dec 8000000 (-2));
        (2, Dec 4000000 (-2), Dec 160000 (-2), Dec 8000 (-2), Dec 0 (-2),
         Dec 4168000 (-2), Dec 4000000 (-2));
        (3, Dec 4000000 (-2), Dec 80000 (-2), Dec 4000 (-2), Dec 0 (-2),
         Dec 4084000 (-2), Dec 0 (-2)) ].
Proof.
  intros Hinit.
  apply EqualPrincipalLoan_init_inv in Hinit.
  destruct Hinit as (fd & cal & fp & Hfd & F & Hfp & ->).
  apply frequency_to_days_cases in Hfd.
  rewrite (filled_freq _ _ _ _ _ _ F) in Hfd.
  destruct Hfd as [[_ ->]|[[Hf _]|[Hf _]]]; [|discriminate Hf|discriminate Hf].
  change (periods 3 30) with 3 in *.
  vm_compute in Hfp. injection Hfp as <-.
  destruct (filled_dates_three _ _ _ _ _ F) as (d1 & d2 & d3 & Hpd).
  rewrite Hpd. eexists. split; [vm_compute; reflexivity | reflexivity].
Qed.

Lemma C6_scenario_witness :
  exists sched,
    sched =
      [ Row 1 (Date 2024 6 3) 30 (Dec 4000000 (-2)) (Dec 240000 (-2)) (Dec 0 (-2))
          (Dec 12000 (-2)) (Dec 4252000 (-2)) (Dec 8000000 (-2));
        Row 2 (Date 2024 7 2) 30 (Dec 4000000 (-2)) (Dec 160000 (-2)) (Dec 0 (-2))
          (Dec 8000 (-2)) (Dec 4168000 (-2)) (Dec 4000000 (-2));
        Row 3 (Date 2024 8 2) 30 (Dec 4000000 (-2)) (Dec 80000 (-2)) (Dec 0 (-2))
          (Dec 4000 (-2)) (Dec 4084000 (-2)) (Dec 0 (-2)) ] /\
    amounts <$> sched =
      [ (1, Dec 4000000 (-2), Dec 240000 (-2), Dec 12000 (-2), Dec 0 (-2),
         Dec 4252000 (-2), Dec 8000000 (-2));
        (2, Dec 4000000 (-2), Dec 160000 (-2), Dec 8000 (-2), Dec 0 (-2),
         Dec 4168000 (-2), Dec 4000000 (-2));
        (3, Dec 4000000 (-2), Dec 80000 (-2), Dec 4000 (-2), Dec 0 (-2),
         Dec 4084000 (-2), Dec 0 (-2)) ].
Proof.
  eassert (Hinit : EqualPrincipalLoan.init 3 (Dec 12000000 (-2)) (Dec 2 (-2))
                     (Dec 0 0) (Date 2024 5 2) 3 "1m" (Dec 5 (-2)) no_holidays false
                   = Ok _)
    by (vm_compute; reflexivity).
  destruct (C6_scenario_equal_principal _ _ _ _ Hinit) as (sched & Hcalc & Hrows).
  exists sched. split; [|exact Hrows].
  vm_compute in Hcalc. injection Hcalc as <-. reflexivity.
Defined.

(** ** Decimal arithmetic: digits and context rounding *)

Lemma pow10_pos (k : Z) : 0 <= k -> 0 < 10 ^ k.
Proof. intros. apply Z.pow_pos_nonneg; lia. Qed.

Lemma pow10_add (a b : Z) : 0 <= a -> 0 <= b -> 10 ^ (a + b) = 10 ^ a * 10 ^ b.
Proof. intros. apply Z.pow_add_r; assumption. Qed.

Lemma pow10_le (a b : Z) : 0 <= a <= b -> 10 ^ a <= 10 ^ b.
Proof. intros. apply Z.pow_le_mono_r; lia. Qed.

Lemma pow10_lt (a b : Z) : 0 <= a < b -> 10 ^ a < 10 ^ b.
Proof. intros. apply Z.pow_lt_mono_r; lia. Qed.

Lemma pow10_lt_inv (a b : Z) : 0 <= a -> 0 <= b -> 10 ^ a < 10 ^ b -> a < b.
Proof.
  intros Ha Hb H. destruct (Z_lt_ge_dec a b) as [|Hge]; [assumption|].
  pose proof (pow10_le b a ltac:(lia)). lia.
Qed.

Lemma ndigits_aux_spec (fuel : nat) (n : Z) :
  0 < n -> n < 2 ^ Z.of_nat fuel ->
  1 <= ndigits_aux fuel n /\
  10 ^ (ndigits_aux fuel n - 1) <= n < 10 ^ ndigits_aux fuel n.
Proof.
  revert n. induction fuel as [|f IH]; intros n Hpos Hlt.
  - simpl in Hlt. lia.
  - cbn [ndigits_aux]. destruct (Z.ltb_spec n 10) as [Hsmall|Hbig].
    + simpl. lia.
    + assert (Hq : 0 < n / 10) by (apply Z.div_str_pos; lia).
      assert (Hq2 : n / 10 < 2 ^ Z.of_nat f).
      { apply Z.div_lt_upper_bound; [lia|].
        rewrite Nat2Z.inj_succ, Z.pow_succ_r in Hlt by lia. lia. }
      destruct (IH _ Hq Hq2) as (H1 & Hlo & Hhi).
      split; [lia|].
      replace (1 + ndigits_aux f (n / 10) - 1)
        with (ndigits_aux f (n / 10) - 1 + 1) by lia.
      rewrite (Z.add_comm 1), !pow10_add by lia.
      change (10 ^ 1) with 10.
      pose proof (Z.div_mod n 10 ltac:(lia)) as Hdm.
      pose proof (Z.mod_pos_bound n 10 ltac:(lia)) as Hm.
      lia.
Qed.

Lemma ndigits_spec (n : Z) :
  n <> 0 ->
  1 <= ndigits n /\ 10 ^ (ndigits n - 1) <= Z.abs n < 10 ^ ndigits n.
Proof.
  intros Hn. unfold ndigits. apply ndigits_aux_spec; [lia|].
  rewrite Nat2Z.inj_succ, Z2Nat.id by apply Z.log2_nonneg.
  apply Z.log2_spec. lia.
Qed.

Lemma ndigits_zero : ndigits 0 = 1.
Proof. reflexivity. Qed.

Lemma ndigits_pos (n : Z) : 1 <= ndigits n.
Proof.
  destruct (Z.eq_dec n 0) as [->|Hn]; [rewrite ndigits_zero; lia|].
  apply ndigits_spec, Hn.
Qed.

Lemma ndigits_unique (n d : Z) :
  10 ^ (d - 1) <= Z.abs n < 10 ^ d -> 1 <= d -> n <> 0 -> ndigits n = d.
Proof.
  intros [Hlo Hhi] Hd Hn.
  destruct (ndigits_spec n Hn) as (H1 & Hlo' & Hhi').
  assert (ndigits n - 1 < d) by (apply pow10_lt_inv; lia).
  assert (d - 1 < ndigits n) by (apply pow10_lt_inv; lia).
  lia.
Qed.

(** [n] has at most [k] digits exactly when it is below [10 ^ k]. *)
Lemma ndigits_le (n k : Z) : 1 <= k -> (ndigits n <= k <-> Z.abs n < 10 ^ k).
Proof.
  intros Hk. destruct (Z.eq_dec n 0) as [->|Hn].
  { rewrite ndigits_zero. pose proof (pow10_pos k). simpl. lia. }
  destruct (ndigits_spec n Hn) as (H1 & Hlo & Hhi). split.
  - intros Hle. pose proof (pow10_le (ndigits n) k). lia.
  - intros Hlt. assert (ndigits n - 1 < k) by (apply pow10_lt_inv; lia). lia.
Qed.

Lemma ndigits_shift (n k : Z) :
  n <> 0 -> 0 <= k -> ndigits (n * 10 ^ k) = ndigits n + k.
Proof.
  intros Hn Hk. destruct (ndigits_spec n Hn) as (H1 & Hlo & Hhi).
  pose proof (pow10_pos k Hk) as Hp.
  apply ndigits_unique; [|lia|nia].
  rewrite Z.abs_mul, (Z.abs_eq (10 ^ k)) by lia.
  replace (ndigits n + k - 1) with (ndigits n - 1 + k) by lia.
  rewrite !pow10_add by lia. nia.
Qed.

Lemma ndigits_opp (n : Z) : ndigits (- n) = ndigits n.
Proof. unfold ndigits. rewrite Z.abs_opp. reflexivity. Qed.

Lemma ndigits_sgn_mul (s a : Z) : 0 <= a -> s <> 0 -> ndigits (Z.sgn s * a) = ndigits a.
Proof.
  intros Ha Hs. destruct s as [|p|p]; [contradiction| |]; cbn [Z.sgn].
  - rewrite Z.mul_1_l. reflexivity.
  - replace (-1 * a) with (- a) by lia. apply ndigits_opp.
Qed.

(** Rounding the last [k] digits away. *)
Lemma round_half_up_exact (c k : Z) :
  0 <= c -> 0 <= k -> round_half_up (c * 10 ^ k) k = c.
Proof.
  intros Hc Hk. unfold round_half_up. pose proof (pow10_pos k Hk).
  rewrite Z.mod_mul, Z.div_mul by lia.
  destruct (Z.leb_spec (10 ^ k) (2 * 0)); [lia | reflexivity].
Qed.

Lemma round_half_up_bounds (a k : Z) :
  0 <= a -> 0 <= k -> a / 10 ^ k <= round_half_up a k <= a / 10 ^ k + 1.
Proof.
  intros Ha Hk. unfold round_half_up.
  destruct (10 ^ k <=? 2 * (a mod 10 ^ k)); lia.
Qed.

Lemma dfix_small (d : Decimal) : Z.abs (coeff d) < 10 ^ prec -> dfix d = d.
Proof.
  intros H. unfold dfix.
  destruct (Z.leb_spec (ndigits (coeff d)) prec) as [_|Hgt]; [reflexivity|].
  apply (ndigits_le _ prec) in H; [lia | unfold prec; lia].
Qed.

(** What is left of a coefficient of more than [prec] digits once the
    excess digits are cut: between [10 ^ 14] and [10 ^ 15]. *)
Lemma excess_quotient (m : Z) :
  prec < ndigits m ->
  10 ^ (prec - 1) <= Z.abs m / 10 ^ (ndigits m - prec) < 10 ^ prec.
Proof.
  intros Hn. assert (Hm : m <> 0).
  { intros ->. rewrite ndigits_zero in Hn. unfold prec in Hn. lia. }
  destruct (ndigits_spec m Hm) as (_ & Hlo & Hhi).
  set (k := ndigits m - prec) in *.
  assert (Hk : 0 < k) by (unfold k; lia).
  pose proof (pow10_pos k ltac:(lia)) as Hp.
  replace (ndigits m - 1) with (prec - 1 + k) in Hlo by (unfold k; lia).
  replace (ndigits m) with (prec + k) in Hhi by (unfold k; lia).
  unfold prec in *. rewrite pow10_add in Hlo, Hhi by lia. split.
  - apply Z.div_le_lower_bound; lia.
  - apply Z.div_lt_upper_bound; lia.
Qed.

Lemma dfix_bound (d : Decimal) : Z.abs (coeff (dfix d)) < 10 ^ prec.
Proof.
  unfold dfix.
  destruct (Z.leb_spec (ndigits (coeff d)) prec) as [Hle|Hgt].
  - apply ndigits_le; [unfold prec; lia | exact Hle].
  - pose proof (excess_quotient _ Hgt) as [Hlo Hhi].
    pose proof (round_half_up_bounds (Z.abs (coeff d)) (ndigits (coeff d) - prec)
                  ltac:(lia) ltac:(lia)) as [Hr1 Hr2].
    set (q := round_half_up (Z.abs (coeff d)) (ndigits (coeff d) - prec)) in *.
    assert (Hs : Z.abs (Z.sgn (coeff d)) <= 1) by (destruct (coeff d); simpl; lia).
    destruct (Z.eqb_spec q (10 ^ prec)) as [Heq|Hne]; simpl.
    + rewrite Heq. change (10 ^ prec / 10) with (10 ^ 14).
      rewrite Z.abs_mul. change (Z.abs (10 ^ 14)) with (10 ^ 14).
      change (10 ^ prec) with (10 ^ 15). change (10 ^ 14) with 100000000000000.
      change (10 ^ 15) with 1000000000000000. nia.
    + rewrite Z.abs_mul, (Z.abs_eq q) by lia. nia.
Qed.

(** ** Decimal values *)

Lemma deqb_value_eq (a b : Decimal) : deqb a b = true <-> value_eq a b.
Proof. unfold deqb, value_eq. apply Z.eqb_eq. Qed.

(** Values can be compared at any exponent below both. *)
Lemma value_eq_at (a b : Decimal) (E : Z) :
  E <= dexp a -> E <= dexp b ->
  (value_eq a b <-> coeff a * 10 ^ (dexp a - E) = coeff b * 10 ^ (dexp b - E)).
Proof.
  intros Ha Hb. unfold value_eq, aligned. cbn [fst snd].
  set (m := Z.min (dexp a) (dexp b)).
  assert (Hm : E <= m) by (unfold m; lia).
  pose proof (pow10_pos (m - E) ltac:(lia)) as Hp.
  replace (dexp a - E) with (dexp a - m + (m - E)) by lia.
  replace (dexp b - E) with (dexp b - m + (m - E)) by lia.
  rewrite !pow10_add by (unfold m; lia).
  rewrite !Z.mul_assoc. split.
  - intros ->. reflexivity.
  - intros H. apply Z.mul_cancel_r in H; [exact H | lia].
Qed.

Lemma in_cents_ge (d : Decimal) (c : Z) :
  -2 <= dexp d -> (in_cents d c <-> c = coeff d * 10 ^ (dexp d + 2)).
Proof.
  intros H. unfold in_cents. rewrite (value_eq_at _ _ (-2)) by (simpl; lia).
  cbn [coeff dexp]. replace (-2 - -2) with 0 by lia.
  replace (dexp d - -2) with (dexp d + 2) by lia. rewrite Z.pow_0_r. lia.
Qed.

Lemma in_cents_lt (d : Decimal) (c : Z) :
  dexp d <= -2 -> (in_cents d c <-> coeff d = c * 10 ^ (-2 - dexp d)).
Proof.
  intros H. unfold in_cents. rewrite (value_eq_at _ _ (dexp d)) by (simpl; lia).
  cbn [coeff dexp]. rewrite Z.sub_diag, Z.pow_0_r. lia.
Qed.

Lemma in_cents_Dec (c : Z) : in_cents (Dec c (-2)) c.
Proof. apply in_cents_ge; simpl; lia. Qed.

Lemma in_cents_inj (d : Decimal) (c c' : Z) : in_cents d c -> in_cents d c' -> c = c'.
Proof.
  intros H H'. destruct (Z_le_gt_dec (-2) (dexp d)) as [Hd|Hd].
  - apply in_cents_ge in H, H'; try lia.
  - apply in_cents_lt in H, H'; try lia.
    pose proof (pow10_pos (-2 - dexp d) ltac:(lia)).
    rewrite H in H'. apply Z.mul_cancel_r in H'; lia.
Qed.

Lemma in_cents_zero (d : Decimal) (c : Z) : in_cents d c -> (coeff d = 0 <-> c = 0).
Proof.
  intros H. destruct (Z_le_gt_dec (-2) (dexp d)) as [Hd|Hd].
  - apply in_cents_ge in H; [|lia].
    pose proof (pow10_pos (dexp d + 2) ltac:(lia)). nia.
  - apply in_cents_lt in H; [|lia].
    pose proof (pow10_pos (-2 - dexp d) ltac:(lia)). nia.
Qed.

Lemma sgn_mul_abs (m c p : Z) : 0 < p -> m = c * p -> Z.sgn m * Z.abs c = c.
Proof.
  intros Hp ->. destruct c as [|c|c], p as [|p|p]; simpl; lia.
Qed.

Lemma quantize_oversized (d : Decimal) :
  oversized d -> quantize d CENTS = Err InvalidOperation.
Proof.
  intros [Hm Hbig]. unfold quantize.
  destruct (Z.eqb_spec (coeff d) 0) as [|_]; [contradiction|].
  cbn [CENTS dexp].
  destruct (Z.ltb_spec prec (ndigits (coeff d) + dexp d - 1 - -2 + 1)) as [_|H];
    [reflexivity|]. unfold prec in H. lia.
Qed.

Lemma in_cents_oversized (d : Decimal) (c : Z) :
  in_cents d c -> 10 ^ prec <= Z.abs c -> oversized d.
Proof.
  intros H Hc. assert (Hc0 : c <> 0) by (unfold prec in Hc; lia).
  assert (Hm : coeff d <> 0) by (rewrite (in_cents_zero _ _ H); exact Hc0).
  split; [exact Hm|].
  destruct (ndigits_spec _ Hm) as (_ & _ & Hhi).
  destruct (Z_le_gt_dec (-2) (dexp d)) as [Hd|Hd].
  - apply in_cents_ge in H; [|lia].
    assert (Hlt : 10 ^ prec < 10 ^ (ndigits (coeff d) + (dexp d + 2))).
    { pose proof (ndigits_pos (coeff d)).
      rewrite pow10_add by lia. subst c.
      pose proof (pow10_pos (dexp d + 2) ltac:(lia)).
      rewrite Z.abs_mul, (Z.abs_eq (10 ^ _)) in Hc by lia. nia. }
    apply pow10_lt_inv in Hlt; unfold prec in *; try lia.
    pose proof (ndigits_pos (coeff d)). lia.
  - apply in_cents_lt in H; [|lia].
    rewrite H, ndigits_shift by lia.
    assert (~ ndigits c <= prec).
    { rewrite ndigits_le by (unfold prec; lia). lia. }
    unfold prec in *. lia.
Qed.

(** [quantize] of an amount of [c] cents: the amount itself when it fits 15
    digits, [InvalidOperation] otherwise. *)
Lemma quantize_cents (d : Decimal) (c : Z) :
  in_cents d c ->
  quantize d CENTS =
    if Z.abs c <? 10 ^ prec then Ok (Dec c (-2)) else Err InvalidOperation.
Proof.
  intros H.
  destruct (Z.ltb_spec (Z.abs c) (10 ^ prec)) as [Hc|Hc];
    [|apply quantize_oversized, (in_cents_oversized _ _ H Hc)].
  unfold quantize. destruct (Z.eqb_spec (coeff d) 0) as [Hz|Hm].
  { apply (in_cents_zero _ _ H) in Hz. subst c. reflexivity. }
  assert (Hc0 : c <> 0) by (rewrite <- (in_cents_zero _ _ H); exact Hm).
  cbn [CENTS dexp].
  assert (Hres : rescale d (-2) = Dec c (-2)).
  { unfold rescale. destruct (Z.leb_spec (-2) (dexp d)) as [Hd|Hd].
    - apply in_cents_ge in H; [|lia]. rewrite H.
      replace (dexp d - -2) with (dexp d + 2) by lia. reflexivity.
    - apply in_cents_lt in H; [|lia]. f_equal.
      pose proof (pow10_pos (-2 - dexp d) ltac:(lia)) as Hp.
      rewrite H at 2. rewrite Z.abs_mul, (Z.abs_eq (10 ^ _)) by lia.
      rewrite round_half_up_exact by lia.
      eapply sgn_mul_abs; [exact Hp | exact H]. }
  assert (Hn : ndigits c <= prec) by (apply ndigits_le; [unfold prec; lia | exact Hc]).
  assert (Hadj : ndigits (coeff d) + dexp d + 2 = ndigits c).
  { destruct (Z_le_gt_dec (-2) (dexp d)) as [Hd|Hd].
    - apply in_cents_ge in H; [|lia]. rewrite H, ndigits_shift by lia. lia.
    - apply in_cents_lt in H; [|lia]. rewrite H, ndigits_shift by lia. lia. }
  destruct (Z.ltb_spec prec (ndigits (coeff d) + dexp d - 1 - -2 + 1)) as [Hbad|_];
    [lia|].
  rewrite Hres. cbn [coeff].
  destruct (Z.ltb_spec prec (ndigits c)) as [Hbad|_]; [lia|].
  rewrite dfix_small by exact Hc. reflexivity.
Qed.

Lemma quantize_cents_Ok (d q : Decimal) (c : Z) :
  in_cents d c -> quantize d CENTS = Ok q -> q = Dec c (-2) /\ Z.abs c < 10 ^ prec.
Proof.
  intros H Hq. rewrite (quantize_cents _ _ H) in Hq.
  destruct (Z.ltb_spec (Z.abs c) (10 ^ prec)); [|discriminate].
  injection Hq as <-. auto.
Qed.

(** The context rounding leaves an amount of at most 15 digits of cents
    alone, and does not make an oversized one fit. *)
Lemma dfix_cents (d : Decimal) (c : Z) :
  in_cents d c -> Z.abs c < 10 ^ prec -> in_cents (dfix d) c.
Proof.
  intros H Hc. unfold dfix.
  destruct (Z.leb_spec (ndigits (coeff d)) prec) as [_|Hgt]; [exact H|].
  assert (Hm : coeff d <> 0).
  { intros Hz. rewrite Hz, ndigits_zero in Hgt. unfold prec in Hgt. lia. }
  assert (Hc0 : c <> 0) by (rewrite <- (in_cents_zero _ _ H); exact Hm).
  destruct (ndigits_spec _ Hm) as (_ & Hlo & _).
  destruct (Z_le_gt_dec (-2) (dexp d)) as [Hd|Hd].
  { exfalso. apply in_cents_ge in H; [|lia].
    pose proof (pow10_pos (dexp d + 2) ltac:(lia)).
    pose proof (pow10_le prec (ndigits (coeff d) - 1) ltac:(unfold prec in *; lia)).
    rewrite H, Z.abs_mul, (Z.abs_eq (10 ^ _)) in Hc by lia. nia. }
  apply in_cents_lt in H; [|lia].
  set (j := -2 - dexp d) in *. set (k := ndigits (coeff d) - prec).
  assert (Hn : ndigits (coeff d) = ndigits c + j).
  { rewrite H. apply ndigits_shift; [exact Hc0 | unfold j; lia]. }
  assert (Hnc : ndigits c <= prec) by (apply ndigits_le; [unfold prec; lia | exact Hc]).
  assert (Hk : 0 < k <= j) by (unfold k; lia).
  assert (Habs : Z.abs (coeff d) = Z.abs c * 10 ^ (j - k) * 10 ^ k).
  { rewrite H, Z.abs_mul, (Z.abs_eq (10 ^ j)) by (apply Z.lt_le_incl, pow10_pos; lia).
    rewrite <- Z.mul_assoc, <- pow10_add by lia. do 2 f_equal. lia. }
  pose proof (pow10_pos (j - k) ltac:(lia)) as Hp.
  rewrite Habs, round_half_up_exact by lia.
  assert (Hq : Z.abs c * 10 ^ (j - k) < 10 ^ prec).
  { pose proof (excess_quotient _ Hgt) as [_ Hhi]. fold k in Hhi.
    rewrite Habs, Z.div_mul in Hhi; [exact Hhi|].
    pose proof (pow10_pos k ltac:(lia)). lia. }
  destruct (Z.eqb_spec (Z.abs c * 10 ^ (j - k)) (10 ^ prec)) as [Heq|_]; [lia|].
  apply in_cents_lt; cbn [coeff dexp]; [unfold j in Hk; lia|].
  replace (-2 - (dexp d + k)) with (j - k) by (unfold j; lia).
  rewrite Z.mul_assoc. f_equal.
  eapply sgn_mul_abs; [|exact H]. apply pow10_pos. lia.
Qed.

Lemma dfix_oversized (d : Decimal) : oversized d -> oversized (dfix d).
Proof.
  intros [Hm Hbig]. unfold dfix.
  destruct (Z.leb_spec (ndigits (coeff d)) prec) as [_|Hgt]; [split; assumption|].
  pose proof (excess_quotient _ Hgt) as [Hlo Hhi].
  pose proof (round_half_up_bounds (Z.abs (coeff d)) (ndigits (coeff d) - prec)
                ltac:(lia) ltac:(lia)) as [Hr1 Hr2].
  set (q := round_half_up (Z.abs (coeff d)) (ndigits (coeff d) - prec)) in *.
  change (10 ^ (prec - 1)) with 100000000000000 in *.
  change (10 ^ prec) with 1000000000000000 in *.
  destruct (Z.eqb_spec q 1000000000000000) as [Heq|Hne]; unfold oversized;
    cbn [coeff dexp].
  - rewrite Heq. change (1000000000000000 / 10) with (10 ^ 14).
    rewrite ndigits_sgn_mul by (try assumption; compute; discriminate).
    change (ndigits (10 ^ 14)) with 15. unfold prec in *.
    split; [destruct (coeff d); try contradiction; simpl; lia | lia].
  - rewrite ndigits_sgn_mul by lia.
    assert (Hq : ndigits q = prec).
    { apply ndigits_unique; unfold prec; rewrite ?Z.abs_eq by lia;
        change (10 ^ (15 - 1)) with 100000000000000;
        change (10 ^ 15) with 1000000000000000; lia. }
    rewrite Hq. split; [destruct (coeff d); try contradiction; simpl; lia | lia].
Qed.

Lemma dadd_exact_cents (a b : Decimal) (ca cb : Z) :
  in_cents a ca -> in_cents b cb -> in_cents (dadd_exact a b) (ca + cb).
Proof.
  intros Ha Hb. unfold in_cents in *.
  set (E := Z.min (Z.min (dexp a) (dexp b)) (-2)).
  rewrite (value_eq_at a _ E) in Ha by (unfold E; simpl; lia).
  rewrite (value_eq_at b _ E) in Hb by (unfold E; simpl; lia).
  rewrite (value_eq_at (dadd_exact a b) _ E) by (unfold dadd_exact, E; simpl; lia).
  unfold dadd_exact. cbn [coeff dexp] in *.
  set (e := Z.min (dexp a) (dexp b)).
  rewrite Z.mul_add_distr_r, <- !Z.mul_assoc, <- !pow10_add by (unfold e, E; lia).
  replace (dexp a - e + (e - E)) with (dexp a - E) by lia.
  replace (dexp b - e + (e - E)) with (dexp b - E) by lia.
  rewrite Ha, Hb. ring.
Qed.

Lemma dneg_cents (a : Decimal) (c : Z) : in_cents a c -> in_cents (dneg a) (- c).
Proof.
  unfold in_cents. intros H.
  rewrite (value_eq_at a _ (Z.min (dexp a) (-2))) in H by (simpl; lia).
  rewrite (value_eq_at (dneg a) _ (Z.min (dexp a) (-2))) by (simpl; lia).
  cbn [dneg coeff dexp] in *. lia.
Qed.

Lemma dsub_cents (a b : Decimal) (ca cb : Z) :
  in_cents a ca -> in_cents b cb ->
  if Z.abs (ca - cb) <? 10 ^ prec
  then in_cents (dsub a b) (ca - cb)
  else oversized (dsub a b).
Proof.
  intros Ha Hb.
  pose proof (dadd_exact_cents _ _ _ _ Ha (dneg_cents _ _ Hb)) as H.
  replace (ca + - cb) with (ca - cb) in H by lia. unfold dsub.
  destruct (Z.ltb_spec (Z.abs (ca - cb)) (10 ^ prec)) as [Hc|Hc].
  - apply dfix_cents; assumption.
  - apply dfix_oversized. eapply in_cents_oversized; eassumption.
Qed.

Lemma dadd_cents (a b : Decimal) (ca cb : Z) :
  in_cents a ca -> in_cents b cb ->
  if Z.abs (ca + cb) <? 10 ^ prec
  then in_cents (dadd a b) (ca + cb)
  else oversized (dadd a b).
Proof.
  intros Ha Hb. pose proof (dadd_exact_cents _ _ _ _ Ha Hb) as H. unfold dadd.
  destruct (Z.ltb_spec (Z.abs (ca + cb)) (10 ^ prec)) as [Hc|Hc].
  - apply dfix_cents; assumption.
  - apply dfix_oversized. eapply in_cents_oversized; eassumption.
Qed.

(** ** Division of a whole number of cents *)

Lemma strip_zeros_spec (fuel : nat) (q e q' e' : Z) :
  strip_zeros fuel q e = (q', e') -> e <= e' /\ q = q' * 10 ^ (e' - e).
Proof.
  revert q e. induction fuel as [|f IH]; intros q e; cbn [strip_zeros].
  - intros [= <- <-]. rewrite Z.sub_diag, Z.pow_0_r. lia.
  - destruct (Z.eqb_spec (q mod 10) 0) as [Hz|_].
    + intros H. apply IH in H. destruct H as [Hle Hq]. split; [lia|].
      pose proof (Z.div_mod q 10 ltac:(lia)) as Hdm.
      replace (e' - e) with (e' - (e + 1) + 1) by lia.
      rewrite pow10_add by lia. change (10 ^ 1) with 10. lia.
    + intros [= <- <-]. rewrite Z.sub_diag, Z.pow_0_r. lia.
Qed.

Lemma ndigits_abs (n : Z) : ndigits (Z.abs n) = ndigits n.
Proof. unfold ndigits. rewrite Z.abs_idemp. reflexivity. Qed.

Lemma ndigits_mono (a b : Z) : Z.abs a <= Z.abs b -> ndigits a <= ndigits b.
Proof.
  intros H. destruct (Z.eq_dec b 0) as [->|Hb].
  - replace a with 0 by lia. lia.
  - apply ndigits_le; [apply ndigits_pos|].
    destruct (ndigits_spec b Hb) as (_ & _ & Hhi). lia.
Qed.

Lemma ndigits_ge (n k : Z) : 10 ^ (k - 1) <= Z.abs n -> k <= ndigits n.
Proof.
  intros H. pose proof (ndigits_pos n).
  destruct (Z_le_gt_dec k (ndigits n)) as [|Hgt]; [assumption|].
  assert (Hlt : Z.abs n < 10 ^ (k - 1)) by (apply ndigits_le; lia). lia.
Qed.

Lemma cents_sign (a : Decimal) (n c : Z) :
  0 < n -> in_cents a (n * c) -> Z.sgn (coeff a) * Z.abs c = c.
Proof.
  intros Hn H. destruct (Z_le_gt_dec (-2) (dexp a)) as [Hd|Hd].
  - apply in_cents_ge in H; [|lia].
    pose proof (pow10_pos (dexp a + 2) ltac:(lia)).
    destruct (coeff a) as [|m|m], c as [|c|c]; simpl; try lia; nia.
  - apply in_cents_lt in H; [|lia].
    pose proof (pow10_pos (-2 - dexp a) ltac:(lia)).
    destruct (coeff a) as [|m|m], c as [|c|c]; simpl; try lia; nia.
Qed.

(** The integer division [Decimal.__truediv__] performs when the dividend
    is worth [n * c] cents and the divisor is the integer [n]: the quotient
    has at least 16 digits, and numerator and denominator are in the ratio
    [c / 100] at the exponent of the quotient. *)
Lemma division_of_cents (a : Decimal) (n c : Z) :
  coeff a <> 0 -> 0 < n -> in_cents a (n * c) ->
  let shift := ndigits n - ndigits (coeff a) + prec + 1 in
  let e := dexp a - 0 - shift in
  let num := if 0 <=? shift then Z.abs (coeff a) * 10 ^ shift else Z.abs (coeff a) in
  let den := if 0 <=? shift then Z.abs n else Z.abs n * 10 ^ (- shift) in
  0 < den /\
  den * 10 ^ prec <= num /\
  num * 10 ^ Z.max 0 (e + 2) = den * (Z.abs c * 10 ^ Z.max 0 (-2 - e)).
Proof.
  intros Hm Hn H shift e. cbv zeta.
  destruct (ndigits_spec _ Hm) as (_ & Hlo & _).
  destruct (ndigits_spec n ltac:(lia)) as (_ & _ & Hhi).
  rewrite !(Z.abs_eq n) in * by lia.
  set (m := Z.abs (coeff a)) in *.
  assert (Hval :
    (-2 <= dexp a /\ n * Z.abs c = m * 10 ^ (dexp a + 2)) \/
    (dexp a < -2 /\ m = n * Z.abs c * 10 ^ (-2 - dexp a))).
  { destruct (Z_le_gt_dec (-2) (dexp a)) as [Hd|Hd]; [left|right]; (split; [lia|]).
    - apply in_cents_ge in H; [|lia].
      pose proof (pow10_pos (dexp a + 2) ltac:(lia)).
      unfold m. apply (f_equal Z.abs) in H.
      rewrite !Z.abs_mul, (Z.abs_eq n), (Z.abs_eq (10 ^ _)) in H by lia. exact H.
    - apply in_cents_lt in H; [|lia].
      pose proof (pow10_pos (-2 - dexp a) ltac:(lia)).
      unfold m. rewrite H at 1.
      rewrite !Z.abs_mul, (Z.abs_eq n), (Z.abs_eq (10 ^ _)) by lia. reflexivity. }
  destruct (Z.leb_spec 0 shift) as [Hs|Hs].
  - pose proof (pow10_pos shift Hs) as Hps.
    split; [lia|]. split.
    + replace (ndigits (coeff a) - 1) with (ndigits n + prec - shift - 0) in Hlo
        by (unfold shift; lia).
      assert (Hge : 10 ^ ndigits n * 10 ^ prec <= m * 10 ^ shift).
      { pose proof (ndigits_pos n). pose proof (ndigits_pos (coeff a)).
        rewrite <- pow10_add by (unfold prec; lia).
        replace (ndigits n + prec) with (ndigits n + prec - shift - 0 + shift) by lia.
        rewrite pow10_add by (unfold shift, prec in *; lia). nia. }
      pose proof (pow10_pos prec ltac:(unfold prec; lia)). nia.
    + destruct Hval as [[Hd Hv]|[Hd Hv]].
      * destruct (Z_le_gt_dec 0 (e + 2)) as [He|He].
        -- rewrite (Z.max_r 0 (e + 2)), (Z.max_l 0 (-2 - e)) by lia.
           rewrite Z.pow_0_r, <- Z.mul_assoc, <- pow10_add by lia.
           replace (shift + (e + 2)) with (dexp a + 2) by (unfold e; lia). lia.
        -- rewrite (Z.max_l 0 (e + 2)), (Z.max_r 0 (-2 - e)) by lia.
           rewrite Z.pow_0_r.
           replace shift with (dexp a + 2 + (-2 - e)) at 1 by (unfold e; lia).
           rewrite pow10_add, !Z.mul_assoc, <- Hv by lia. ring.
      * rewrite (Z.max_l 0 (e + 2)), (Z.max_r 0 (-2 - e)) by (unfold e; lia).
        rewrite Z.pow_0_r, Hv.
        replace (-2 - e) with (-2 - dexp a + shift) by (unfold e; lia).
        rewrite pow10_add by lia. ring.
  - set (s := - shift) in *. assert (Hs' : 0 < s) by (unfold s; lia).
    pose proof (pow10_pos s ltac:(lia)) as Hps.
    split; [nia|]. split.
    + replace (ndigits (coeff a) - 1) with (ndigits n + prec + s) in Hlo
        by (unfold s, shift; lia).
      pose proof (ndigits_pos n).
      rewrite !pow10_add in Hlo by (unfold prec; lia).
      pose proof (pow10_pos prec ltac:(unfold prec; lia)). nia.
    + assert (He : e = dexp a + s) by (unfold e, s; lia).
      destruct Hval as [[Hd Hv]|[Hd Hv]].
      * rewrite (Z.max_r 0 (e + 2)), (Z.max_l 0 (-2 - e)) by lia.
        rewrite Z.pow_0_r.
        replace (e + 2) with (dexp a + 2 + s) by lia.
        rewrite pow10_add, Z.mul_assoc, <- Hv by lia. ring.
      * destruct (Z_le_gt_dec 0 (e + 2)) as [He2|He2].
        -- rewrite (Z.max_r 0 (e + 2)), (Z.max_l 0 (-2 - e)) by lia.
           rewrite Z.pow_0_r, Hv, <- !Z.mul_assoc, <- pow10_add by lia.
           replace (-2 - dexp a + (e + 2)) with s by lia. ring.
        -- rewrite (Z.max_l 0 (e + 2)), (Z.max_r 0 (-2 - e)) by lia.
           rewrite Z.pow_0_r, Hv.
           replace (-2 - dexp a) with (s + (-2 - e)) by lia.
           rewrite pow10_add by lia. ring.
Qed.

(** Dividing [n * c] cents by the integer [n] gives [c] cents exactly when
    [c] fits 15 digits, and an oversized quotient otherwise. *)
Lemma ddiv_cents (a : Decimal) (n c : Z) :
  0 < n -> in_cents a (n * c) ->
  exists f, ddiv a (of_int n) = Ok f /\
            if Z.abs c <? 10 ^ prec then in_cents f c else oversized f.
Proof.
  intros Hn H. unfold ddiv. cbn [of_int coeff dexp].
  destruct (Z.eqb_spec n 0) as [|_]; [lia|].
  destruct (Z.eqb_spec (coeff a) 0) as [Hz|Hm].
  { assert (c = 0) as ->.
    { apply (in_cents_zero _ _ H) in Hz. nia. }
    eexists. split; [reflexivity|]. simpl.
    rewrite dfix_small by (simpl; unfold prec; lia).
    unfold in_cents, value_eq, aligned. simpl. lia. }
  destruct (division_of_cents a n c Hm Hn H) as (Hden & HA & HB).
  cbv zeta in Hden, HA, HB.
  pose proof (cents_sign a n c Hn H) as Hsg.
  assert (Hc0 : c <> 0).
  { intros ->. apply Hm. apply (in_cents_zero _ _ H). lia. }
  set (shift := ndigits n - ndigits (coeff a) + prec + 1) in *.
  set (e := dexp a - 0 - shift) in *.
  set (num := if 0 <=? shift then Z.abs (coeff a) * 10 ^ shift else Z.abs (coeff a)) in *.
  set (den := if 0 <=? shift then Z.abs n else Z.abs n * 10 ^ (- shift)) in *.
  replace (Z.sgn (coeff a) * Z.sgn n) with (Z.sgn (coeff a))
    by (destruct n; simpl; lia).
  assert (Hq : 10 ^ prec <= num / den) by (apply Z.div_le_lower_bound; lia).
  pose proof (Z.div_mod num den ltac:(lia)) as Hdm.
  pose proof (Z.mod_pos_bound num den Hden) as Hmod.
  pose proof (pow10_pos prec ltac:(unfold prec; lia)) as Hpp.
  assert (Hexact : e + 2 <= 0 ->
            num / den = Z.abs c * 10 ^ (-2 - e) /\ num mod den = 0).
  { intros He. rewrite (Z.max_l 0 (e + 2)), (Z.max_r 0 (-2 - e)), Z.pow_0_r in HB by lia.
    rewrite Z.mul_1_r in HB. rewrite HB, Z.mul_comm.
    split; [apply Z.div_mul | apply Z.mod_mul]; lia. }
  destruct (Z.ltb_spec (Z.abs c) (10 ^ prec)) as [Hc|Hc].
  - (* the quotient fits: the division is exact *)
    assert (He : e + 2 < 0).
    { destruct (Z_lt_ge_dec (e + 2) 0) as [|He]; [assumption|]. exfalso.
      rewrite (Z.max_r 0 (e + 2)), (Z.max_l 0 (-2 - e)), Z.pow_0_r in HB by lia.
      pose proof (pow10_pos (e + 2) ltac:(lia)). nia. }
    destruct (Hexact ltac:(lia)) as [Hquot Hrem]. rewrite Hrem. cbn [Z.eqb].
    destruct (strip_zeros (Z.to_nat shift) (num / den) e) as [q' e'] eqn:Hstrip.
    apply strip_zeros_spec in Hstrip. destruct Hstrip as [Hle Hq'].
    eexists. split; [reflexivity|].
    apply dfix_cents; [|exact Hc].
    unfold in_cents. rewrite (value_eq_at _ _ e) by (simpl; lia).
    cbn [coeff dexp]. rewrite <- Z.mul_assoc, <- Hq', Hquot, Z.mul_assoc, Hsg.
    reflexivity.
  - (* the quotient has more than 15 digits of cents *)
    assert (Hbig : 14 <= ndigits (num / den) + e).
    { destruct (Z_le_gt_dec (e + 2) 0) as [He|He].
      - destruct (Hexact He) as [Hquot _]. rewrite Hquot.
        rewrite ndigits_shift, ndigits_abs by lia.
        assert (prec + 1 <= ndigits c).
        { apply ndigits_ge. replace (prec + 1 - 1) with prec by lia. exact Hc. }
        unfold prec in *. lia.
      - assert (prec + 1 <= ndigits (num / den)).
        { apply ndigits_ge. replace (prec + 1 - 1) with prec by lia.
          rewrite Z.abs_eq by lia. exact Hq. }
        unfold prec in *. lia. }
    destruct (Z.eqb_spec (num mod den) 0) as [Hrem|Hrem].
    + destruct (strip_zeros (Z.to_nat shift) (num / den) e) as [q' e'] eqn:Hstrip.
      apply strip_zeros_spec in Hstrip. destruct Hstrip as [Hle Hq'].
      eexists. split; [reflexivity|]. apply dfix_oversized.
      assert (Hq0 : q' <> 0) by (intros ->; lia).
      split; cbn [coeff dexp].
      * destruct (coeff a); try contradiction; simpl; lia.
      * rewrite ndigits_sgn_mul.
        -- rewrite Hq', ndigits_shift in Hbig by lia. lia.
        -- pose proof (pow10_pos (e' - e) ltac:(lia)). nia.
        -- exact Hm.
    + eexists. split; [reflexivity|]. apply dfix_oversized.
      set (q := num / den) in *.
      assert (Hqq : q <= (if q mod 5 =? 0 then q + 1 else q))
        by (destruct (q mod 5 =? 0); lia).
      split; cbn [coeff dexp].
      * destruct (coeff a); try contradiction; simpl; lia.
      * rewrite ndigits_sgn_mul by lia.
        pose proof (ndigits_mono q (if q mod 5 =? 0 then q + 1 else q) ltac:(lia)).
        lia.
Qed.

(** ** The running remaining principal of the equal-principal schedule *)

Lemma remaining_after_succ (P fixed : Decimal) (i : Z) :
  0 <= i -> remaining_after P fixed (i + 1) = dsub (remaining_after P fixed i) fixed.
Proof.
  intros Hi. unfold remaining_after.
  replace (Z.to_nat (i + 1)) with (S (Z.to_nat i)) by lia. reflexivity.
Qed.

(** Rows of an [EqualPrincipalLoan] schedule, with the state of the loop:
    [R i rem] after [i] rounds, [Q] of every regular row. *)
Lemma EqualPrincipalLoan_rows (R : Z -> Decimal -> Prop) (Q : row -> Prop) self sched :
  R 0 (EqualPrincipalLoan.principal self) ->
  (forall i sch rem r rem',
      0 <= i < EqualPrincipalLoan.num_payments self -> R i rem ->
      EqualPrincipalLoan.schedule_step self (sch, rem) (i + 1)
      = Ok (sch ++ [r], rem') ->
      installment_number r = i + 1 ->
      R (i + 1) rem' /\ Q r) ->
  EqualPrincipalLoan.calculate_schedule self = Ok sched ->
  forall r, r ∈ sched -> installment_number r <> 0 -> Q r.
Proof.
  intros H0 Hstep Hcalc r Hin Hreg.
  unfold EqualPrincipalLoan.calculate_schedule in Hcalc. inv_bind Hcalc.
  destruct v as [sched' rem]. simpl in Hcalc. subst sched'.
  unfold EqualPrincipalLoan.run_schedule in Hv. inv_bind Hv.
  apply (loop_rows _ (EqualPrincipalLoan_step_snoc self) R Q) in Hv;
    [|exact H0|exact Hstep].
  destruct Hv as (regs & -> & _ & HQ & _).
  apply elem_of_app in Hin. destruct Hin as [Hin|Hin].
  - apply commission_rows_number in Hv0.
    rewrite Forall_forall in Hv0. specialize (Hv0 r Hin). contradiction.
  - rewrite Forall_forall in HQ. apply HQ, Hin.
Qed.

(** C2, as the code has it: the running remaining principal is decremented
    by the unrounded quotient [principal / num_payments] (at the 15 digits of
    the context), and the [remaining_principal] a regular row [k] reports is
    the cent rounding of the principal after [k] such subtractions. *)
Theorem C2_remaining_unrounded_decrement (fuel : nat) (P r c b : Decimal)
    (start : date) (term : Z) (freq : string) (holiday : date -> bool)
    (variable : bool) (loan : EqualPrincipalLoan.t) (sched : list row) (row : row) :
  EqualPrincipalLoan.init fuel P r c start term freq b holiday variable = Ok loan ->
  EqualPrincipalLoan.calculate_schedule loan = Ok sched ->
  row ∈ sched -> installment_number row <> 0 ->
  ddiv P (of_int (EqualPrincipalLoan.num_payments loan))
    = Ok (EqualPrincipalLoan.fixed_principal loan) /\
  quantize (remaining_after P (EqualPrincipalLoan.fixed_principal loan)
              (installment_number row)) CENTS
    = Ok (remaining_principal row).
Proof.
  intros Hinit Hcalc Hin Hreg.
  apply EqualPrincipalLoan_init_inv in Hinit.
  destruct Hinit as (fd & cal & fp & Hfd & F & Hfp & ->).
  split; [exact Hfp|]. cbn [EqualPrincipalLoan.fixed_principal].
  revert row Hin Hreg.
  refine (EqualPrincipalLoan_rows
            (fun i rem => rem = remaining_after P fp i)
            (fun row => quantize (remaining_after P fp (installment_number row)) CENTS
                        = Ok (remaining_principal row))
            _ sched _ _ Hcalc); [reflexivity|].
  intros i sch rem r0 rem' Hi -> Hs Hk.
  unfold EqualPrincipalLoan.schedule_step in Hs. inv_bind Hs.
  destruct v as [period_rate accrual]. inv_bind Hs.
  apply snoc_inj in Hs. subst r0 rem'. cbn in *.
  rewrite remaining_after_succ by lia. split; [reflexivity | assumption].
Qed.

Lemma C2_remaining_witness :
  ddiv (Dec 100 0) (of_int 3) = Ok (Dec 333333333333333 (-13)) /\
  quantize (remaining_after (Dec 100 0) (Dec 333333333333333 (-13)) 2) CENTS
    = Ok (Dec 3333 (-2)).
Proof.
  eassert (Hinit : EqualPrincipalLoan.init 3 (Dec 100 0) (Dec 2 (-2)) (Dec 0 0)
                     (Date 2024 5 2) 3 "1m" (Dec 5 (-2)) no_holidays false = Ok _)
    by (vm_compute; reflexivity).
  match type of Hinit with
  | _ = Ok ?l =>
      eassert (Hcalc : EqualPrincipalLoan.calculate_schedule l = Ok _)
        by (vm_compute; reflexivity)
  end.
  exact (C2_remaining_unrounded_decrement _ _ _ _ _ _ _ _ _ _ _ _
           (Row 2 (Date 2024 7 2) 30 (Dec 3333 (-2)) (Dec 133 (-2)) ZERO_00
              (Dec 7 (-2)) (Dec 3473 (-2)) (Dec 3333 (-2)))
           Hinit Hcalc
           ltac:(right; left) ltac:(discriminate)).
Defined.

(** C2 as the specification words it fails: on 100 over three months the
    second row reports 33.33, while the principal minus twice the rounded
    quotient 33.33 is 33.34. *)
Lemma C2_counterexample :
  exists loan sched row,
    EqualPrincipalLoan.init 3 (Dec 100 0) (Dec 2 (-2)) (Dec 0 0) (Date 2024 5 2) 3
      "1m" (Dec 5 (-2)) no_holidays false = Ok loan /\
    EqualPrincipalLoan.calculate_schedule loan = Ok sched /\
    row ∈ sched /\ installment_number row = 2 /\
    remaining_principal row = Dec 3333 (-2) /\
    spec_remaining (Dec 100 0) 3 2 = Ok (Dec 3334 (-2)) /\
    ~ value_eq (remaining_principal row) (Dec 3334 (-2)).
Proof.
  eexists. eexists. eexists.
  split; [vm_compute; reflexivity|].
  split; [vm_compute; reflexivity|].
  split; [right; left|].
  split; [reflexivity|].
  split; [reflexivity|].
  split; [vm_compute; reflexivity|].
  vm_compute. discriminate.
Qed.

(** The shape of an [EqualPrincipalLoan] schedule: the commission rows, all
    numbered 0, then the regular rows numbered 1 to [num_payments]. *)
Lemma EqualPrincipalLoan_shape self sched :
  EqualPrincipalLoan.calculate_schedule self = Ok sched ->
  exists first regs,
    sched = first ++ regs /\
    Forall (fun r => installment_number r = 0) first /\
    installment_number <$> regs = range1 (EqualPrincipalLoan.num_payments self).
Proof.
  intros Hcalc.
  unfold EqualPrincipalLoan.calculate_schedule in Hcalc. inv_bind Hcalc.
  destruct v as [sched' rem]. simpl in Hcalc. subst sched'.
  unfold EqualPrincipalLoan.run_schedule in Hv. inv_bind Hv.
  apply (loop_rows _ (EqualPrincipalLoan_step_snoc self)
           (fun _ _ => True) (fun _ => True)) in Hv; [|exact I|auto].
  destruct Hv as (regs & -> & Hn & _ & _).
  exists v, regs. split; [reflexivity|]. split; [|exact Hn].
  eapply commission_rows_number, Hv0.
Qed.

(** The last row of a schedule, when it is a regular row, is the row of
    installment [num_payments]. *)
Lemma EqualPrincipalLoan_last_row self sched row :
  EqualPrincipalLoan.calculate_schedule self = Ok sched ->
  last sched = Some row -> installment_number row <> 0 ->
  row ∈ sched /\ installment_number row = EqualPrincipalLoan.num_payments self.
Proof.
  intros Hcalc Hlast Hreg.
  destruct (EqualPrincipalLoan_shape _ _ Hcalc) as (first & regs & -> & H0 & Hn).
  split.
  { apply last_Some in Hlast. destruct Hlast as [l' ->].
    apply elem_of_app. right. left. }
  set (N := EqualPrincipalLoan.num_payments self) in *.
  destruct regs as [|r0 regs0] using rev_ind.
  - rewrite app_nil_r in Hlast. exfalso. apply Hreg.
    rewrite Forall_forall in H0. apply H0.
    apply last_Some in Hlast. destruct Hlast as [l' ->].
    apply elem_of_app. right. left.
  - rewrite app_assoc, last_snoc in Hlast. injection Hlast as ->.
    rewrite fmap_app in Hn. simpl in Hn.
    destruct (Z_le_gt_dec N 0) as [HN|HN].
    + rewrite range1_neg in Hn by exact HN. destruct (_ <$> regs0); discriminate.
    + replace N with (N - 1 + 1) in Hn by lia.
      rewrite range1_snoc in Hn by lia.
      apply app_inj_tail in Hn. destruct Hn as [_ Hn]. lia.
Qed.

(** The row of installment [num_payments] reports 0.00 when the principal
    is [num_payments] times a whole number of cents. *)
Lemma terminal_remaining_by_number (fuel : nat) (P r c b : Decimal)
    (start : date) (term : Z) (freq : string) (holiday : date -> bool)
    (variable : bool) (loan : EqualPrincipalLoan.t) (sched : list row)
    (cents : Z) (row : row) :
  EqualPrincipalLoan.init fuel P r c start term freq b holiday variable = Ok loan ->
  in_cents P (EqualPrincipalLoan.num_payments loan * cents) ->
  EqualPrincipalLoan.calculate_schedule loan = Ok sched ->
  row ∈ sched -> installment_number row <> 0 ->
  installment_number row = EqualPrincipalLoan.num_payments loan ->
  remaining_principal row = Dec 0 (-2).
Proof.
  intros Hinit HP Hcalc Hin Hreg Hlast.
  apply EqualPrincipalLoan_init_inv in Hinit.
  destruct Hinit as (fd & cal & fp & Hfd & F & Hfp & ->).
  cbn [EqualPrincipalLoan.num_payments] in *.
  set (N := periods term fd) in *.
  assert (HN : 0 < N).
  { destruct (Z_lt_ge_dec 0 N) as [|HN]; [assumption|]. exfalso.
    assert (N = 0) as Hz by (unfold N, periods in *; lia).
    rewrite Hz in Hfp. unfold ddiv in Hfp. cbn in Hfp.
    destruct (coeff P =? 0); discriminate. }
  destruct (ddiv_cents P N cents HN HP) as (f & Hf & Hfc).
  rewrite Hfp in Hf. injection Hf as <-.
  enough (HQ : remaining_principal row
               = Dec ((N - installment_number row) * cents) (-2)).
  { rewrite HQ, Hlast. f_equal. lia. }
  revert row Hin Hreg Hlast. 
  enough (HQ : forall row, row ∈ sched -> installment_number row <> 0 ->
               remaining_principal row
               = Dec ((N - installment_number row) * cents) (-2)).
  { intros row Hin Hreg _. apply HQ; assumption. }
  refine (EqualPrincipalLoan_rows
            (fun i rem => in_cents rem ((N - i) * cents))
            (fun row => remaining_principal row
                        = Dec ((N - installment_number row) * cents) (-2))
            _ sched _ _ Hcalc).
  { cbn. replace ((N - 0) * cents) with (N * cents) by lia. exact HP. }
  intros i sch rem r0 rem' Hi HR Hs Hk.
  unfold EqualPrincipalLoan.schedule_step in Hs. inv_bind Hs.
  destruct v as [period_rate accrual]. inv_bind Hs.
  apply snoc_inj in Hs. subst r0 rem'.
  cbn [EqualPrincipalLoan.fixed_principal remaining_principal installment_number] in *.
  (* the rounded principal payment exists, so the quotient fits *)
  assert (Hfit : in_cents fp cents).
  { destruct (Z.ltb_spec (Z.abs cents) (10 ^ prec)); [exact Hfc|].
    rewrite (quantize_oversized _ Hfc) in Hv4. discriminate. }
  pose proof (dsub_cents _ _ _ _ HR Hfit) as Hsub.
  replace ((N - i) * cents - cents) with ((N - (i + 1)) * cents) in Hsub by lia.
  destruct (Z.ltb_spec (Z.abs ((N - (i + 1)) * cents)) (10 ^ prec)).
  - split; [exact Hsub|].
    apply (quantize_cents_Ok _ _ _ Hsub) in Hv5. apply Hv5.
  - rewrite (quantize_oversized _ Hsub) in Hv5. discriminate.
Qed.

(** C7: when the principal is [num_payments] times a whole number of cents,
    the last regular row of an [EqualPrincipalLoan] schedule reports a
    remaining principal of exactly 0.00. *)
Theorem C7_terminal_remaining_zero (fuel : nat) (P r c b : Decimal)
    (start : date) (term : Z) (freq : string) (holiday : date -> bool)
    (variable : bool) (loan : EqualPrincipalLoan.t) (sched : list row)
    (cents : Z) (row : row) :
  EqualPrincipalLoan.init fuel P r c start term freq b holiday variable = Ok loan ->
  in_cents P (EqualPrincipalLoan.num_payments loan * cents) ->
  EqualPrincipalLoan.calculate_schedule loan = Ok sched ->
  last sched = Some row -> installment_number row <> 0 ->
  remaining_principal row = Dec 0 (-2).
Proof.
  intros Hinit HP Hcalc Hlast Hreg.
  destruct (EqualPrincipalLoan_last_row _ _ _ Hcalc Hlast Hreg) as [Hin HN].
  eapply terminal_remaining_by_number; eassumption.
Qed.

Lemma C7_terminal_remaining_witness :
  remaining_principal
    (Row 3 (Date 2024 8 2) 30 (Dec 4000000 (-2)) (Dec 80000 (-2)) ZERO_00
       (Dec 4000 (-2)) (Dec 4084000 (-2)) (Dec 0 (-2)))
  = Dec 0 (-2).
Proof.
  refine (C7_terminal_remaining_zero 3 (Dec 12000000 (-2)) (Dec 2 (-2)) (Dec 0 0)
            (Dec 5 (-2)) (Date 2024 5 2) 3 "1m" no_holidays false _ _ 4000000 _
            _ _ _ _ _).
  - vm_compute. reflexivity.
  - vm_compute. reflexivity.
  - vm_compute. reflexivity.
  - vm_compute. reflexivity.
  - discriminate.
Defined.

(** ** The summary of a schedule without repaid principal *)

Lemma ddiv_zero_divisor (a b : Decimal) :
  coeff b = 0 ->
  ddiv a b = Err (if coeff a =? 0 then InvalidOperation else DivisionByZero).
Proof.
  intros Hb. unfold ddiv. rewrite Hb. cbn [Z.eqb].
  destruct (coeff a =? 0); reflexivity.
Qed.

Lemma EqualPrincipalLoan_no_regular_rows self sched a :
  Forall (fun r => installment_number r = 0) sched ->
  total_weighted_days (foldl (EqualPrincipalLoan.maturity_step self) a sched)
    = total_weighted_days a /\
  total_principal_paid (foldl (EqualPrincipalLoan.maturity_step self) a sched)
    = total_principal_paid a.
Proof.
  intros H. revert a. induction H as [|r rs Hr _ IH]; intros a; simpl; [auto|].
  destruct (IH (EqualPrincipalLoan.maturity_step self a r)) as [-> ->].
  unfold EqualPrincipalLoan.maturity_step. rewrite Hr. auto.
Qed.

Lemma EqualInstallmentLoan_no_regular_rows self sched a :
  Forall (fun r => installment_number r = 0) sched ->
  total_weighted_days (foldl (EqualInstallmentLoan.maturity_step self) a sched)
    = total_weighted_days a /\
  total_principal_paid (foldl (EqualInstallmentLoan.maturity_step self) a sched)
    = total_principal_paid a.
Proof.
  intros H. revert a. induction H as [|r rs Hr _ IH]; intros a; simpl; [auto|].
  destruct (IH (EqualInstallmentLoan.maturity_step self a r)) as [-> ->].
  unfold EqualInstallmentLoan.maturity_step. rewrite Hr. auto.
Qed.

(** C8: when the principal repaid over the regular rows adds up to zero,
    [calculate_average_maturity_and_all_in_rate] of either class raises the
    decimal division error ([InvalidOperation] for 0/0, [DivisionByZero]
    otherwise) instead of returning a value; a schedule without a regular
    row is such a case; and with [term = 0] neither constructor returns a
    loan at all. *)
Theorem C8_degenerate_schedule :
  (forall (self : EqualPrincipalLoan.t) (sched : list row),
      let a := foldl (EqualPrincipalLoan.maturity_step self) acc0 sched in
      coeff (total_principal_paid a) = 0 ->
      EqualPrincipalLoan.calculate_average_maturity_and_all_in_rate self sched
      = Err (if coeff (total_weighted_days a) =? 0
             then InvalidOperation else DivisionByZero)) /\
  (forall (self : EqualInstallmentLoan.t) (sched : list row),
      let a := foldl (EqualInstallmentLoan.maturity_step self) acc0 sched in
      coeff (total_principal_paid a) = 0 ->
      EqualInstallmentLoan.calculate_average_maturity_and_all_in_rate self sched
      = Err (if coeff (total_weighted_days a) =? 0
             then InvalidOperation else DivisionByZero)) /\
  (forall (ep : EqualPrincipalLoan.t) (ei : EqualInstallmentLoan.t) (sched : list row),
      Forall (fun r => installment_number r = 0) sched ->
      EqualPrincipalLoan.calculate_average_maturity_and_all_in_rate ep sched
        = Err InvalidOperation /\
      EqualInstallmentLoan.calculate_average_maturity_and_all_in_rate ei sched
        = Err InvalidOperation) /\
  (forall fuel P r c b start freq holiday variable,
      (forall loan,
          EqualPrincipalLoan.init fuel P r c start 0 freq b holiday variable
          <> Ok loan) /\
      (forall loan,
          EqualInstallmentLoan.init fuel P r c start 0 freq b holiday <> Ok loan)).
Proof.
  assert (Hep : forall (self : EqualPrincipalLoan.t) (sched : list row),
      let a := foldl (EqualPrincipalLoan.maturity_step self) acc0 sched in
      coeff (total_principal_paid a) = 0 ->
      EqualPrincipalLoan.calculate_average_maturity_and_all_in_rate self sched
      = Err (if coeff (total_weighted_days a) =? 0
             then InvalidOperation else DivisionByZero)).
  { intros self sched a Hz.
    unfold EqualPrincipalLoan.calculate_average_maturity_and_all_in_rate.
    fold a. rewrite (ddiv_zero_divisor _ _ Hz). reflexivity. }
  assert (Hei : forall (self : EqualInstallmentLoan.t) (sched : list row),
      let a := foldl (EqualInstallmentLoan.maturity_step self) acc0 sched in
      coeff (total_principal_paid a) = 0 ->
      EqualInstallmentLoan.calculate_average_maturity_and_all_in_rate self sched
      = Err (if coeff (total_weighted_days a) =? 0
             then InvalidOperation else DivisionByZero)).
  { intros self sched a Hz.
    unfold EqualInstallmentLoan.calculate_average_maturity_and_all_in_rate.
    fold a. rewrite (ddiv_zero_divisor _ _ Hz). reflexivity. }
  split; [exact Hep|]. split; [exact Hei|]. split.
  - intros ep ei sched Hnone. split.
    + destruct (EqualPrincipalLoan_no_regular_rows ep sched acc0 Hnone) as [Hw Hp].
      rewrite Hep; rewrite ?Hw, ?Hp; reflexivity.
    + destruct (EqualInstallmentLoan_no_regular_rows ei sched acc0 Hnone) as [Hw Hp].
      rewrite Hei; rewrite ?Hw, ?Hp; reflexivity.
  - intros fuel P r c b start freq holiday variable. split; intros loan Hinit.
    + apply EqualPrincipalLoan_init_inv in Hinit.
      destruct Hinit as (fd & cal & fp & _ & _ & Hfp & _).
      assert (Hz : periods 0 fd = 0)
        by (unfold periods; rewrite Z.mul_0_l, Zdiv_0_l; reflexivity).
      rewrite Hz, ddiv_zero_divisor in Hfp by reflexivity. discriminate.
    + apply EqualInstallmentLoan_init_inv in Hinit.
      destruct Hinit as (fd & cal & T & _ & _ & HT & _).
      assert (Hz : periods 0 fd = 0)
        by (unfold periods; rewrite Z.mul_0_l, Zdiv_0_l; reflexivity).
      rewrite Hz in HT. unfold EqualInstallmentLoan.annuity in HT. inv_bind HT.
      assert (Hpow : forall x, dpow x (of_int 0)
                = if coeff x =? 0 then Err InvalidOperation else Ok (Dec 1 0))
        by reflexivity.
      rewrite Hpow in Hv0.
      destruct (coeff _ =? 0) in Hv0; [discriminate|]. injection Hv0 as <-.
      assert (Hone : dsub (Dec 1 0) (Dec 10 (-1)) = Dec 0 (-1))
        by (vm_compute; reflexivity).
      rewrite Hone, ddiv_zero_divisor in HT by reflexivity. discriminate.
Qed.

Lemma C8_degenerate_witness :
  EqualPrincipalLoan.calculate_average_maturity_and_all_in_rate
    (EqualPrincipalLoan.Build (Dec 12000000 (-2)) (Dec 2 (-2)) (Dec 0 0)
       (Date 2024 5 2) 3 "1m" (Dec 5 (-2)) false
       (PaymentCalendar.init (Date 2024 5 2) 3 "1m" no_holidays) ∅ 3 ∅ ∅
       (Dec 4000000 (-2)))
    [] = Err InvalidOperation /\
  EqualInstallmentLoan.calculate_average_maturity_and_all_in_rate
    (EqualInstallmentLoan.Build (Dec 12000000 (-2)) (Dec 2 (-2)) (Dec 0 0)
       (Date 2024 5 2) 3 "1m" (Dec 5 (-2))
       (PaymentCalendar.init (Date 2024 5 2) 3 "1m" no_holidays) ∅ 3 ∅
       (Dec 416916373842356 (-10)))
    [] = Err InvalidOperation.
Proof.
  destruct C8_degenerate_schedule as (_ & _ & Hnone & _).
  apply Hnone. constructor.
Defined.

(** ** The constant installment of the equal-installment schedule *)

Lemma round_half_up_nonneg (a k : Z) : 0 <= a -> 0 <= k -> 0 <= round_half_up a k.
Proof.
  intros Ha Hk. pose proof (round_half_up_bounds a k Ha Hk).
  pose proof (pow10_pos k Hk). pose proof (Z.div_pos a (10 ^ k) Ha ltac:(lia)). lia.
Qed.

Lemma round_half_up_sub (a c k : Z) :
  0 <= k -> round_half_up (a - c * 10 ^ k) k = round_half_up a k - c.
Proof.
  intros Hk. unfold round_half_up. pose proof (pow10_pos k Hk) as Hp.
  replace (a - c * 10 ^ k) with (a + (- c) * 10 ^ k) by ring.
  rewrite Z.mod_add, Z.div_add by lia.
  destruct (10 ^ k <=? 2 * (a mod 10 ^ k)); lia.
Qed.

Lemma round_half_up_0 (a : Z) : round_half_up a 0 = a.
Proof.
  unfold round_half_up. rewrite Z.pow_0_r, Z.mod_1_r, Z.div_1_r. reflexivity.
Qed.

(** A quantized amount has two places and at most 15 digits. *)
Lemma quantize_result (d q : Decimal) :
  quantize d CENTS = Ok q -> dexp q = -2 /\ Z.abs (coeff q) < 10 ^ prec.
Proof.
  unfold quantize. cbn [CENTS dexp].
  destruct (coeff d =? 0); [intros [= <-]; simpl; unfold prec; lia|].
  destruct (prec <? _); [discriminate|].
  destruct (Z.ltb_spec prec (ndigits (coeff (rescale d (-2))))) as [|Hn];
    [discriminate|].
  intros [= <-].
  assert (Hc : Z.abs (coeff (rescale d (-2))) < 10 ^ prec)
    by (apply ndigits_le; [unfold prec; lia | exact Hn]).
  rewrite dfix_small by exact Hc. split; [|exact Hc].
  unfold rescale. destruct (-2 <=? dexp d); reflexivity.
Qed.

(** Quantizing a non-negative decimal of two places or more. *)
Lemma quantize_fine (d q : Decimal) :
  dexp d <= -2 -> 0 <= coeff d -> quantize d CENTS = Ok q ->
  q = Dec (round_half_up (coeff d) (-2 - dexp d)) (-2).
Proof.
  intros He Hm Hq. pose proof (quantize_result _ _ Hq) as [_ Hb].
  unfold quantize in Hq. cbn [CENTS dexp] in Hq.
  destruct (Z.eqb_spec (coeff d) 0) as [Hz|Hnz].
  { injection Hq as <-. rewrite Hz. f_equal. unfold round_half_up.
    pose proof (pow10_pos (-2 - dexp d) ltac:(lia)).
    rewrite Z.mod_0_l, Z.div_0_l by lia.
    destruct (Z.leb_spec (10 ^ (-2 - dexp d)) (2 * 0)); [lia | reflexivity]. }
  destruct (prec <? _); [discriminate|].
  destruct (Z.ltb_spec prec (ndigits (coeff (rescale d (-2))))) as [|Hn];
    [discriminate|].
  injection Hq as <-.
  rewrite dfix_small by (apply ndigits_le; [unfold prec; lia | exact Hn]).
  unfold rescale. destruct (Z.leb_spec (-2) (dexp d)) as [Hd|Hd].
  - replace (dexp d) with (-2) by lia. cbn [Z.sub Z.opp Z.add Z.pos_sub].
    rewrite round_half_up_0. f_equal. change (10 ^ 0) with 1. lia.
  - f_equal. rewrite Z.abs_eq by lia. destruct (coeff d); try lia; simpl; lia.
Qed.

Lemma ddiv_bound (a b f : Decimal) : ddiv a b = Ok f -> Z.abs (coeff f) < 10 ^ prec.
Proof.
  unfold ddiv. destruct (coeff b =? 0); [destruct (coeff a =? 0); discriminate|].
  destruct (coeff a =? 0); [intros [= <-]; apply dfix_bound|].
  destruct (_ mod _ =? 0).
  - destruct (strip_zeros _ _ _). intros [= <-]. apply dfix_bound.
  - intros [= <-]. apply dfix_bound.
Qed.

Lemma dsub_fine (a : Decimal) (i : Z) :
  dexp a <= -2 ->
  dsub a (Dec i (-2)) = dfix (Dec (coeff a - i * 10 ^ (-2 - dexp a)) (dexp a)).
Proof.
  intros He. unfold dsub, dadd_exact, dneg. cbn [coeff dexp].
  rewrite Z.min_l, Z.sub_diag, Z.pow_0_r by lia. do 2 f_equal. ring.
Qed.

(** The sum principal + interest + tax, once the principal part is known to
    be [Q - i - b] cents. *)
Lemma installment_sum (Q i b : Z) (inst : Decimal) :
  0 <= i -> 0 <= b -> 0 <= Q - i - b -> Q < 10 ^ prec ->
  quantize (dadd (dadd (Dec (Q - i - b) (-2)) (Dec i (-2))) (Dec b (-2))) CENTS
    = Ok inst ->
  inst = Dec Q (-2).
Proof.
  intros Hi Hb Hpp HQ Hinst.
  pose proof (dadd_cents _ _ _ _ (in_cents_Dec (Q - i - b)) (in_cents_Dec i)) as H1.
  destruct (Z.ltb_spec (Z.abs (Q - i - b + i)) (10 ^ prec)) as [_|Hbad]; [|lia].
  pose proof (dadd_cents _ _ _ _ H1 (in_cents_Dec b)) as H2.
  replace (Q - i - b + i + b) with Q in H2 by lia.
  destruct (Z.ltb_spec (Z.abs Q) (10 ^ prec)) as [_|Hbad]; [|lia].
  apply (quantize_cents_Ok _ _ _ H2) in Hinst. apply Hinst.
Qed.

(** One round of the equal-installment loop: with non-negative interest and
    tax that together do not exceed the annuity [T], the installment written
    into the row is [T] rounded to cents. *)
Lemma installment_is_rounded_annuity (T I B pp inst q : Decimal) :
  Z.abs (coeff T) < 10 ^ prec ->
  quantize T CENTS = Ok q ->
  dexp I = -2 -> dexp B = -2 -> 0 <= coeff I -> 0 <= coeff B ->
  dleb (dadd_exact I B) T = true ->
  quantize (dsub (dsub T I) B) CENTS = Ok pp ->
  quantize (dadd (dadd pp I) B) CENTS = Ok inst ->
  inst = q.
Proof.
  destruct T as [m e], I as [i ei], B as [b eb]. cbn [coeff dexp].
  intros Hm Hq -> -> Hi Hb Hle Hpp Hinst.
  unfold dleb, aligned, dadd_exact in Hle. cbn [coeff dexp fst snd] in Hle.
  apply Z.leb_le in Hle.
  replace (Z.min (-2) (-2)) with (-2) in Hle by reflexivity.
  change (-2 - -2) with 0 in Hle. rewrite Z.pow_0_r, !Z.mul_1_r in Hle.
  destruct (Z_le_gt_dec e (-2)) as [He|He].
  - (* T has two places or more: the subtractions are exact *)
    rewrite Z.min_r, Z.sub_diag, Z.pow_0_r, Z.mul_1_r in Hle by lia.
    set (s := -2 - e) in *. pose proof (pow10_pos s ltac:(unfold s; lia)) as Hp.
    assert (Hm0 : 0 <= m) by nia.
    rewrite (dsub_fine (Dec m e) i) in Hpp by (simpl; lia).
    cbn [coeff dexp] in Hpp. fold s in Hpp.
    rewrite (dfix_small (Dec (m - i * 10 ^ s) e)) in Hpp by (cbn [coeff]; nia).
    rewrite (dsub_fine (Dec (m - i * 10 ^ s) e) b) in Hpp by (simpl; lia).
    cbn [coeff dexp] in Hpp. fold s in Hpp.
    rewrite (dfix_small (Dec (m - i * 10 ^ s - b * 10 ^ s) e)) in Hpp
      by (cbn [coeff]; nia).
    apply quantize_fine in Hpp; [|simpl; lia|cbn [coeff]; nia].
    cbn [coeff dexp] in Hpp. fold s in Hpp.
    replace (m - i * 10 ^ s - b * 10 ^ s) with (m - (i + b) * 10 ^ s) in Hpp by ring.
    rewrite round_half_up_sub in Hpp by (unfold s; lia).
    pose proof (quantize_result _ _ Hq) as [_ HQ].
    apply quantize_fine in Hq; [|simpl; lia|simpl; lia].
    cbn [coeff dexp] in Hq. fold s in Hq. subst q pp. cbn [coeff] in HQ.
    assert (Hpp0 : 0 <= round_half_up (m - (i + b) * 10 ^ s) s)
      by (apply round_half_up_nonneg; [nia | unfold s; lia]).
    rewrite round_half_up_sub in Hpp0 by (unfold s; lia).
    set (Q := round_half_up m s) in *.
    replace (Q - (i + b)) with (Q - i - b) in Hinst by lia.
    apply (installment_sum Q i b); try lia. exact Hinst.
  - (* T is a whole number of cents *)
    rewrite Z.min_l, Z.sub_diag, Z.pow_0_r, Z.mul_1_r in Hle by lia.
    replace (e - -2) with (e + 2) in Hle by lia.
    set (t := m * 10 ^ (e + 2)) in *.
    assert (HT : in_cents (Dec m e) t) by (apply in_cents_ge; simpl; [lia|reflexivity]).
    apply (quantize_cents_Ok _ _ _ HT) in Hq. destruct Hq as [-> Ht].
    pose proof (dsub_cents _ _ _ _ HT (in_cents_Dec i)) as H1.
    destruct (Z.ltb_spec (Z.abs (t - i)) (10 ^ prec)) as [_|Hbad]; [|lia].
    pose proof (dsub_cents _ _ _ _ H1 (in_cents_Dec b)) as H2.
    destruct (Z.ltb_spec (Z.abs (t - i - b)) (10 ^ prec)) as [_|Hbad]; [|lia].
    apply (quantize_cents_Ok _ _ _ H2) in Hpp. destruct Hpp as [-> _].
    apply (installment_sum t i b); try lia. exact Hinst.
Qed.

(** C4, as the code has it: in an [EqualInstallmentLoan] schedule every
    regular row, the final one included, whose interest and tax are
    non-negative and together do not exceed the annuity amount [T] has an
    [installment_amount] equal to the same constant, [T] rounded to cents. *)
Theorem C4_installment_constant (fuel : nat) (P r c b : Decimal) (start : date)
    (term : Z) (freq : string) (holiday : date -> bool)
    (loan : EqualInstallmentLoan.t) (sched : list row) (q : Decimal) (row : row) :
  EqualInstallmentLoan.init fuel P r c start term freq b holiday = Ok loan ->
  EqualInstallmentLoan.calculate_schedule loan = Ok sched ->
  quantize (EqualInstallmentLoan.fixed_installment loan) CENTS = Ok q ->
  row ∈ sched -> installment_number row <> 0 ->
  0 <= coeff (interest_payment row) ->
  0 <= coeff (bsmv row) ->
  dleb (dadd_exact (interest_payment row) (bsmv row))
       (EqualInstallmentLoan.fixed_installment loan) = true ->
  installment_amount row = q.
Proof.
  intros Hinit Hcalc Hq Hin Hreg.
  apply EqualInstallmentLoan_init_inv in Hinit.
  destruct Hinit as (fd & cal & T & _ & _ & HT & ->).
  cbn [EqualInstallmentLoan.fixed_installment] in *.
  assert (HTb : Z.abs (coeff T) < 10 ^ prec).
  { unfold EqualInstallmentLoan.annuity in HT. inv_bind HT.
    eapply ddiv_bound, HT. }
  revert row Hin Hreg.
  refine (EqualInstallmentLoan_regular_rows
            (fun row => 0 <= coeff (interest_payment row) ->
                        0 <= coeff (bsmv row) ->
                        dleb (dadd_exact (interest_payment row) (bsmv row)) T = true ->
                        installment_amount row = q)
            _ sched _ Hcalc).
  intros i sch rem r0 rem' Hi Hs.
  unfold EqualInstallmentLoan.schedule_step in Hs. inv_bind Hs.
  apply snoc_inj in Hs. subst r0.
  cbn [EqualInstallmentLoan.fixed_installment interest_payment bsmv
       installment_amount] in *.
  intros HI HB Hle.
  pose proof (quantize_result _ _ Hv) as [HeI _].
  pose proof (quantize_result _ _ Hv0) as [HeB _].
  eapply (installment_is_rounded_annuity T v v0 v1 v2 q); eassumption.
Qed.

Lemma C4_installment_witness :
  installment_amount
    (Row 1 (Date 2024 6 3) 30 (Dec 5937655 (-2)) (Dec 240000 (-2)) ZERO_00
       (Dec 12000 (-2)) (Dec 6189655 (-2)) (Dec 6062345 (-2)))
  = Dec 6189655 (-2).
Proof.
  eassert (Hinit : EqualInstallmentLoan.init 3 (Dec 12000000 (-2)) (Dec 2 (-2))
                     (Dec 0 0) (Date 2024 5 2) 2 "1m" (Dec 5 (-2)) no_holidays = Ok _)
    by (vm_compute; reflexivity).
  match type of Hinit with
  | _ = Ok ?l =>
      eassert (Hcalc : EqualInstallmentLoan.calculate_schedule l = Ok _)
        by (vm_compute; reflexivity);
      assert (Hq : quantize (EqualInstallmentLoan.fixed_installment l) CENTS
                   = Ok (Dec 6189655 (-2)))
        by (vm_compute; reflexivity)
  end.
  exact (C4_installment_constant _ _ _ _ _ _ _ _ _ _ _ _
           (Row 1 (Date 2024 6 3) 30 (Dec 5937655 (-2)) (Dec 240000 (-2)) ZERO_00
              (Dec 12000 (-2)) (Dec 6189655 (-2)) (Dec 6062345 (-2)))
           Hinit Hcalc Hq
           ltac:(left) ltac:(discriminate)
           ltac:(simpl; lia) ltac:(simpl; lia) ltac:(vm_compute; reflexivity)).
Defined.


(** C4 as the specification words it fails: 333 at 5% a month, semiannual,
    120 periods.  The annuity amount is 104.895 and rounds to 104.90, but
    interest 99.90 and tax 5.00 exceed it, the principal part is
    [-0.005] rounded away from zero to [-0.01], and row 1 (not the final
    one of the 120 rows) carries 104.89. *)
Lemma C4_counterexample :
  let row1 :=
    Row 1 (Date 2024 11 4) 180 (Dec (-1) (-2)) (Dec 9990 (-2)) ZERO_00
      (Dec 500 (-2)) (Dec 10489 (-2)) (Dec 33301 (-2)) in
  (loan ← EqualInstallmentLoan.init 3 (Dec 333 0) (Dec 5 (-2)) (Dec 0 0)
             (Date 2024 5 2) 720 "6m" (Dec 5 (-2)) no_holidays;
   sched ← EqualInstallmentLoan.calculate_schedule loan;
   rounded ← quantize (EqualInstallmentLoan.fixed_installment loan) CENTS;
   mret (EqualInstallmentLoan.fixed_installment loan, rounded, length sched,
         head sched))
  = Ok (Dec 104895000000000 (-12), Dec 10490 (-2), 120%nat, Some row1) /\
  ~ value_eq (installment_amount row1) (Dec 10490 (-2)).
Proof.
  split; [vm_compute; reflexivity|]. vm_compute. discriminate.
Qed.

(** ** Rows whose installment is not the sum of its parts *)

(** C1 fails on the regular rows of [EqualPrincipalLoan]: the installment is
    rounded from the unrounded quotient plus interest plus tax, while the row
    reports the quotient rounded on its own.  Principal 1999999999980.09 at
    2% over 20 months: the quotient is 99999999999.0045; row 1 reports
    principal 99999999999.00, interest 39999999999.60, tax 1999999999.98 and
    no commission, which add up to 141999999998.58, and an installment of
    141999999998.59. *)
Theorem C1_row_sum_equal_principal :
  let row1 :=
    Row 1 (Date 2024 6 3) 30 (Dec 9999999999900 (-2)) (Dec 3999999999960 (-2))
      ZERO_00 (Dec 199999999998 (-2)) (Dec 14199999999859 (-2))
      (Dec 189999999998109 (-2)) in
  (loan ← EqualPrincipalLoan.init 3 (Dec 199999999998009 (-2)) (Dec 2 (-2))
             (Dec 0 0) (Date 2024 5 2) 20 "1m" (Dec 5 (-2)) no_holidays false;
   sched ← EqualPrincipalLoan.calculate_schedule loan;
   mret (EqualPrincipalLoan.fixed_principal loan, head sched))
  = Ok (Dec 999999999990045 (-4), Some row1) /\
  row_sum row1 = Dec 14199999999858 (-2) /\
  ~ value_eq (installment_amount row1) (row_sum row1).
Proof.
  split; [vm_compute; reflexivity|].
  split; [vm_compute; reflexivity|]. vm_compute. discriminate.
Qed.

(** ** The cost behind the all-in rate *)

(** C3 fails for [EqualInstallmentLoan]: the commission row adds its
    installment (commission plus its tax) to the commission total and its tax
    to the tax total as well.  100000.0 at 2.5% with 1% commission over 12
    months: interest, tax of all rows and commission add up to 18921.71, the
    code divides 18971.71 (the 50.00 of commission tax twice) and returns
    33.23, where the formula gives 33.15 on the maturity the code divides by
    and 33.20 on the maturity 0.57 it returns. *)
Theorem C3_commission_tax_counted_twice :
  let P := Dec 1000000 (-1) in
  let row0 :=
    Row 0 (Date 2024 5 2) 0 ZERO_00 ZERO_00 (Dec 100000 (-2)) (Dec 5000 (-2))
      (Dec 105000 (-2)) (Dec 10000000 (-2)) in
  (loan ← EqualInstallmentLoan.init 3 P (Dec 25 (-3)) (Dec 1 (-2)) (Date 2024 5 2)
             12 "1m" (Dec 5 (-2)) no_holidays;
   sched ← EqualInstallmentLoan.calculate_schedule loan;
   s ← EqualInstallmentLoan.calculate_average_maturity_and_all_in_rate loan sched;
   let a := foldl (EqualInstallmentLoan.maturity_step loan) acc0 sched in
   gun ← ddiv (total_weighted_days a) (total_principal_paid a);
   years ← ddiv gun (Dec 365 0);
   on_years ← spec_all_in_rate (spec_total_cost sched) years P;
   on_returned ← spec_all_in_rate (spec_total_cost sched) (ortalama_vade_yil s) P;
   mret (head sched, spec_total_cost sched, toplam_maliyet a, s,
         on_years, on_returned))
  = Ok (Some row0, Dec 1892171 (-2), Dec 1897171 (-2),
        Summary (Dec 57 (-2)) (Dec 3323 (-2)), Dec 3315 (-2), Dec 3320 (-2)).
Proof. vm_compute. reflexivity. Qed.

(** On the same terms [EqualPrincipalLoan] counts every component once and
    returns the rate of the formula. *)
Lemma EqualPrincipalLoan_cost_counted_once :
  let P := Dec 1000000 (-1) in
  (loan ← EqualPrincipalLoan.init 3 P (Dec 25 (-3)) (Dec 1 (-2)) (Date 2024 5 2)
             12 "1m" (Dec 5 (-2)) no_holidays false;
   sched ← EqualPrincipalLoan.calculate_schedule loan;
   s ← EqualPrincipalLoan.calculate_average_maturity_and_all_in_rate loan sched;
   let a := foldl (EqualPrincipalLoan.maturity_step loan) acc0 sched in
   on_returned ← spec_all_in_rate (spec_total_cost sched) (ortalama_vade_yil s) P;
   mret (spec_total_cost sched, toplam_maliyet a, s, on_returned))
  = Ok (Dec 1811250 (-2), Dec 1811250 (-2),
        Summary (Dec 55 (-2)) (Dec 3293 (-2)), Dec 3293 (-2)).
Proof. vm_compute. reflexivity. Qed.

(** ** Where the installment is the sum of its parts *)

Lemma quantize_form (d q : Decimal) :
  quantize d CENTS = Ok q -> q = Dec (coeff q) (-2) /\ Z.abs (coeff q) < 10 ^ prec.
Proof.
  intros H. apply quantize_result in H. destruct q as [m e], H as [He Hb].
  simpl in *. subst e. auto.
Qed.

Lemma dadd_exact_two_places (a b : Z) :
  dadd_exact (Dec a (-2)) (Dec b (-2)) = Dec (a + b) (-2).
Proof.
  unfold dadd_exact. cbn [coeff dexp]. change (Z.min (-2) (-2)) with (-2).
  change (10 ^ (-2 - -2)) with 1. f_equal. lia.
Qed.

Lemma value_eq_two_places (a b : Z) : value_eq (Dec a (-2)) (Dec b (-2)) <-> a = b.
Proof.
  unfold value_eq, aligned. cbn [coeff dexp fst snd].
  change (Z.min (-2) (-2)) with (-2). change (10 ^ (-2 - -2)) with 1. lia.
Qed.

Lemma row_sum_two_places k d a pp i c b inst rem :
  row_sum (Row k d a (Dec pp (-2)) (Dec i (-2)) (Dec c (-2)) (Dec b (-2)) inst rem)
  = Dec (pp + i + b + c) (-2).
Proof.
  unfold row_sum. cbn [principal_payment interest_payment bsmv commission_payment].
  rewrite !dadd_exact_two_places. reflexivity.
Qed.

(** The commission row of either class adds up. *)
Lemma commission_rows_sum P c b start rem first :
  commission_rows P c b start rem = Ok first ->
  Forall (fun r => value_eq (installment_amount r) (row_sum r)) first.
Proof.
  unfold commission_rows. destruct (dltb (of_int 0) c); [|intros [= <-]; constructor].
  intros H. inv_bind H. subst first. constructor; [|constructor].
  apply quantize_form in Hv, Hv0. destruct Hv as [Hv _], Hv0 as [Hv0 _].
  rewrite Hv, Hv0 in *. unfold ZERO_00. rewrite row_sum_two_places.
  cbn [installment_amount].
  pose proof (dadd_cents _ _ _ _ (in_cents_Dec (coeff v)) (in_cents_Dec (coeff v0)))
    as Hs.
  destruct (Z.ltb_spec (Z.abs (coeff v + coeff v0)) (10 ^ prec)).
  - apply (quantize_cents_Ok _ _ _ Hs) in Hv1. destruct Hv1 as [-> _].
    apply value_eq_two_places. lia.
  - rewrite (quantize_oversized _ Hs) in Hv1. discriminate.
Qed.

Lemma dfix_positive (d : Decimal) : 0 < coeff d -> 0 < coeff (dfix d).
Proof.
  intros Hd. unfold dfix.
  destruct (Z.leb_spec (ndigits (coeff d)) prec) as [_|Hgt]; [exact Hd|].
  pose proof (excess_quotient _ Hgt) as [Hlo _].
  pose proof (round_half_up_bounds (Z.abs (coeff d)) (ndigits (coeff d) - prec)
                ltac:(lia) ltac:(lia)) as [Hr _].
  change (10 ^ (prec - 1)) with 100000000000000 in Hlo.
  replace (Z.sgn (coeff d)) with 1 by (destruct (coeff d); simpl; lia).
  set (q := round_half_up (Z.abs (coeff d)) (ndigits (coeff d) - prec)) in *.
  destruct (Z.eqb_spec q (10 ^ prec)) as [Heq|_]; cbn [coeff].
  - rewrite Heq. reflexivity.
  - lia.
Qed.

Lemma dadd_oversized (a b : Decimal) :
  oversized a -> 0 < coeff a -> 0 <= coeff b -> oversized (dadd a b).
Proof.
  intros [_ Hbig] Ha Hb. apply dfix_oversized. unfold dadd_exact, oversized.
  cbn [coeff dexp]. set (e := Z.min (dexp a) (dexp b)).
  pose proof (pow10_pos (dexp a - e) ltac:(unfold e; lia)) as Hpa.
  pose proof (pow10_pos (dexp b - e) ltac:(unfold e; lia)) as Hpb.
  split; [nia|].
  pose proof (ndigits_mono (coeff a * 10 ^ (dexp a - e))
                (coeff a * 10 ^ (dexp a - e) + coeff b * 10 ^ (dexp b - e))
                ltac:(rewrite !Z.abs_eq by nia; nia)) as Hmono.
  rewrite ndigits_shift in Hmono by (unfold e; lia). lia.
Qed.

(** Regular rows of [EqualInstallmentLoan] add up: the installment is
    quantized from amounts that are already rounded. *)
Lemma EqualInstallmentLoan_row_sum self sched row :
  EqualInstallmentLoan.calculate_schedule self = Ok sched ->
  row ∈ sched -> installment_number row <> 0 ->
  0 <= coeff (principal_payment row) ->
  0 <= coeff (interest_payment row) ->
  0 <= coeff (bsmv row) ->
  value_eq (installment_amount row) (row_sum row).
Proof.
  intros Hcalc. revert row.
  refine (EqualInstallmentLoan_regular_rows
            (fun row => 0 <= coeff (principal_payment row) ->
                        0 <= coeff (interest_payment row) ->
                        0 <= coeff (bsmv row) ->
                        value_eq (installment_amount row) (row_sum row))
            _ sched _ Hcalc).
  intros i sch rem r0 rem' Hi Hs.
  unfold EqualInstallmentLoan.schedule_step in Hs. inv_bind Hs.
  apply snoc_inj in Hs. subst r0.
  cbn [principal_payment interest_payment bsmv installment_amount].
  intros Hp HI HB.
  apply quantize_form in Hv, Hv0, Hv1.
  destruct Hv as [Hv _], Hv0 as [Hv0 _], Hv1 as [Hv1 _].
  rewrite Hv, Hv0, Hv1 in *. cbn [coeff] in *.
  unfold ZERO_00. rewrite row_sum_two_places.
  set (p := coeff v1) in *. set (n := coeff v) in *. set (t := coeff v0) in *.
  pose proof (dadd_cents _ _ _ _ (in_cents_Dec p) (in_cents_Dec n)) as H1.
  assert (Hover : oversized (dadd (dadd (Dec p (-2)) (Dec n (-2))) (Dec t (-2))) ->
                  False).
  { intros Ho. rewrite (quantize_oversized _ Ho) in Hv2. discriminate. }
  destruct (Z.ltb_spec (Z.abs (p + n)) (10 ^ prec)) as [Hfit|Hbig].
  - pose proof (dadd_cents _ _ _ _ H1 (in_cents_Dec t)) as H2.
    destruct (Z.ltb_spec (Z.abs (p + n + t)) (10 ^ prec)); [|contradiction].
    apply (quantize_cents_Ok _ _ _ H2) in Hv2. destruct Hv2 as [-> _].
    apply value_eq_two_places. lia.
  - exfalso. apply Hover, dadd_oversized; [exact H1| |simpl; exact HB].
    unfold dadd. apply dfix_positive. rewrite dadd_exact_two_places. simpl.
    change (10 ^ prec) with 1000000000000000 in Hbig. lia.
Qed.

Lemma dadd_fine (a : Decimal) (i : Z) :
  dexp a <= -2 ->
  dadd a (Dec i (-2)) = dfix (Dec (coeff a + i * 10 ^ (-2 - dexp a)) (dexp a)).
Proof.
  intros He. unfold dadd, dadd_exact. cbn [coeff dexp].
  rewrite Z.min_l, Z.sub_diag, Z.pow_0_r by lia. do 2 f_equal. ring.
Qed.

Lemma dadd_exact_fine (a : Decimal) (i : Z) :
  dexp a <= -2 ->
  dadd_exact a (Dec i (-2)) = Dec (coeff a + i * 10 ^ (-2 - dexp a)) (dexp a).
Proof.
  intros He. unfold dadd_exact. cbn [coeff dexp].
  rewrite Z.min_l, Z.sub_diag, Z.pow_0_r by lia. f_equal. ring.
Qed.

Lemma dadd_exact_coarse (a : Decimal) (i : Z) :
  -2 <= dexp a ->
  dadd_exact a (Dec i (-2)) = Dec (coeff a * 10 ^ (dexp a + 2) + i) (-2).
Proof.
  intros He. unfold dadd_exact. cbn [coeff dexp].
  rewrite Z.min_r, Z.sub_diag, Z.pow_0_r by lia. f_equal.
  replace (dexp a - -2) with (dexp a + 2) by lia. ring.
Qed.

(** One round of the equal-principal loop: when the quotient plus interest
    plus tax fits the 15 digits of the context, the installment is the
    rounded quotient plus interest plus tax. *)
Lemma equal_principal_installment (fp I B pp inst : Decimal) :
  0 <= coeff fp -> dexp I = -2 -> dexp B = -2 -> 0 <= coeff I -> 0 <= coeff B ->
  Z.abs (coeff (dadd_exact (dadd_exact fp I) B)) < 10 ^ prec ->
  quantize fp CENTS = Ok pp ->
  quantize (dadd (dadd fp I) B) CENTS = Ok inst ->
  inst = Dec (coeff pp + coeff I + coeff B) (-2).
Proof.
  destruct fp as [m e], I as [i ei], B as [b eb]. cbn [coeff dexp].
  intros Hm -> -> Hi Hb Hfit Hpp Hinst.
  destruct (Z_le_gt_dec e (-2)) as [He|He].
  - set (s := -2 - e) in *. pose proof (pow10_pos s ltac:(unfold s; lia)) as Hp.
    rewrite (dadd_exact_fine (Dec m e) i), dadd_exact_fine in Hfit by (simpl; lia).
    cbn [coeff dexp] in Hfit. fold s in Hfit.
    rewrite (dadd_fine (Dec m e) i) in Hinst by (simpl; lia).
    cbn [coeff dexp] in Hinst. fold s in Hinst.
    rewrite (dfix_small (Dec (m + i * 10 ^ s) e)) in Hinst by (cbn [coeff]; nia).
    rewrite (dadd_fine (Dec (m + i * 10 ^ s) e) b) in Hinst by (simpl; lia).
    cbn [coeff dexp] in Hinst. fold s in Hinst.
    rewrite (dfix_small (Dec (m + i * 10 ^ s + b * 10 ^ s) e)) in Hinst
      by (cbn [coeff]; exact Hfit).
    apply quantize_fine in Hinst; [|simpl; lia|cbn [coeff]; nia].
    apply quantize_fine in Hpp; [|simpl; lia|simpl; lia].
    cbn [coeff dexp] in Hinst, Hpp. fold s in Hinst, Hpp. subst inst pp.
    cbn [coeff]. f_equal.
    replace (m + i * 10 ^ s + b * 10 ^ s) with (m - (- (i + b)) * 10 ^ s) by ring.
    rewrite round_half_up_sub by (unfold s; lia). lia.
  - rewrite (dadd_exact_coarse (Dec m e) i), dadd_exact_two_places in Hfit
      by (simpl; lia).
    cbn [coeff dexp] in Hfit. set (t := m * 10 ^ (e + 2)) in *.
    pose proof (pow10_pos (e + 2) ltac:(lia)) as Hp.
    assert (Ht : 0 <= t) by (unfold t; nia).
    assert (HT : in_cents (Dec m e) t) by (apply in_cents_ge; simpl; [lia|reflexivity]).
    apply (quantize_cents_Ok _ _ _ HT) in Hpp. destruct Hpp as [-> _].
    pose proof (dadd_cents _ _ _ _ HT (in_cents_Dec i)) as H1.
    destruct (Z.ltb_spec (Z.abs (t + i)) (10 ^ prec)) as [_|Hbad]; [|lia].
    pose proof (dadd_cents _ _ _ _ H1 (in_cents_Dec b)) as H2.
    destruct (Z.ltb_spec (Z.abs (t + i + b)) (10 ^ prec)) as [_|Hbad]; [|lia].
    apply (quantize_cents_Ok _ _ _ H2) in Hinst. destruct Hinst as [-> _].
    reflexivity.
Qed.

(** Regular rows of [EqualPrincipalLoan] add up as long as the unrounded
    quotient plus interest plus tax needs no more than 15 digits. *)
Lemma EqualPrincipalLoan_row_sum_within_precision self sched row :
  EqualPrincipalLoan.calculate_schedule self = Ok sched ->
  row ∈ sched -> installment_number row <> 0 ->
  0 <= coeff (EqualPrincipalLoan.fixed_principal self) ->
  0 <= coeff (interest_payment row) ->
  0 <= coeff (bsmv row) ->
  Z.abs (coeff (dadd_exact
                  (dadd_exact (EqualPrincipalLoan.fixed_principal self)
                     (interest_payment row))
                  (bsmv row))) < 10 ^ prec ->
  value_eq (installment_amount row) (row_sum row).
Proof.
  intros Hcalc Hin Hreg Hfp. revert row Hin Hreg.
  refine (EqualPrincipalLoan_regular_rows
            (fun row =>
               0 <= coeff (interest_payment row) ->
               0 <= coeff (bsmv row) ->
               Z.abs (coeff (dadd_exact
                               (dadd_exact (EqualPrincipalLoan.fixed_principal self)
                                  (interest_payment row))
                               (bsmv row))) < 10 ^ prec ->
               value_eq (installment_amount row) (row_sum row))
            _ sched _ Hcalc).
  intros i sch rem r0 rem' Hi Hs.
  unfold EqualPrincipalLoan.schedule_step in Hs. inv_bind Hs.
  destruct v as [period_rate accrual]. inv_bind Hs.
  apply snoc_inj in Hs. subst r0.
  cbn [principal_payment interest_payment bsmv installment_amount].
  intros HI HB Hfit.
  pose proof (quantize_result _ _ Hv0) as [HeI _].
  pose proof (quantize_result _ _ Hv1) as [HeB _].
  pose proof (equal_principal_installment _ _ _ _ _ Hfp HeI HeB HI HB Hfit Hv4 Hv2)
    as ->.
  apply quantize_form in Hv0, Hv1, Hv4.
  destruct Hv0 as [Hv0 _], Hv1 as [Hv1 _], Hv4 as [Hv4 _].
  rewrite Hv0, Hv1, Hv4. unfold ZERO_00. rewrite row_sum_two_places.
  cbn [coeff]. apply value_eq_two_places. lia.
Qed.

(** * The calendar and the schedules at large *)

(** ** Dates *)

Lemma days_in_month_bounds (y m : Z) : 28 <= days_in_month y m <= 31.
Proof. unfold days_in_month. repeat case_match; lia. Qed.

Lemma days_before_month_succ (y m : Z) :
  1 <= m -> days_before_month y (m + 1) = days_before_month y m + days_in_month y m.
Proof.
  intros Hm. unfold days_before_month.
  replace (Z.to_nat (m + 1 - 1)) with (S (Z.to_nat (m - 1))) by lia.
  cbn [days_before_month_aux]. do 2 f_equal. lia.
Qed.

Lemma days_before_month_1 (y : Z) : days_before_month y 1 = 0.
Proof. reflexivity. Qed.

Lemma days_before_month_13 (y : Z) :
  days_before_month y 13 = if is_leap y then 366 else 365.
Proof.
  unfold days_before_month. change (Z.to_nat (13 - 1)) with 12%nat.
  cbn [days_before_month_aux]. unfold days_in_month.
  change (Z.of_nat 1) with 1. change (Z.of_nat 2) with 2. change (Z.of_nat 3) with 3.
  change (Z.of_nat 4) with 4. change (Z.of_nat 5) with 5. change (Z.of_nat 6) with 6.
  change (Z.of_nat 7) with 7. change (Z.of_nat 8) with 8. change (Z.of_nat 9) with 9.
  change (Z.of_nat 10) with 10. change (Z.of_nat 11) with 11.
  change (Z.of_nat 12) with 12. cbn. destruct (is_leap y); reflexivity.
Qed.

Lemma days_before_year_succ (y : Z) :
  days_before_year (y + 1) = days_before_year y + (if is_leap y then 366 else 365).
Proof.
  unfold days_before_year, is_leap. cbv zeta.
  replace (y + 1 - 1) with y by lia.
  destruct (Z.eqb_spec (y mod 4) 0) as [H4|H4];
    destruct (Z.eqb_spec (y mod 100) 0) as [H100|H100];
    destruct (Z.eqb_spec (y mod 400) 0) as [H400|H400]; cbn [andb orb negb];
    Z.div_mod_to_equations; lia.
Qed.

Lemma next_day_spec (d d' : date) :
  valid_date d -> next_day d = Ok d' ->
  valid_date d' /\ toordinal d' = toordinal d + 1.
Proof.
  intros (Hy & Hm & Hd) H. unfold next_day in H.
  pose proof (days_in_month_bounds (year d) (month d)) as Hb.
  destruct (Z.ltb_spec (day d) (days_in_month (year d) (month d))) as [Hlt|Hge].
  { injection H as <-. unfold valid_date, toordinal. cbn [year month day].
    split; [lia | lia]. }
  destruct (Z.ltb_spec (month d) 12) as [Hm12|Hm12].
  { injection H as <-. unfold valid_date, toordinal. cbn [year month day].
    pose proof (days_in_month_bounds (year d) (month d + 1)).
    rewrite days_before_month_succ by lia. split; [lia | lia]. }
  destruct (Z.ltb_spec (year d) MAXYEAR) as [Hy'|Hy']; [|discriminate].
  injection H as <-. unfold valid_date, toordinal. cbn [year month day].
  pose proof (days_in_month_bounds (year d + 1) 1).
  split; [lia|].
  rewrite days_before_year_succ, days_before_month_1.
  assert (Hm' : month d = 12) by lia.
  pose proof (days_before_month_succ (year d) 12 ltac:(lia)) as Hs.
  rewrite days_before_month_13 in Hs. rewrite Hm' in *. lia.
Qed.

Lemma weekday_next_day (d d' : date) :
  valid_date d -> next_day d = Ok d' -> weekday d' = (weekday d + 1) mod 7.
Proof.
  intros Hv H. destruct (next_day_spec _ _ Hv H) as [_ Ho].
  unfold weekday. rewrite Ho. Z.div_mod_to_equations. lia.
Qed.

Lemma weekday_range (d : date) : 0 <= weekday d < 7.
Proof. unfold weekday. apply Z.mod_pos_bound. lia. Qed.

(** [toordinal] numbers the valid dates in calendar order. *)
Lemma days_before_year_mono (y1 y2 : Z) :
  y1 <= y2 -> days_before_year y1 <= days_before_year y2.
Proof.
  intros H. unfold days_before_year. cbv zeta. Z.div_mod_to_equations. lia.
Qed.

Lemma days_before_month_mono (y m1 m2 : Z) :
  1 <= m1 <= m2 -> days_before_month y m1 <= days_before_month y m2.
Proof.
  intros [H1 H2]. 
  replace m2 with (m1 + Z.of_nat (Z.to_nat (m2 - m1))) by lia.
  induction (Z.to_nat (m2 - m1)) as [|k IH].
  - replace (m1 + Z.of_nat 0) with m1 by lia. lia.
  - replace (m1 + Z.of_nat (S k)) with (m1 + Z.of_nat k + 1) by lia.
    rewrite days_before_month_succ by lia.
    pose proof (days_in_month_bounds y (m1 + Z.of_nat k)). lia.
Qed.

Lemma days_before_month_nonneg (y m : Z) : 0 <= days_before_month y m.
Proof.
  unfold days_before_month.
  induction (Z.to_nat (m - 1)) as [|k IH]; cbn [days_before_month_aux]; [lia|].
  pose proof (days_in_month_bounds y (Z.of_nat (S k))). lia.
Qed.

Lemma toordinal_year_bounds (d : date) :
  valid_date d ->
  days_before_year (year d) < toordinal d <= days_before_year (year d + 1).
Proof.
  intros (Hy & Hm & Hd). unfold toordinal.
  pose proof (days_before_month_nonneg (year d) (month d)).
  split; [lia|].
  pose proof (days_before_month_succ (year d) (month d) ltac:(lia)) as Hs.
  pose proof (days_before_month_mono (year d) (month d + 1) 13 ltac:(lia)) as Hmono.
  rewrite days_before_month_13 in Hmono. rewrite days_before_year_succ. lia.
Qed.

Lemma toordinal_inj (d1 d2 : date) :
  valid_date d1 -> valid_date d2 -> toordinal d1 = toordinal d2 -> d1 = d2.
Proof.
  intros H1 H2 Ho.
  pose proof (toordinal_year_bounds _ H1) as [Hl1 Hu1].
  pose proof (toordinal_year_bounds _ H2) as [Hl2 Hu2].
  assert (Hy : year d1 = year d2).
  { destruct (Z_lt_ge_dec (year d1) (year d2)) as [Hlt|Hge].
    - pose proof (days_before_year_mono (year d1 + 1) (year d2) ltac:(lia)). lia.
    - destruct (Z_lt_ge_dec (year d2) (year d1)) as [Hlt|Hge']; [|lia].
      pose proof (days_before_year_mono (year d2 + 1) (year d1) ltac:(lia)). lia. }
  destruct H1 as (_ & Hm1 & Hd1), H2 as (_ & Hm2 & Hd2).
  unfold toordinal in Ho. rewrite Hy in *.
  assert (Hm : month d1 = month d2).
  { destruct (Z_lt_ge_dec (month d1) (month d2)) as [Hlt|Hge].
    - pose proof (days_before_month_mono (year d2) (month d1 + 1) (month d2) ltac:(lia)).
      pose proof (days_before_month_succ (year d2) (month d1) ltac:(lia)). lia.
    - destruct (Z_lt_ge_dec (month d2) (month d1)) as [Hlt|Hge']; [|lia].
      pose proof (days_before_month_mono (year d2) (month d2 + 1) (month d1) ltac:(lia)).
      pose proof (days_before_month_succ (year d2) (month d2) ltac:(lia)). lia. }
  rewrite Hm in *. destruct d1, d2; simpl in *. f_equal; lia.
Qed.

(** ** The business-day search *)

Lemma next_business_day_spec (fuel : nat) (holiday : date -> bool) (d d' : date) :
  valid_date d -> PaymentCalendar.next_business_day fuel holiday d = Ok d' ->
  valid_date d' /\ business_day holiday d' /\ toordinal d <= toordinal d' /\
  forall e, valid_date e -> toordinal d <= toordinal e < toordinal d' ->
            ~ business_day holiday e.
Proof.
  revert d. induction fuel as [|f IH]; intros d Hv; cbn [PaymentCalendar.next_business_day];
    [discriminate|].
  destruct ((5 <=? weekday d) || holiday d) eqn:Htest.
  - intros H. apply bind_Ok in H. destruct H as (d1 & Hn & H).
    destruct (next_day_spec _ _ Hv Hn) as [Hv1 Ho1].
    destruct (IH _ Hv1 H) as (Hv' & Hb & Hle & Hskip).
    split; [exact Hv'|]. split; [exact Hb|]. split; [lia|].
    intros e He [Hlo Hhi]. destruct (Z.eq_dec (toordinal e) (toordinal d)) as [Heq|Hne].
    + apply toordinal_inj in Heq; [|assumption..]. subst e.
      intros [Hw Hh]. apply orb_true_iff in Htest.
      destruct Htest as [Ht|Ht]; [apply Z.leb_le in Ht; lia | congruence].
    + apply Hskip; [exact He | lia].
  - intros [= <-]. apply orb_false_iff in Htest. destruct Htest as [Hw Hh].
    apply Z.leb_gt in Hw. split; [exact Hv|]. split; [split; assumption|].
    split; [lia|]. intros e _ ?. lia.
Qed.

(** More fuel does not change what the search finds. *)
Lemma next_business_day_fuel (fuel fuel' : nat) (holiday : date -> bool) (d d' : date) :
  (fuel <= fuel')%nat ->
  PaymentCalendar.next_business_day fuel holiday d = Ok d' ->
  PaymentCalendar.next_business_day fuel' holiday d = Ok d'.
Proof.
  revert fuel' d. induction fuel as [|f IH]; intros fuel' d Hle; [discriminate|].
  destruct fuel' as [|f']; [lia|]. cbn [PaymentCalendar.next_business_day].
  destruct ((5 <=? weekday d) || holiday d); [|auto].
  intros H. apply bind_Ok in H. destruct H as (d1 & Hn & H).
  rewrite Hn. simpl. apply IH; [lia | exact H].
Qed.

(** Without holidays the search moves a Saturday by two days, a Sunday by
    one and no other day; three rounds are enough. *)
Lemma next_business_day_weekend (fuel : nat) (d : date) :
  valid_date d -> (3 <= fuel)%nat ->
  match PaymentCalendar.next_business_day fuel no_holidays d with
  | Ok d' => toordinal d' - toordinal d
             = (if weekday d =? 5 then 2 else if weekday d =? 6 then 1 else 0)
  | Err e => e = DateOutOfRange /\ year d = MAXYEAR /\ month d = 12 /\ 30 <= day d
  end.
Proof.
  intros Hv Hf. destruct fuel as [|[|[|f]]]; try lia.
  pose proof (weekday_range d) as Hr.
  assert (Hend : forall x, valid_date x -> next_day x = Err DateOutOfRange \/ exists x', next_day x = Ok x').
  { intros x _. destruct (next_day x) as [x'|e] eqn:Hx; [eauto|].
    apply next_day_Err in Hx. subst e. auto. }
  assert (Hlast : forall x, valid_date x -> next_day x = Err DateOutOfRange ->
            year x = MAXYEAR /\ month x = 12 /\ day x = 31).
  { intros x (Hy & Hm & Hd) Hx. unfold next_day in Hx.
    destruct (Z.ltb_spec (day x) (days_in_month (year x) (month x))); [discriminate|].
    destruct (Z.ltb_spec (month x) 12); [discriminate|].
    destruct (Z.ltb_spec (year x) MAXYEAR); [discriminate|].
    assert (month x = 12) as Hm12 by lia. rewrite Hm12 in *.
    change (days_in_month (year x) 12) with 31 in *. lia. }
  cbn [PaymentCalendar.next_business_day]. unfold no_holidays at 1.
  rewrite orb_false_r.
  destruct (Z.leb_spec 5 (weekday d)) as [Hw|Hw].
  2:{ destruct (Z.eqb_spec (weekday d) 5); [lia|].
      destruct (Z.eqb_spec (weekday d) 6); lia. }
  destruct (Hend d Hv) as [He|[d1 H1]].
  { rewrite He. simpl. destruct (Hlast d Hv He) as (? & ? & ?). repeat split; auto; lia. }
  rewrite H1. simpl.
  destruct (next_day_spec _ _ Hv H1) as [Hv1 Ho1].
  pose proof (weekday_next_day _ _ Hv H1) as Hw1.
  unfold no_holidays at 1. rewrite orb_false_r.
  destruct (Z.leb_spec 5 (weekday d1)) as [Hw'|Hw'].
  2:{ destruct (Z.eqb_spec (weekday d) 5) as [E5|E5].
      - rewrite E5 in Hw1. change ((5 + 1) mod 7) with 6 in Hw1. lia.
      - destruct (Z.eqb_spec (weekday d) 6); lia. }
  assert (Hd5 : weekday d = 5).
  { destruct (Z.eq_dec (weekday d) 5); [assumption|].
    assert (weekday d = 6) as E6 by lia. rewrite E6 in Hw1.
    change ((6 + 1) mod 7) with 0 in Hw1. lia. }
  rewrite Hd5 in Hw1. change ((5 + 1) mod 7) with 6 in Hw1.
  destruct (Hend d1 Hv1) as [He|[d2 H2]].
  { rewrite He. simpl. destruct (Hlast d1 Hv1 He) as (Hy1 & Hm1 & Hdd1).
    split; [reflexivity|].
    (* d1 is 9999-12-31, so d is 9999-12-30 *)
    destruct Hv as (Hy & Hm & Hdd). unfold next_day in H1.
    destruct (Z.ltb_spec (day d) (days_in_month (year d) (month d))).
    - injection H1 as <-. simpl in *. lia.
    - destruct (Z.ltb_spec (month d) 12); [injection H1 as <-; simpl in *; lia|].
      destruct (Z.ltb_spec (year d) MAXYEAR); [|discriminate].
      injection H1 as <-. simpl in *. lia. }
  rewrite H2. simpl.
  destruct (next_day_spec _ _ Hv1 H2) as [Hv2 Ho2].
  pose proof (weekday_next_day _ _ Hv1 H2) as Hw2.
  rewrite Hw1 in Hw2. change ((6 + 1) mod 7) with 0 in Hw2.
  unfold no_holidays at 1. rewrite orb_false_r.
  destruct (Z.leb_spec 5 (weekday d2)) as [?|_]; [lia|].
  rewrite Hd5. simpl. lia.
Qed.

(** ** Month arithmetic *)

Lemma add_months_spec (d d' : date) (k : Z) :
  valid_date d -> 1 <= k <= 12 -> add_months d k = Ok d' ->
  valid_date d' /\ month_index d' = month_index d + k /\
  day d' = Z.min (days_in_month (year d') (month d')) (day d).
Proof.
  intros (Hy & Hm & Hd) Hk H. unfold add_months in H. cbv zeta in H.
  destruct (Z.ltb_spec 12 (month d + k)) as [Hover|Hin];
    [destruct (Z.ltb_spec MAXYEAR (year d + 1)) as [|Hmax]
    |destruct (Z.ltb_spec MAXYEAR (year d)) as [|Hmax]]; try discriminate;
    injection H as <-; unfold valid_date, month_index; cbn [year month day].
  - pose proof (days_in_month_bounds (year d + 1) (month d + k - 12)).
    unfold MAXYEAR in *. repeat split; lia.
  - pose proof (days_in_month_bounds (year d) (month d + k)).
    unfold MAXYEAR in *. repeat split; lia.
Qed.

Lemma add_months_Ok (d : date) (k : Z) :
  valid_date d -> 1 <= k <= 12 -> month_index d + k < (MAXYEAR + 1) * 12 ->
  exists d', add_months d k = Ok d'.
Proof.
  intros (Hy & Hm & Hd) Hk Hidx. unfold add_months. cbv zeta.
  unfold month_index, MAXYEAR in *.
  destruct (Z.ltb_spec 12 (month d + k)) as [Hover|Hin];
    [destruct (Z.ltb_spec 9999 (year d + 1)) as [Hbad|_]
    |destruct (Z.ltb_spec 9999 (year d)) as [Hbad|_]]; try lia; eauto.
Qed.

Lemma month_index_split (y m idx : Z) :
  1 <= m <= 12 -> idx = y * 12 + (m - 1) -> idx / 12 = y /\ idx mod 12 + 1 = m.
Proof. intros Hm ->. Z.div_mod_to_equations. lia. Qed.

(** The anchor of an installment does not depend on the day of the nominal
    base it is computed from, only on its month. *)
Lemma nominal_anchor_spec (start nb a : date) (j k : Z) :
  valid_date start -> valid_date nb -> 1 <= k <= 12 ->
  month_index nb = month_index start + j ->
  PaymentCalendar.nominal_anchor nb k (day start) = Ok a ->
  a = nominal_date start (j + k) /\ valid_date a.
Proof.
  intros Hs Hnb Hk Hidx H. unfold PaymentCalendar.nominal_anchor in H.
  apply bind_Ok in H. destruct H as (sch & Hadd & H). injection H as <-.
  destruct (add_months_spec _ _ _ Hnb Hk Hadd) as ((Hy & Hm & Hd) & Hi & _).
  destruct Hs as (_ & _ & Hds).
  pose proof (days_in_month_bounds (year start) (month start)).
  pose proof (days_in_month_bounds (year sch) (month sch)) as Hb.
  unfold nominal_date. cbv zeta.
  destruct (month_index_split (year sch) (month sch) (month_index start + (j + k)) Hm)
    as [-> ->]; [unfold month_index in *; lia|].
  unfold replace_day, last_day_of_month.
  destruct (Z.leb_spec 1 (day start)) as [_|]; [|lia]. cbn [andb].
  destruct (Z.leb_spec (day start) (days_in_month (year sch) (month sch))) as [Hfit|Hshort].
  - rewrite Z.min_l by lia. split; [reflexivity|].
    unfold valid_date. cbn [year month day]. lia.
  - rewrite (Z.min_r (day start)) by lia. cbn [year month day].
    rewrite (Z.min_l _ 31) by lia. split; [reflexivity|].
    unfold valid_date. cbn [year month day]. lia.
Qed.

Section calendar_dates.
Import PaymentCalendar.

Lemma frequency_delta_months self delta :
  frequency_delta self = Ok delta ->
  delta = months_per_period (payment_frequency self) /\ 1 <= delta <= 12 /\
  _frequency_to_days self = Ok (30 * delta).
Proof.
  unfold frequency_delta, months_per_period, _frequency_to_days.
  destruct (String.eqb (payment_frequency self) "1m"); [intros [= <-]; repeat split; lia|].
  destruct (String.eqb (payment_frequency self) "3m"); [intros [= <-]; repeat split; lia|].
  destruct (String.eqb (payment_frequency self) "6m"); [intros [= <-]; repeat split; lia|].
  discriminate.
Qed.

Lemma schedule_step_anchored fuel start months holiday i s nb s' nb' :
  valid_date start -> 1 <= months <= 12 -> 0 <= i ->
  start_date s = start ->
  anchored fuel start months holiday i (s, nb) ->
  schedule_step fuel months (day start) (s, nb) (i + 1) = Ok (s', nb') ->
  anchored fuel start months holiday (i + 1) (s', nb').
Proof.
  intros Hs Hm Hi Hst (Hh & Hnb & Hidx & Hd) H. simpl in Hh, Hnb, Hidx, Hd.
  unfold schedule_step in H. inv_bind H. subst s' nb'.
  unfold anchored. cbn [fst snd holiday_calendar payment_dates].
  destruct (nominal_anchor_spec start nb v (i * months) months Hs Hnb Hm Hidx Hv)
    as [-> Hva].
  destruct (add_months_spec _ _ _ Hnb Hm Hv3) as (Hnb' & Hidx' & _).
  replace (i * months + months) with ((i + 1) * months) in * by lia.
  split; [exact Hh|]. split; [exact Hnb'|]. split; [lia|].
  intros k d. rewrite lookup_insert.
  case_decide as Hk.
  - subst k. intros [= <-]. split; [lia|]. split; [exact Hva|].
    rewrite <- Hh. exact Hv0.
  - intros Hl. destruct (Hd k d Hl) as (Hr & Hv' & Hn). split; [lia|]. auto.
Qed.

Lemma generate_schedule_anchored fuel start term freq holiday cal :
  valid_date start ->
  generate_schedule fuel (init start term freq holiday) = Ok cal ->
  holiday_calendar cal = holiday /\
  forall k d, payment_dates cal !! k = Some d ->
    valid_date (nominal_date start (k * months_per_period freq)) /\
    next_business_day fuel holiday (nominal_date start (k * months_per_period freq))
    = Ok d.
Proof.
  intros Hs H. unfold generate_schedule, run_schedule in H. inv_bind H. inv_bind Hv.
  destruct (frequency_delta_months _ _ Hv0) as (Hdelta & Hm & _).
  cbn [payment_frequency init] in Hdelta. subst v0 cal.
  cbn [start_date init] in Hv.
  set (months := months_per_period freq) in *.
  set (P := fun (i : Z) (st : loop_state) =>
              start_date (fst st) = start /\ anchored fuel start months holiday i st).
  assert (HP : P (Z.max 0 (term * 30 / v1)) v).
  { eapply (for_each_range1 P); [| |exact Hv].
    - split; [reflexivity|]. split; [reflexivity|]. split; [exact Hs|].
      split; [simpl; lia|]. intros k d. simpl. rewrite lookup_empty. discriminate.
    - intros i [s nb] [s' nb'] Hi [Hst Ha] Hstep. split.
      + unfold schedule_step in Hstep. inv_bind Hstep. subst s'. exact Hst.
      + eapply schedule_step_anchored; try eassumption; lia. }
  destruct HP as (_ & Hh & _ & _ & Hd). split; [exact Hh|].
  intros k d Hl. destruct (Hd k d Hl) as (_ & ? & ?). auto.
Qed.

End calendar_dates.

(** Two runs of a loop over the same list that stay related. *)
Lemma for_each_sim {A S T} (R : S -> T -> Prop)
    (body1 : S -> A -> result S) (body2 : T -> A -> result T) (xs : list A) :
  (forall s t x s', R s t -> body1 s x = Ok s' ->
                    exists t', body2 t x = Ok t' /\ R s' t') ->
  forall s t s', R s t -> for_each body1 s xs = Ok s' ->
                 exists t', for_each body2 t xs = Ok t' /\ R s' t'.
Proof.
  intros Hstep. induction xs as [|x xs IH]; intros s t s' HR; simpl.
  - intros [= <-]. eauto.
  - destruct (body1 s x) as [s1|] eqn:Hb; [|discriminate]. intros Hrest.
    destruct (Hstep _ _ _ _ HR Hb) as (t1 & -> & HR1). eapply IH; eassumption.
Qed.

(** A loop whose every round returns, returns. *)
Lemma for_each_range1_Ok {S} (P : Z -> S -> Prop) (body : S -> Z -> result S)
    (n : Z) (s0 : S) :
  P 0 s0 ->
  (forall i s, 0 <= i < n -> P i s -> exists s', body s (i + 1) = Ok s' /\ P (i + 1) s') ->
  exists s', for_each body s0 (range1 n) = Ok s' /\ P (Z.max 0 n) s'.
Proof.
  intros H0 Hstep.
  destruct (Z_le_gt_dec n 0) as [Hn|Hn].
  { exists s0. rewrite range1_neg by lia. replace (Z.max 0 n) with 0 by lia. auto. }
  assert (Hgen : forall k : nat, Z.of_nat k <= n ->
            exists s', for_each body s0 (range1 (Z.of_nat k)) = Ok s' /\
                       P (Z.of_nat k) s').
  { induction k as [|k IH]; intros Hk.
    - exists s0. auto.
    - destruct (IH ltac:(lia)) as (s1 & H1 & HP1).
      destruct (Hstep (Z.of_nat k) s1 ltac:(lia) HP1) as (s2 & H2 & HP2).
      exists s2. rewrite Nat2Z.inj_succ, <- Z.add_1_r.
      rewrite range1_snoc by lia. rewrite for_each_app, H1. simpl. rewrite H2.
      auto. }
  replace (Z.max 0 n) with (Z.of_nat (Z.to_nat n)) by lia.
  destruct (Hgen (Z.to_nat n) ltac:(lia)) as (s' & H & HP).
  exists s'. rewrite Z2Nat.id in H by lia. auto.
Qed.

Section calendar_runs.
Import PaymentCalendar.

(** The fields a run of the loop does not touch. *)
Lemma schedule_step_fields fuel delta cpd s nb i s' nb' :
  schedule_step fuel delta cpd (s, nb) i = Ok (s', nb') ->
  start_date s' = start_date s /\ term_in_months s' = term_in_months s /\
  payment_frequency s' = payment_frequency s /\
  holiday_calendar s' = holiday_calendar s.
Proof. intros H. unfold schedule_step in H. inv_bind H. subst s'. auto. Qed.

Lemma generate_schedule_fields fuel self cal :
  generate_schedule fuel self = Ok cal ->
  start_date cal = start_date self /\ term_in_months cal = term_in_months self /\
  payment_frequency cal = payment_frequency self /\
  holiday_calendar cal = holiday_calendar self.
Proof.
  unfold generate_schedule, run_schedule. intros H. inv_bind H. inv_bind Hv.
  subst cal.
  set (P := fun (_ : Z) (st : loop_state) =>
              start_date (fst st) = start_date self /\
              term_in_months (fst st) = term_in_months self /\
              payment_frequency (fst st) = payment_frequency self /\
              holiday_calendar (fst st) = holiday_calendar self).
  assert (HP : P (Z.max 0 (term_in_months self * 30 / v1)) v).
  { eapply (for_each_range1 P); [| |exact Hv]; [repeat split|].
    intros i [s nb] [s1 nb1] _ (H1 & H2 & H3 & H4) Hs.
  apply schedule_step_fields in Hs. destruct Hs as (E1 & E2 & E3 & E4).
    unfold P. simpl in *. repeat split; congruence. }
  exact HP.
Qed.

(** The loop run again over dictionaries that are already filled writes the
    same entries over them. *)
Lemma run_schedule_over fuel delta cpd xs s nb s' nb' t :
  for_each (schedule_step fuel delta cpd) (s, nb) xs = Ok (s', nb') ->
  start_date t = start_date s -> payment_frequency t = payment_frequency s ->
  holiday_calendar t = holiday_calendar s ->
  payment_dates s = ∅ -> accrual_days s = ∅ -> turkish_banking_accrual_days s = ∅ ->
  exists t',
    for_each (schedule_step fuel delta cpd) (t, nb) xs = Ok (t', nb') /\
    start_date t' = start_date t /\ term_in_months t' = term_in_months t /\
    payment_frequency t' = payment_frequency t /\
    holiday_calendar t' = holiday_calendar t /\
    payment_dates t' = payment_dates s' ∪ payment_dates t /\
    accrual_days t' = accrual_days s' ∪ accrual_days t /\
    turkish_banking_accrual_days t'
    = turkish_banking_accrual_days s' ∪ turkish_banking_accrual_days t.
Proof.
  intros Hrun Hst Hfr Hho Hpd Had Htb.
  set (R := fun (a b : loop_state) =>
              snd a = snd b /\
              start_date (fst b) = start_date (fst a) /\
              payment_frequency (fst b) = payment_frequency (fst a) /\
              holiday_calendar (fst b) = holiday_calendar (fst a) /\
              start_date (fst b) = start_date t /\
              term_in_months (fst b) = term_in_months t /\
              payment_frequency (fst b) = payment_frequency t /\
              holiday_calendar (fst b) = holiday_calendar t /\
              payment_dates (fst b) = payment_dates (fst a) ∪ payment_dates t /\
              accrual_days (fst b) = accrual_days (fst a) ∪ accrual_days t /\
              turkish_banking_accrual_days (fst b)
              = turkish_banking_accrual_days (fst a) ∪ turkish_banking_accrual_days t).
  destruct (for_each_sim R (schedule_step fuel delta cpd) (schedule_step fuel delta cpd) xs)
    with (s := (s, nb)) (t := (t, nb)) (s' := (s', nb')) as ([t' nb2] & Hrun2 & HR).
  - intros [a na] [b nb0] x [a' na'] HR Hs.
    destruct HR as (Hn & E1 & E2 & E3 & F1 & F2 & F3 & F4 & M1 & M2 & M3).
    simpl in Hn, E1, E2, E3, F1, F2, F3, F4, M1, M2, M3. subst nb0.
    unfold schedule_step in Hs. inv_bind Hs. subst a' na'.
    unfold schedule_step. rewrite Hv. simpl. rewrite E3, Hv0. simpl.
    assert (Hprev : (if 1 <? x then of_option (payment_dates b !! (x - 1)) KeyError
                     else Ok (start_date b)) = Ok v1).
    { destruct (1 <? x).
      - apply of_option_Ok in Hv1. rewrite M1.
        rewrite (lookup_union_Some_l _ _ _ _ Hv1). reflexivity.
      - rewrite E1. exact Hv1. }
    rewrite Hprev. simpl.
    assert (Hfd : _frequency_to_days b = Ok v2).
    { unfold _frequency_to_days in *. rewrite E2. exact Hv2. }
    rewrite Hfd. simpl. rewrite Hv3. simpl.
    eexists. split; [reflexivity|]. unfold R. simpl.
    rewrite M1, M2, M3, !insert_union_l. repeat split; congruence.
  - unfold R. simpl. rewrite Hpd, Had, Htb, !(left_id_L ∅ (∪)). repeat split; auto.
  - exact Hrun.
  - destruct HR as (Hn & _ & _ & _ & F1 & F2 & F3 & F4 & M1 & M2 & M3).
    simpl in *. subst nb2. exists t'. repeat split; assumption.
Qed.

Lemma generate_schedule_again fuel start term freq holiday cal :
  generate_schedule fuel (init start term freq holiday) = Ok cal ->
  generate_schedule fuel cal = Ok cal.
Proof.
  intros H. pose proof (generate_schedule_fields _ _ _ H) as (F1 & F2 & F3 & F4).
  cbn [init start_date term_in_months payment_frequency holiday_calendar] in *.
  unfold generate_schedule, run_schedule in *. inv_bind H. inv_bind Hv.
  destruct v as [s' nb']. simpl in H. subst s'.
  assert (Hd : frequency_delta cal = Ok v0).
  { unfold frequency_delta in *. rewrite F3. exact Hv0. }
  assert (Hf : _frequency_to_days cal = Ok v1).
  { unfold _frequency_to_days in *. rewrite F3. exact Hv1. }
  rewrite Hd, Hf. simpl. rewrite F1, F2.
  cbn [init start_date term_in_months] in Hv.
  destruct (run_schedule_over _ _ _ _ _ _ _ _ cal Hv) as (t' & -> & G1 & G2 & G3 & G4 & M1 & M2 & M3);
    try reflexivity; try assumption.
  simpl. f_equal.
  rewrite (idemp_L (∪)) in M1. rewrite (idemp_L (∪)) in M2.
  rewrite (idemp_L (∪)) in M3.
  destruct t', cal; simpl in *. congruence.
Qed.

End calendar_runs.

Section calendar_theorems.
Import PaymentCalendar.

Lemma periods_months (term fd delta : Z) :
  1 <= delta -> fd = 30 * delta -> periods term fd = Z.max 0 (term / delta).
Proof.
  intros Hd ->. unfold periods. rewrite (Z.mul_comm 30 delta), (Z.mul_comm term 30).
  rewrite (Z.mul_comm delta 30). rewrite Z.div_mul_cancel_l by lia. reflexivity.
Qed.

Lemma generate_schedule_periods fuel start term freq holiday cal :
  generate_schedule fuel (init start term freq holiday) = Ok cal ->
  let n := Z.max 0 (term / months_per_period freq) in
  _frequency_to_days cal = Ok (30 * months_per_period freq) /\
  1 <= months_per_period freq <= 12 /\
  filled start term freq (30 * months_per_period freq) n cal.
Proof.
  intros H n. pose proof H as H'.
  apply generate_schedule_filled in H. destruct H as (fd & Hfd & F).
  unfold generate_schedule, run_schedule in H'. inv_bind H'. inv_bind Hv.
  destruct (frequency_delta_months _ _ Hv0) as (Hdelta & Hm & Hdays).
  cbn [init payment_frequency] in Hdelta. subst v0.
  assert (Hfd' : _frequency_to_days cal = Ok (30 * months_per_period freq)).
  { unfold _frequency_to_days in *. rewrite (filled_freq _ _ _ _ _ _ F).
    exact Hdays. }
  rewrite Hfd in Hfd'. injection Hfd' as ->.
  split; [exact Hfd|]. split; [exact Hm|].
  rewrite (periods_months term _ (months_per_period freq)) in F by lia. exact F.
Qed.

Lemma generate_schedule_size fuel start term freq holiday cal :
  generate_schedule fuel (init start term freq holiday) = Ok cal ->
  Z.of_nat (size (payment_dates cal)) = Z.max 0 (term / months_per_period freq).
Proof.
  intros H. apply generate_schedule_periods in H. destruct H as (_ & Hm & F).
  eapply filled_size; [lia | exact F].
Qed.

(** X2: a generated calendar holds [max 0 (term // months)] payments, where
    [months] is 1, 3 or 6 by frequency, and their numbers are exactly
    [1 .. term // months]: an incomplete period at the end of the term is
    dropped, and a term shorter than one period (or a negative one) gives a
    calendar without any payment. *)
Theorem X2_number_of_payments (fuel : nat) (start : date) (term : Z) (freq : string)
    (holiday : date -> bool) (cal : t) :
  generate_schedule fuel (init start term freq holiday) = Ok cal ->
  Z.of_nat (size (payment_dates cal)) = Z.max 0 (term / months_per_period freq) /\
  forall k, is_Some (payment_dates cal !! k)
            <-> 1 <= k <= term / months_per_period freq.
Proof.
  intros H. apply generate_schedule_periods in H. destruct H as (_ & Hm & F).
  split.
  - eapply filled_size; [lia | exact F].
  - intros k. rewrite <- elem_of_dom, (filled_dates _ _ _ _ _ _ F), in_range1. lia.
Qed.

Lemma X2_number_of_payments_witness :
  exists cal,
    generate_schedule 3 (init (Date 2024 1 10) 7 "3m" no_holidays) = Ok cal /\
    Z.of_nat (size (payment_dates cal)) = 2.
Proof.
  eassert (Hgen : generate_schedule 3 (init (Date 2024 1 10) 7 "3m" no_holidays)
                  = Ok _)
    by (vm_compute; reflexivity).
  eexists. split; [exact Hgen|].
  exact (proj1 (X2_number_of_payments _ _ _ _ _ _ Hgen)).
Defined.

(** X1: every payment date of a generated calendar is the first business day
    on or after the nominal date of its installment.  The nominal date of
    installment [k] is [k] periods after the start date, on the start's day
    of month or on the last day of a shorter month, whatever happened to the
    installments before; the payment date is a valid date, is no weekend day
    and no holiday, is not before the nominal date, and every date from the
    nominal date up to the day before it is a weekend day or a holiday. *)
Theorem X1_payment_date_first_business_day (fuel : nat) (start : date) (term : Z)
    (freq : string) (holiday : date -> bool) (cal : t) (k : Z) (d : date) :
  valid_date start ->
  generate_schedule fuel (init start term freq holiday) = Ok cal ->
  payment_dates cal !! k = Some d ->
  let nominal := nominal_date start (k * months_per_period freq) in
  valid_date d /\ business_day holiday d /\
  toordinal nominal <= toordinal d /\
  forall e, valid_date e -> toordinal nominal <= toordinal e < toordinal d ->
            ~ business_day holiday e.
Proof.
  intros Hs H Hk nominal.
  destruct (generate_schedule_anchored _ _ _ _ _ _ Hs H) as [_ Ha].
  destruct (Ha _ _ Hk) as [Hv Hn].
  exact (next_business_day_spec _ _ _ _ Hv Hn).
Qed.

Lemma X1_first_business_day_witness :
  business_day no_holidays (Date 2024 2 12) /\
  toordinal (nominal_date (Date 2024 1 10) (1 * months_per_period "1m"))
  <= toordinal (Date 2024 2 12).
Proof.
  eassert (Hgen : generate_schedule 3 (init (Date 2024 1 10) 2 "1m" no_holidays)
                  = Ok _)
    by (vm_compute; reflexivity).
  pose proof (X1_payment_date_first_business_day 3 (Date 2024 1 10) 2 "1m"
                no_holidays _ 1 (Date 2024 2 12)
                ltac:(unfold valid_date, MAXYEAR; cbn; lia) Hgen
                ltac:(vm_compute; reflexivity)) as H.
  cbv zeta in H. destruct H as (_ & Hb & Hle & _). split; assumption.
Defined.

(** X6: [generate_schedule] run again on a generated calendar, as
    [get_accrual_days], [get_total_accrual_days] and [to_dataframe] may do,
    writes the same entries over the three dictionaries: the object is
    unchanged, and [get_accrual_days] hands out the stored accrual days. *)
Theorem X6_generate_schedule_idempotent (fuel : nat) (start : date) (term : Z)
    (freq : string) (holiday : date -> bool) (cal : t) :
  generate_schedule fuel (init start term freq holiday) = Ok cal ->
  generate_schedule fuel cal = Ok cal /\
  get_accrual_days fuel cal = Ok (cal, accrual_days cal).
Proof.
  intros H. pose proof (generate_schedule_again _ _ _ _ _ _ H) as Hagain.
  split; [exact Hagain|]. unfold get_accrual_days.
  destruct (decide (accrual_days cal = ∅)); [rewrite Hagain|]; reflexivity.
Qed.

Lemma X6_generate_schedule_idempotent_witness :
  exists cal,
    generate_schedule 3 (init (Date 2024 1 10) 2 "1m" no_holidays) = Ok cal /\
    generate_schedule 3 cal = Ok cal /\
    get_accrual_days 3 cal = Ok (cal, accrual_days cal).
Proof.
  eassert (Hgen : generate_schedule 3 (init (Date 2024 1 10) 2 "1m" no_holidays)
                  = Ok _)
    by (vm_compute; reflexivity).
  eexists. split; [exact Hgen|].
  exact (X6_generate_schedule_idempotent _ _ _ _ _ _ Hgen).
Defined.

Lemma sum_days_insert (m : gmap Z Z) (k a : Z) :
  m !! k = None ->
  map_fold (fun _ days total => total + days) 0 (<[k := a]> m)
  = map_fold (fun _ days total => total + days) 0 m + a.
Proof.
  intros Hk. rewrite map_fold_insert_L; [reflexivity| |exact Hk].
  intros. lia.
Qed.

Lemma generate_schedule_total fuel start term freq holiday cal :
  generate_schedule fuel (init start term freq holiday) = Ok cal ->
  exists last,
    (if 0 <? Z.max 0 (term / months_per_period freq)
     then payment_dates cal !! Z.max 0 (term / months_per_period freq) = Some last
     else last = start) /\
    map_fold (fun _ days total => total + days) 0 (accrual_days cal)
    = days_between last start.
Proof.
  intros H. pose proof (generate_schedule_periods _ _ _ _ _ _ H) as (Hfd0 & Hm & _).
  cbv zeta in Hfd0.
  unfold generate_schedule, run_schedule in H. inv_bind H. inv_bind Hv.
  destruct (frequency_delta_months _ _ Hv0) as (Hdelta & _ & Hdays).
  cbn [init payment_frequency] in Hdelta. subst v0. 
  rewrite Hdays in Hv1. injection Hv1 as <-.
  cbn [init start_date term_in_months] in Hv.
  set (fd := 30 * months_per_period freq) in *.
  set (P := fun (i : Z) (st : loop_state) =>
              _frequency_to_days (fst st) = Ok fd /\
              filled start term freq fd i (fst st) /\
              exists last,
                (if 0 <? i then payment_dates (fst st) !! i = Some last
                 else last = start) /\
                map_fold (fun _ days total => total + days) 0 (accrual_days (fst st))
                = days_between last start).
  assert (HP : P (Z.max 0 (term * 30 / fd)) v).
  { eapply (for_each_range1 P); [| |exact Hv].
    - split; [exact Hdays|]. split.
      + split; simpl; try reflexivity;
          try (intros ? ?; rewrite lookup_empty; discriminate).
        all: rewrite dom_empty_L, seqZ_nil by lia; reflexivity.
      + exists start. split; [reflexivity|]. simpl. rewrite map_fold_empty.
        unfold days_between. lia.
    - intros i [s nb] [s' nb'] Hi (Hfd & F & last & Hlast & Hsum) Hstep.
      simpl in Hfd, F, Hlast, Hsum. split; [|split].
      + simpl. erewrite schedule_step_days by exact Hstep. exact Hfd.
      + eapply schedule_step_filled; [lia | exact F | exact Hfd | exact Hstep].
      + unfold schedule_step in Hstep. inv_bind Hstep. subst s' nb'.
        rename v1 into scheduled, v2 into accrual_start, Hv3 into Hprev0.
        exists scheduled. cbn [fst payment_dates accrual_days].
        destruct (Z.ltb_spec 0 (i + 1)) as [_|]; [|lia].
        split; [apply lookup_insert_eq|].
        assert (Hprev : accrual_start = last).
        { destruct (Z.ltb_spec 1 (i + 1)) as [Hi1|Hi1].
          - destruct (Z.ltb_spec 0 i) as [_|]; [|lia].
            apply of_option_Ok in Hprev0.
            replace (i + 1 - 1) with i in Hprev0 by lia. congruence.
          - destruct (Z.ltb_spec 0 i) as [|_]; [lia|].
            injection Hprev0 as <-. rewrite Hlast.
            apply (filled_start _ _ _ _ _ _ F). }
        subst accrual_start. rewrite sum_days_insert.
        * rewrite Hsum. unfold days_between. lia.
        * apply not_elem_of_dom. rewrite (filled_accrual _ _ _ _ _ _ F), in_range1. lia. }
  destruct HP as (_ & _ & last & Hlast & Hsum).
  subst cal. exists last. split; [|exact Hsum].
  assert (Hn : term * 30 / fd = term / months_per_period freq).
  { unfold fd. rewrite (Z.mul_comm term 30). apply Z.div_mul_cancel_l; lia. }
  rewrite <- Hn. destruct (Z.ltb_spec 0 (term * 30 / fd)) as [Hpos|Hneg].
  - destruct (Z.ltb_spec 0 (Z.max 0 (term * 30 / fd))); [exact Hlast | lia].
  - destruct (Z.ltb_spec 0 (Z.max 0 (term * 30 / fd))); [lia | exact Hlast].
Qed.

(** X5: [get_total_accrual_days] of a generated calendar leaves the object as
    it is and returns the number of days from the start date to the last
    payment date (the accrual periods follow one another without a gap or an
    overlap); it returns 0 when the calendar has no payment. *)
Theorem X5_total_accrual_days_telescope (fuel : nat) (start : date) (term : Z)
    (freq : string) (holiday : date -> bool) (cal : t) :
  generate_schedule fuel (init start term freq holiday) = Ok cal ->
  exists total,
    get_total_accrual_days fuel cal = Ok (cal, total) /\
    match payment_dates cal !! Z.of_nat (size (payment_dates cal)) with
    | Some last => total = days_between last start
    | None => total = 0 /\ payment_dates cal = ∅
    end.
Proof.
  intros H. pose proof (generate_schedule_again _ _ _ _ _ _ H) as Hagain.
  destruct (generate_schedule_total _ _ _ _ _ _ H) as (last & Hlast & Hsum).
  destruct (generate_schedule_periods _ _ _ _ _ _ H) as (_ & Hm & F).
  cbv zeta in F.
  assert (Hsize : Z.of_nat (size (payment_dates cal))
                  = Z.max 0 (term / months_per_period freq))
    by (eapply filled_size; [lia | exact F]).
  rewrite Hsize.
  exists (days_between last start). split.
  - unfold get_total_accrual_days.
    destruct (decide (accrual_days cal = ∅)); [rewrite Hagain; simpl|];
      rewrite Hsum; reflexivity.
  - destruct (Z.ltb_spec 0 (Z.max 0 (term / months_per_period freq))) as [Hpos|Hzero].
    + rewrite Hlast. reflexivity.
    + subst last.
      assert (Hdom : dom (payment_dates cal) = ∅).
      { rewrite (filled_dates _ _ _ _ _ _ F), seqZ_nil by lia. reflexivity. }
      apply dom_empty_inv_L in Hdom. rewrite Hdom, lookup_empty.
      unfold days_between. split; [lia | reflexivity].
Qed.

Lemma X5_total_accrual_days_witness :
  exists cal total,
    generate_schedule 3 (init (Date 2024 1 10) 2 "1m" no_holidays) = Ok cal /\
    get_total_accrual_days 3 cal = Ok (cal, total) /\ total = 61.
Proof.
  eassert (Hgen : generate_schedule 3 (init (Date 2024 1 10) 2 "1m" no_holidays)
                  = Ok _)
    by (vm_compute; reflexivity).
  destruct (X5_total_accrual_days_telescope _ _ _ _ _ _ Hgen)
    as (total & Hget & Hlast).
  eexists. exists total. split; [exact Hgen|]. split; [exact Hget|].
  vm_compute in Hlast. exact Hlast.
Defined.

End calendar_theorems.

Section calendar_total.
Import PaymentCalendar.

Lemma month_index_nominal (start : date) (j : Z) :
  month_index (nominal_date start j) = month_index start + j.
Proof.
  unfold nominal_date, month_index. cbn [year month]. Z.div_mod_to_equations. lia.
Qed.

Lemma supported_months (self : t) :
  supported (payment_frequency self) ->
  frequency_delta self = Ok (months_per_period (payment_frequency self)).
Proof.
  unfold supported, frequency_delta, months_per_period.
  intros [-> | [-> | ->]]; reflexivity.
Qed.

Lemma schedule_step_weekends fuel start term freq months fd i s nb :
  valid_date start -> (3 <= fuel)%nat -> 1 <= months <= 12 -> 0 <= i ->
  month_index start + (i + 1) * months < month_index (Date MAXYEAR 12 1) ->
  _frequency_to_days s = Ok fd ->
  filled start term freq fd i s ->
  anchored fuel start months no_holidays i (s, nb) ->
  exists st', schedule_step fuel months (day start) (s, nb) (i + 1) = Ok st'.
Proof.
  intros Hs Hfuel Hm Hi Hbound Hfd F (Hh & Hnb & Hidx & _).
  cbn [fst snd] in Hh, Hnb, Hidx.
  change (month_index (Date MAXYEAR 12 1)) with (9999 * 12 + 11) in Hbound.
  destruct (add_months_Ok nb months Hnb Hm) as (nb' & Hadd).
  { rewrite Hidx. unfold MAXYEAR. lia. }
  assert (Hanchor : exists a, nominal_anchor nb months (day start) = Ok a).
  { unfold nominal_anchor. rewrite Hadd. simpl. eauto. }
  destruct Hanchor as (a & Ha).
  destruct (nominal_anchor_spec start nb a (i * months) months Hs Hnb Hm Hidx Ha)
    as [Heq Hva].
  unfold schedule_step. rewrite Ha. simpl. rewrite Hh.
  pose proof (next_business_day_weekend fuel a Hva Hfuel) as Hnbd.
  destruct (next_business_day fuel no_holidays a) as [d|e].
  2:{ exfalso. destruct Hnbd as (_ & Hy & Hmo & _).
      pose proof (month_index_nominal start (i * months + months)) as Hmi.
      rewrite <- Heq in Hmi. unfold month_index at 1 in Hmi.
      rewrite Hy, Hmo in Hmi. unfold MAXYEAR in Hmi. lia. }
  simpl.
  assert (Hprev : exists p, (if 1 <? i + 1
                             then of_option (payment_dates s !! (i + 1 - 1)) KeyError
                             else Ok (start_date s)) = Ok p).
  { destruct (Z.ltb_spec 1 (i + 1)); [|eauto].
    destruct (filled_lookup _ _ _ _ _ _ i F ltac:(lia)) as (p & _ & Hp & _).
    replace (i + 1 - 1) with i by lia. rewrite Hp. simpl. eauto. }
  destruct Hprev as (p & ->). simpl. rewrite Hfd. simpl. rewrite Hadd. simpl. eauto.
Qed.

Lemma generate_schedule_weekends_Ok fuel start term freq :
  valid_date start -> supported freq -> (3 <= fuel)%nat ->
  month_index start + term < month_index (Date MAXYEAR 12 1) ->
  exists cal, generate_schedule fuel (init start term freq no_holidays) = Ok cal.
Proof.
  intros Hs Hsup Hfuel Hbound.
  pose proof (supported_months (init start term freq no_holidays) Hsup) as Hdelta.
  cbn [init payment_frequency] in Hdelta.
  destruct (frequency_delta_months _ _ Hdelta) as (_ & Hm & Hdays).
  set (months := months_per_period freq) in *. set (fd := 30 * months) in *.
  unfold generate_schedule, run_schedule. rewrite Hdelta, Hdays. simpl.
  set (P := fun (i : Z) (st : loop_state) =>
              _frequency_to_days (fst st) = Ok fd /\
              start_date (fst st) = start /\
              filled start term freq fd i (fst st) /\
              anchored fuel start months no_holidays i st).
  assert (Hn : term * 30 / fd = term / months).
  { unfold fd. rewrite (Z.mul_comm term 30). apply Z.div_mul_cancel_l; lia. }
  destruct (for_each_range1_Ok P (schedule_step fuel months (day start))
              (term * 30 / fd) (init start term freq no_holidays, start))
    as (st & -> & _).
  - split; [exact Hdays|]. split; [reflexivity|]. split.
    + split; simpl; try reflexivity;
        try (intros ? ?; rewrite lookup_empty; discriminate).
      all: rewrite dom_empty_L, seqZ_nil by lia; reflexivity.
    + split; [reflexivity|]. split; [exact Hs|]. split; [simpl; lia|].
      intros k d. simpl. rewrite lookup_empty. discriminate.
  - intros i [s nb] Hi (Hfd & Hst & F & Ha). cbn [fst] in Hfd, Hst, F.
    assert (Hlim : (i + 1) * months <= term).
    { pose proof (Z.mul_div_le term months ltac:(lia)). rewrite Hn in Hi. nia. }
    destruct (schedule_step_weekends fuel start term freq months fd i s nb)
      as ([s' nb'] & Hstep); try assumption; try lia.
    exists (s', nb'). split; [exact Hstep|]. split; [|split; [|split]].
    + cbn [fst]. erewrite schedule_step_days by exact Hstep. exact Hfd.
    + apply schedule_step_fields in Hstep. cbn [fst]. destruct Hstep as (-> & _). exact Hst.
    + eapply schedule_step_filled; [lia | exact F | exact Hfd | exact Hstep].
    + eapply schedule_step_anchored; try eassumption; lia.
  - simpl. eauto.
Qed.

(** X3: with no holiday beside the weekends, a supported frequency, a valid
    start date, a term that ends before December 9999 and three rounds of the
    business-day search, [generate_schedule] returns a calendar, and every
    payment date in it is its nominal date moved by two days from a Saturday,
    by one day from a Sunday and not at all from another day. *)
Theorem X3_generate_schedule_weekends_only (fuel : nat) (start : date) (term : Z)
    (freq : string) :
  valid_date start -> supported freq -> (3 <= fuel)%nat ->
  month_index start + term < month_index (Date MAXYEAR 12 1) ->
  exists cal,
    generate_schedule fuel (init start term freq no_holidays) = Ok cal /\
    forall k d, payment_dates cal !! k = Some d ->
      let nominal := nominal_date start (k * months_per_period freq) in
      days_between d nominal
      = if weekday nominal =? 5 then 2 else if weekday nominal =? 6 then 1 else 0.
Proof.
  intros Hs Hsup Hfuel Hbound.
  destruct (generate_schedule_weekends_Ok fuel start term freq Hs Hsup Hfuel Hbound)
    as (cal & Hgen).
  exists cal. split; [exact Hgen|]. intros k d Hk nominal.
  destruct (generate_schedule_anchored _ _ _ _ _ _ Hs Hgen) as [_ Ha].
  destruct (Ha _ _ Hk) as [Hv Hn]. fold nominal in Hv, Hn.
  pose proof (next_business_day_weekend fuel nominal Hv Hfuel) as Hw.
  rewrite Hn in Hw. exact Hw.
Qed.

Lemma X3_generate_schedule_weekends_only_witness :
  exists cal,
    generate_schedule 3 (init (Date 2024 1 10) 2 "1m" no_holidays) = Ok cal /\
    forall k d, payment_dates cal !! k = Some d ->
      let nominal := nominal_date (Date 2024 1 10) (k * months_per_period "1m") in
      days_between d nominal
      = if weekday nominal =? 5 then 2 else if weekday nominal =? 6 then 1 else 0.
Proof.
  apply X3_generate_schedule_weekends_only.
  - unfold valid_date, MAXYEAR. cbn. lia.
  - left. reflexivity.
  - lia.
  - vm_compute. reflexivity.
Defined.

End calendar_total.

(** ** The length of an accrual period *)

Lemma nominal_date_0 (start : date) : valid_date start -> nominal_date start 0 = start.
Proof.
  intros (Hy & Hm & Hd). unfold nominal_date. cbv zeta. rewrite Z.add_0_r.
  destruct (month_index_split (year start) (month start) (month_index start) Hm eq_refl)
    as [-> ->].
  rewrite Z.min_l by lia. destruct start; reflexivity.
Qed.

Lemma toordinal_next_month (y m d d' : Z) :
  1 <= m <= 12 ->
  toordinal (Date (if m =? 12 then y + 1 else y) (if m =? 12 then 1 else m + 1) d')
  - toordinal (Date y m d)
  = days_in_month y m + d' - d.
Proof.
  intros Hm. unfold toordinal. cbn [year month day].
  destruct (Z.eqb_spec m 12) as [->|Hne].
  - rewrite days_before_year_succ, days_before_month_1.
    pose proof (days_before_month_succ y 12 ltac:(lia)) as Hs.
    change (12 + 1) with 13 in Hs. rewrite days_before_month_13 in Hs. lia.
  - rewrite days_before_month_succ by lia. lia.
Qed.

Lemma nominal_date_step (start : date) (j : Z) :
  valid_date start ->
  28 <= toordinal (nominal_date start (j + 1)) - toordinal (nominal_date start j) <= 31.
Proof.
  intros (Hy & Hm & Hd).
  pose proof (days_in_month_bounds (year start) (month start)) as HD.
  unfold nominal_date. cbv zeta.
  set (idx := month_index start + j).
  replace (month_index start + (j + 1)) with (idx + 1) by (unfold idx; lia).
  set (y := idx / 12). set (m := idx mod 12 + 1).
  assert (Hmr : 1 <= m <= 12) by (unfold m; Z.div_mod_to_equations; lia).
  assert (Hnext : (idx + 1) / 12 = (if m =? 12 then y + 1 else y) /\
                  (idx + 1) mod 12 + 1 = (if m =? 12 then 1 else m + 1)).
  { unfold y, m. destruct (Z.eqb_spec (idx mod 12 + 1) 12);
      Z.div_mod_to_equations; lia. }
  destruct Hnext as [-> ->].
  rewrite toordinal_next_month by exact Hmr.
  pose proof (days_in_month_bounds y m).
  pose proof (days_in_month_bounds (if m =? 12 then y + 1 else y)
                (if m =? 12 then 1 else m + 1)).
  lia.
Qed.

Lemma nominal_date_gap (start : date) (j n : Z) :
  valid_date start -> 0 <= n ->
  28 * n <= toordinal (nominal_date start (j + n)) - toordinal (nominal_date start j)
         <= 31 * n.
Proof.
  intros Hs Hn. revert n Hn. apply natlike_ind.
  - rewrite Z.add_0_r. lia.
  - intros n Hn IH. replace (j + Z.succ n) with (j + n + 1) by lia.
    pose proof (nominal_date_step start (j + n) Hs). lia.
Qed.

Section accrual_bounds.
Import PaymentCalendar.

Lemma weekend_deferral (fuel : nat) (d d' : date) :
  valid_date d -> next_business_day fuel no_holidays d = Ok d' ->
  0 <= toordinal d' - toordinal d <= 2.
Proof.
  intros Hv H.
  apply (next_business_day_fuel fuel (Nat.max fuel 3)) in H; [|lia].
  pose proof (next_business_day_weekend (Nat.max fuel 3) d Hv ltac:(lia)) as Hw.
  rewrite H in Hw. rewrite Hw. repeat case_match; lia.
Qed.

(** X4: with no holiday beside the weekends, every accrual period of a
    generated calendar has between [28 * months - 2] and [31 * months + 2]
    days, [months] being 1, 3 or 6 by frequency; so the accrual days are
    positive and the payment dates strictly increase. *)
Theorem X4_accrual_days_weekends_only (fuel : nat) (start : date) (term : Z)
    (freq : string) (cal : t) (k a : Z) :
  valid_date start ->
  generate_schedule fuel (init start term freq no_holidays) = Ok cal ->
  accrual_days cal !! k = Some a ->
  28 * months_per_period freq - 2 <= a <= 31 * months_per_period freq + 2.
Proof.
  intros Hs Hgen Ha.
  destruct (generate_schedule_periods _ _ _ _ _ _ Hgen) as (_ & Hm & F).
  cbv zeta in F.
  destruct (generate_schedule_anchored _ _ _ _ _ _ Hs Hgen) as [_ Hanch].
  destruct (filled_elapsed _ _ _ _ _ _ F _ _ Ha) as (d & prev & Hd & Hprev & ->).
  destruct (Hanch _ _ Hd) as [Hv Hn].
  pose proof (weekend_deferral _ _ _ Hv Hn) as Hdef.
  set (m := months_per_period freq) in *.
  pose proof (nominal_date_gap start ((k - 1) * m) m Hs ltac:(lia)) as Hgap.
  replace ((k - 1) * m + m) with (k * m) in Hgap by lia.
  unfold days_between.
  destruct (Z.ltb_spec 1 k) as [Hk|Hk].
  - destruct (Hanch _ _ Hprev) as [Hv' Hn'].
    pose proof (weekend_deferral _ _ _ Hv' Hn') as Hdef'. lia.
  - subst prev.
    assert (Hk1 : k = 1).
    { assert (Hr : 1 <= k <= Z.max 0 (term / m)).
      { apply in_range1. rewrite <- (filled_dates _ _ _ _ _ _ F).
        apply elem_of_dom. eauto. }
      lia. }
    subst k. replace ((1 - 1) * m) with 0 in Hgap by lia.
    rewrite (nominal_date_0 start Hs) in Hgap. lia.
Qed.

Lemma X4_accrual_days_witness :
  28 * months_per_period "1m" - 2 <= 33 <= 31 * months_per_period "1m" + 2.
Proof.
  eassert (Hgen : generate_schedule 3 (init (Date 2024 1 10) 2 "1m" no_holidays)
                  = Ok _)
    by (vm_compute; reflexivity).
  exact (X4_accrual_days_weekends_only 3 (Date 2024 1 10) 2 "1m" _ 1 33
           ltac:(unfold valid_date, MAXYEAR; cbn; lia) Hgen
           ltac:(vm_compute; reflexivity)).
Defined.

End accrual_bounds.

(** ** The dates of an accrual period *)

Lemma next_day_last (d : date) (e : exn) :
  valid_date d -> next_day d = Err e -> d = Date MAXYEAR 12 31.
Proof.
  intros (Hy & Hm & Hd) H. unfold next_day in H.
  destruct (Z.ltb_spec (day d) (days_in_month (year d) (month d))); [discriminate|].
  destruct (Z.ltb_spec (month d) 12); [discriminate|].
  destruct (Z.ltb_spec (year d) MAXYEAR); [discriminate|].
  assert (month d = 12) as Hm12 by lia. rewrite Hm12 in *.
  change (days_in_month (year d) 12) with 31 in *.
  destruct d as [y m dd]; simpl in *. f_equal; lia.
Qed.

Lemma toordinal_max (d : date) :
  valid_date d -> toordinal d <= toordinal (Date MAXYEAR 12 31).
Proof.
  intros Hv. pose proof (toordinal_year_bounds d Hv) as [_ Hu].
  destruct Hv as (Hy & _).
  pose proof (days_before_year_mono (year d + 1) (MAXYEAR + 1) ltac:(lia)) as Hmono.
  assert (Hlast : toordinal (Date MAXYEAR 12 31) = days_before_year (MAXYEAR + 1))
    by (vm_compute; reflexivity).
  lia.
Qed.

Section accrual_ranges.
Import PaymentCalendar.

Lemma add_days_spec (d x : date) (n : nat) :
  valid_date d -> add_days d n = Ok x ->
  valid_date x /\ toordinal x = toordinal d + Z.of_nat n.
Proof.
  intros Hv. revert x. induction n as [|n IH]; intros x; cbn [add_days].
  - intros [= <-]. split; [exact Hv | lia].
  - intros H. apply bind_Ok in H. destruct H as (y & Hy & Hn).
    destruct (IH _ Hy) as [Hvy Hoy].
    destruct (next_day_spec _ _ Hvy Hn) as [Hvx Hox]. split; [exact Hvx | lia].
Qed.

Lemma add_days_Ok (d top : date) (n : nat) :
  valid_date d -> valid_date top -> toordinal d + Z.of_nat n <= toordinal top ->
  exists x, add_days d n = Ok x.
Proof.
  intros Hv Ht. induction n as [|n IH]; intros Hle; cbn [add_days]; [eauto|].
  destruct (IH ltac:(lia)) as (y & Hy). rewrite Hy. simpl.
  destruct (add_days_spec _ _ _ Hv Hy) as [Hvy Hoy].
  destruct (next_day y) as [x|e] eqn:Hn; [eauto|].
  apply next_day_last in Hn; [|exact Hvy]. subst y.
  pose proof (toordinal_max top Ht). lia.
Qed.

Lemma accrual_date_range_nat (start top : date) (n : nat) :
  valid_date start -> valid_date top ->
  toordinal start + Z.of_nat n <= toordinal top ->
  exists dates,
    accrual_date_range start (Z.of_nat n) = Ok dates /\
    length dates = n /\
    forall (j : nat) (x : date), dates !! j = Some x ->
      valid_date x /\ toordinal x = toordinal start + Z.of_nat j.
Proof.
  intros Hv Ht. unfold accrual_date_range. induction n as [|n IH]; intros Hle.
  - exists []. simpl. split; [reflexivity|]. split; [reflexivity|].
    intros j x. rewrite lookup_nil. discriminate.
  - destruct (IH ltac:(lia)) as (dates & Hrun & Hlen & Hdates).
    destruct (add_days_Ok start top n Hv Ht ltac:(lia)) as (x & Hx).
    exists (dates ++ [x]).
    rewrite Nat2Z.inj_succ, <- Z.add_1_r, seqZ_app by lia.
    rewrite for_each_app, Hrun. cbn [mbind result_bind].
    rewrite (seqZ_cons (0 + Z.of_nat n)) by lia.
    rewrite seqZ_nil by lia. cbn [for_each].
    replace (Z.to_nat (0 + Z.of_nat n)) with n by lia. rewrite Hx. simpl.
    split; [reflexivity|]. split; [rewrite length_app; simpl; lia|].
    intros j y Hj. apply lookup_app_Some in Hj. destruct Hj as [Hj|[Hge Hj]].
    + apply Hdates, Hj.
    + destruct (j - length dates)%nat as [|m] eqn:Hm; simpl in Hj;
        [|rewrite lookup_nil in Hj; discriminate].
      injection Hj as <-. replace j with n by lia.
      apply (add_days_spec _ _ _ Hv Hx).
Qed.

(** The dates of a period: as many as the accrual days say (none when that
    number is not positive), one per day from the accrual start on. *)
Lemma accrual_date_range_spec (start scheduled : date) :
  valid_date start -> valid_date scheduled ->
  exists dates,
    accrual_date_range start (days_between scheduled start) = Ok dates /\
    length dates = Z.to_nat (days_between scheduled start) /\
    forall (j : nat) (x : date), dates !! j = Some x ->
      valid_date x /\ days_between x start = Z.of_nat j.
Proof.
  intros Hv Hs. unfold days_between.
  destruct (Z_le_gt_dec (toordinal scheduled - toordinal start) 0) as [Hn|Hp].
  - exists []. unfold accrual_date_range. rewrite seqZ_nil by lia.
    split; [reflexivity|]. split; [simpl; lia|].
    intros j x. rewrite lookup_nil. discriminate.
  - destruct (accrual_date_range_nat start scheduled
                (Z.to_nat (toordinal scheduled - toordinal start)) Hv Hs ltac:(lia))
      as (dates & Hrun & Hlen & Hdates).
    rewrite Z2Nat.id in Hrun by lia. exists dates.
    split; [exact Hrun|]. split; [exact Hlen|].
    intros j x Hj. destruct (Hdates j x Hj) as [Hvx Hox]. split; [exact Hvx | lia].
Qed.

Lemma schedule_step_ranges_sim fuel start delta s nb s' nb' ranges i :
  valid_date start -> 1 <= delta <= 12 ->
  start_date s = start -> valid_date nb ->
  (forall k d, payment_dates s !! k = Some d -> valid_date d) ->
  ranges_cover s ranges ->
  schedule_step fuel delta (day start) (s, nb) i = Ok (s', nb') ->
  exists ranges',
    schedule_step_ranges fuel delta (day start) ((s, ranges), nb) i
    = Ok ((s', ranges'), nb') /\
    start_date s' = start /\ valid_date nb' /\
    (forall k d, payment_dates s' !! k = Some d -> valid_date d) /\
    ranges_cover s' ranges'.
Proof.
  intros Hs Hm Hst Hnb Hvalid [Hdom Hcov] H.
  unfold schedule_step in H. inv_bind H. subst s' nb'.
  rename v into anchor, v0 into scheduled, v1 into accrual_start, v2 into fixed_days,
    v3 into nominal'.
  destruct (nominal_anchor_spec start nb anchor (month_index nb - month_index start)
              delta Hs Hnb Hm ltac:(lia) Hv) as [_ Hva].
  destruct (next_business_day_spec _ _ _ _ Hva Hv0) as (Hvs & _).
  destruct (add_months_spec _ _ _ Hnb Hm Hv3) as (Hnb' & _).
  assert (Hvp : valid_date accrual_start).
  { destruct (1 <? i).
    - apply of_option_Ok in Hv1. eapply Hvalid, Hv1.
    - injection Hv1 as <-. rewrite Hst. exact Hs. }
  destruct (accrual_date_range_spec accrual_start scheduled Hvp Hvs)
    as (dates & Hrange & Hlen & Hdates).
  exists (<[i := dates]> ranges).
  unfold schedule_step_ranges. rewrite Hv. simpl. rewrite Hv0. simpl.
  rewrite Hv1. simpl. rewrite Hrange. simpl. rewrite Hv2. simpl. rewrite Hv3. simpl.
  split; [reflexivity|]. split; [exact Hst|]. split; [exact Hnb'|]. split.
  - intros k d. rewrite lookup_insert. case_decide; [intros [= <-]; exact Hvs|].
    apply Hvalid.
  - unfold ranges_cover. cbn [payment_dates accrual_days].
    split; [rewrite !dom_insert_L, Hdom; reflexivity|].
    intros k l. rewrite lookup_insert. case_decide as Hk.
    + subst k. intros [= <-]. exists scheduled, (days_between scheduled accrual_start).
      rewrite !lookup_insert_eq. split; [reflexivity|]. split; [reflexivity|].
      split; [exact Hlen|]. intros j x Hj. destruct (Hdates j x Hj) as [Hvx Hox].
      split; [exact Hvx|]. unfold days_between in *. lia.
    + intros Hl. destruct (Hcov k l Hl) as (d & a & Hd & Ha & Hlen' & Hx).
      exists d, a. rewrite !lookup_insert_ne by congruence. auto.
Qed.

Lemma generate_schedule_ranges_Ok fuel start term freq holiday cal :
  valid_date start ->
  generate_schedule fuel (init start term freq holiday) = Ok cal ->
  exists ranges,
    generate_schedule_ranges fuel (init start term freq holiday, ∅) = Ok (cal, ranges) /\
    ranges_cover cal ranges.
Proof.
  intros Hs H. unfold generate_schedule, run_schedule in H. inv_bind H. inv_bind Hv.
  destruct (frequency_delta_months _ _ Hv0) as (_ & Hm & _).
  destruct v as [s' nb']. simpl in H. subst s'.
  cbn [init start_date term_in_months] in Hv.
  unfold generate_schedule_ranges. cbn [fst init start_date term_in_months].
  change (frequency_delta (Build start term freq holiday ∅ ∅ ∅))
    with (frequency_delta (init start term freq holiday)).
  change (_frequency_to_days (Build start term freq holiday ∅ ∅ ∅))
    with (_frequency_to_days (init start term freq holiday)).
  rewrite Hv0, Hv1. cbn [mbind result_bind].
  set (R := fun (a : loop_state) (b : with_ranges * date) =>
              fst (fst b) = fst a /\ snd b = snd a /\
              start_date (fst a) = start /\ valid_date (snd a) /\
              (forall k d, payment_dates (fst a) !! k = Some d -> valid_date d) /\
              ranges_cover (fst a) (snd (fst b))).
  destruct (for_each_sim R (schedule_step fuel v0 (day start))
              (schedule_step_ranges fuel v0 (day start))
              (range1 (term * 30 / v1)))
    with (s := (init start term freq holiday, start))
         (t := ((init start term freq holiday, (∅ : gmap Z (list date))), start))
         (s' := (cal, nb'))
    as ([[t' ranges] nb2] & Hrun & HR).
  - intros [a na] [[b rb] nb0] x [a' na'] (E1 & E2 & Hst & Hnb & Hval & Hcov) Hstep.
    simpl in E1, E2, Hst, Hnb, Hval, Hcov. subst b nb0.
    destruct (schedule_step_ranges_sim _ _ _ _ _ _ _ _ _ Hs Hm Hst Hnb Hval Hcov Hstep)
      as (rb' & Hstep' & Hst' & Hnb'' & Hval' & Hcov').
    exists ((a', rb'), na'). split; [exact Hstep'|]. unfold R. simpl. auto 10.
  - unfold R, ranges_cover. simpl.
    split; [reflexivity|]. split; [reflexivity|]. split; [reflexivity|].
    split; [exact Hs|]. split; [|split].
    + intros k d. rewrite lookup_empty. discriminate.
    + rewrite !dom_empty_L. reflexivity.
    + intros k dates. rewrite lookup_empty. discriminate.
  - exact Hv.
  - destruct HR as (E1 & E2 & _ & _ & _ & Hcov). simpl in E1, E2, Hcov. subst t' nb2.
    exists ranges. split; [|exact Hcov].
    apply bind_Ok. exists (cal, ranges, nb'). split; [exact Hrun | reflexivity].
Qed.

(** X7: a generated calendar can always store its [accrual_date_ranges], and
    [get_accrual_date_ranges] hands that dictionary out without touching the
    object.  The entry of installment [k] lists as many dates as
    [accrual_days[k]] says (none when that number is not positive); its
    [j]-th date, counted from 0, is [j] days after the accrual start, which is
    the previous payment date, or the start date for installment 1.  The list
    therefore starts on the accrual start and ends the day before the payment
    date. *)
Theorem X7_accrual_date_ranges_cover_the_periods (fuel : nat) (start : date)
    (term : Z) (freq : string) (holiday : date -> bool) (cal : t) :
  valid_date start ->
  generate_schedule fuel (init start term freq holiday) = Ok cal ->
  exists ranges,
    generate_schedule_ranges fuel (init start term freq holiday, ∅) = Ok (cal, ranges) /\
    get_accrual_date_ranges fuel (cal, ranges) = Ok ((cal, ranges), ranges) /\
    forall k a, accrual_days cal !! k = Some a ->
      exists prev dates,
        (if 1 <? k then payment_dates cal !! (k - 1) = Some prev else prev = start) /\
        ranges !! k = Some dates /\
        length dates = Z.to_nat a /\
        forall (j : nat) (x : date), dates !! j = Some x ->
          valid_date x /\ days_between x prev = Z.of_nat j.
Proof.
  intros Hs Hgen.
  destruct (generate_schedule_ranges_Ok _ _ _ _ _ _ Hs Hgen) as (ranges & Hrun & Hdom & Hcov).
  destruct (generate_schedule_periods _ _ _ _ _ _ Hgen) as (Hfd & Hm & F).
  cbv zeta in F.
  exists ranges. split; [exact Hrun|]. split.
  - unfold get_accrual_date_ranges. cbn [snd].
    destruct (decide (ranges = ∅)) as [->|_]; [|reflexivity].
    rewrite dom_empty_L, (filled_dates _ _ _ _ _ _ F) in Hdom.
    assert (Hnone : term / months_per_period freq <= 0).
    { destruct (Z_le_gt_dec (term / months_per_period freq) 0); [assumption|].
      exfalso. assert (H1 : 1 ∈ (∅ : gset Z)).
      { rewrite Hdom. apply in_range1. lia. }
      set_solver. }
    unfold generate_schedule_ranges. cbn [fst].
    assert (Hdelta : exists delta, frequency_delta cal = Ok delta).
    { pose proof (generate_schedule_fields _ _ _ Hgen) as (_ & _ & Hfr & _).
      unfold generate_schedule, run_schedule in Hgen.
      destruct (frequency_delta (init start term freq holiday)) as [delta|] eqn:Hd;
        [|discriminate].
      exists delta. unfold frequency_delta in *. rewrite Hfr. exact Hd. }
    destruct Hdelta as (delta & ->). rewrite Hfd. cbn [mbind result_bind].
    rewrite (filled_term _ _ _ _ _ _ F).
    rewrite (Z.mul_comm term 30), Z.div_mul_cancel_l by lia.
    rewrite range1_neg by exact Hnone. reflexivity.
  - intros k a Ha.
    destruct (filled_elapsed _ _ _ _ _ _ F _ _ Ha) as (d & prev & Hd & Hprev & ->).
    assert (Hin : is_Some (ranges !! k)).
    { apply elem_of_dom. rewrite Hdom. apply elem_of_dom. eauto. }
    destruct Hin as (dates & Hdates).
    destruct (Hcov _ _ Hdates) as (d' & a' & Hd' & Ha' & Hlen & Hx).
    rewrite Hd in Hd'. injection Hd' as <-. rewrite Ha in Ha'. injection Ha' as <-.
    exists prev, dates. split; [exact Hprev|]. split; [exact Hdates|].
    split; [exact Hlen|]. intros j x Hj. destruct (Hx j x Hj) as [Hvx Hox].
    split; [exact Hvx|]. unfold days_between in *. lia.
Qed.

Lemma X7_accrual_date_ranges_witness :
  exists cal ranges dates,
    generate_schedule_ranges 3 (init (Date 2024 1 10) 2 "1m" no_holidays, ∅)
    = Ok (cal, ranges) /\
    ranges !! 1 = Some dates /\ length dates = 33%nat.
Proof.
  eassert (Hgen : generate_schedule 3 (init (Date 2024 1 10) 2 "1m" no_holidays)
                  = Ok _)
    by (vm_compute; reflexivity).
  destruct (X7_accrual_date_ranges_cover_the_periods 3 (Date 2024 1 10) 2 "1m"
              no_holidays _ ltac:(unfold valid_date, MAXYEAR; cbn; lia) Hgen)
    as (ranges & Hrun & _ & Hcov).
  destruct (Hcov 1 33 ltac:(vm_compute; reflexivity))
    as (prev & dates & _ & Hr & Hlen & _).
  eexists. exists ranges, dates. split; [exact Hrun|]. split; [exact Hr | exact Hlen].
Defined.

End accrual_ranges.

(** ** Constructors *)

Lemma ddiv_Ok (a b : Decimal) : coeff b <> 0 -> exists f, ddiv a b = Ok f.
Proof.
  intros Hb. unfold ddiv. destruct (Z.eqb_spec (coeff b) 0); [contradiction|].
  destruct (coeff a =? 0); [eauto|]. cbv zeta.
  destruct (_ mod _ =? 0); [destruct (strip_zeros _ _ _)|]; eauto.
Qed.

Lemma get_accrual_days_generated fuel start term freq holiday cal :
  PaymentCalendar.generate_schedule fuel (PaymentCalendar.init start term freq holiday)
  = Ok cal ->
  PaymentCalendar.get_accrual_days fuel cal = Ok (cal, PaymentCalendar.accrual_days cal).
Proof.
  intros H. unfold PaymentCalendar.get_accrual_days.
  destruct (decide (PaymentCalendar.accrual_days cal = ∅)); [|reflexivity].
  rewrite (generate_schedule_again _ _ _ _ _ _ H). reflexivity.
Qed.

Lemma annuity_no_period (P r b : Decimal) (days : Z) :
  exists e,
    EqualInstallmentLoan.annuity P r b days 0 = Err e /\
    (e = InvalidOperation \/ e = DivisionByZero).
Proof.
  destruct (ddiv_Ok (of_int days) (Dec 30 0)) as (pm & Hpm);
    [cbn [coeff]; discriminate|].
  assert (Hpow : forall x, dpow x (of_int 0)
            = if coeff x =? 0 then Err InvalidOperation else Ok (Dec 1 0))
    by reflexivity.
  assert (Hone : dsub (Dec 1 0) (Dec 10 (-1)) = Dec 0 (-1))
    by (vm_compute; reflexivity).
  set (rate := dmul r pm).
  set (rate' := dadd rate (dmul rate b)).
  destruct (coeff (dadd (Dec 10 (-1)) rate') =? 0) eqn:Hbase.
  - exists InvalidOperation. split; [|auto].
    unfold EqualInstallmentLoan.annuity.
    apply bind_Err. right. exists pm. split; [exact Hpm|]. cbv zeta.
    apply bind_Err. left. fold rate. fold rate'. rewrite Hpow, Hbase. reflexivity.
  - exists (if coeff (dmul (dmul P rate') (Dec 1 0)) =? 0
            then InvalidOperation else DivisionByZero).
    split; [|destruct (coeff (dmul (dmul P rate') (Dec 1 0)) =? 0); auto].
    unfold EqualInstallmentLoan.annuity.
    apply bind_Err. right. exists pm. split; [exact Hpm|]. cbv zeta.
    apply bind_Err. right. exists (Dec 1 0). fold rate. fold rate'.
    split; [rewrite Hpow, Hbase; reflexivity|].
    rewrite Hone. apply ddiv_zero_divisor. reflexivity.
Qed.

(** X8: once the calendar is generated, [EqualPrincipalLoan] is constructed
    exactly when at least one whole period fits the term, with
    [num_payments = term // months] and [fixed_principal = principal /
    num_payments].  When no period fits (a term of 2 months paid quarterly,
    a zero or negative term) its constructor raises [DivisionByZero], or
    [InvalidOperation] for a zero principal, and the constructor of
    [EqualInstallmentLoan] raises one of the two as well. *)
Theorem X8_constructors_need_a_period (fuel : nat) (P r c b : Decimal) (start : date)
    (term : Z) (freq : string) (holiday : date -> bool) (variable : bool)
    (cal : PaymentCalendar.t) :
  PaymentCalendar.generate_schedule fuel (PaymentCalendar.init start term freq holiday)
  = Ok cal ->
  (1 <= term / months_per_period freq ->
   exists loan,
     EqualPrincipalLoan.init fuel P r c start term freq b holiday variable = Ok loan /\
     EqualPrincipalLoan.num_payments loan = term / months_per_period freq /\
     ddiv P (of_int (term / months_per_period freq))
     = Ok (EqualPrincipalLoan.fixed_principal loan)) /\
  (term / months_per_period freq <= 0 ->
   EqualPrincipalLoan.init fuel P r c start term freq b holiday variable
   = Err (if coeff P =? 0 then InvalidOperation else DivisionByZero) /\
   exists e,
     EqualInstallmentLoan.init fuel P r c start term freq b holiday = Err e /\
     (e = InvalidOperation \/ e = DivisionByZero)).
Proof.
  intros Hgen.
  pose proof (generate_schedule_size _ _ _ _ _ _ Hgen) as Hsize.
  pose proof (get_accrual_days_generated _ _ _ _ _ _ Hgen) as Hacc.
  pose proof (generate_schedule_periods _ _ _ _ _ _ Hgen) as (Hfd & Hm & _).
  split.
  - intros Hn. rewrite Z.max_r in Hsize by lia.
    destruct (ddiv_Ok P (of_int (term / months_per_period freq))) as (fp & Hfp);
      [simpl; lia|].
    eexists. split; [|split].
    + unfold EqualPrincipalLoan.init. apply bind_Ok. exists cal.
      split; [exact Hgen|]. cbv zeta. rewrite Hsize.
      apply bind_Ok. exists (cal, PaymentCalendar.accrual_days cal).
      split; [exact Hacc|]. cbv beta iota.
      apply bind_Ok. exists fp. split; [exact Hfp|]. reflexivity.
    + reflexivity.
    + exact Hfp.
  - intros Hn. rewrite Z.max_l in Hsize by lia. split.
    + unfold EqualPrincipalLoan.init. apply bind_Err. right. exists cal.
      split; [exact Hgen|]. cbv zeta. rewrite Hsize.
      apply bind_Err. right. exists (cal, PaymentCalendar.accrual_days cal).
      split; [exact Hacc|]. cbv beta iota.
      apply bind_Err. left. apply ddiv_zero_divisor. reflexivity.
    + destruct (annuity_no_period P r b (30 * months_per_period freq))
        as (e & He & Hcase).
      exists e. split; [|exact Hcase].
      unfold EqualInstallmentLoan.init. apply bind_Err. right. exists cal.
      split; [exact Hgen|]. cbv zeta. rewrite Hsize.
      apply bind_Err. right. exists (30 * months_per_period freq).
      split; [exact Hfd|]. apply bind_Err. left. exact He.
Qed.

Lemma X8_constructors_need_a_period_witness :
  EqualPrincipalLoan.init 3 (Dec 1000000 (-1)) (Dec 25 (-3)) (Dec 1 (-2))
    (Date 2024 5 2) 2 "3m" (Dec 5 (-2)) no_holidays false
  = Err DivisionByZero.
Proof.
  eassert (Hgen : PaymentCalendar.generate_schedule 3
                    (PaymentCalendar.init (Date 2024 5 2) 2 "3m" no_holidays) = Ok _)
    by (vm_compute; reflexivity).
  destruct (X8_constructors_need_a_period 3 (Dec 1000000 (-1)) (Dec 25 (-3))
              (Dec 1 (-2)) (Dec 5 (-2)) (Date 2024 5 2) 2 "3m" no_holidays false _
              Hgen) as [_ Hshort].
  exact (proj1 (Hshort ltac:(vm_compute; discriminate))).
Defined.

(** ** The annuity at a zero rate *)

Lemma dfix_zero (e : Z) : dfix (Dec 0 e) = Dec 0 e.
Proof. reflexivity. Qed.

Lemma dmul_zero_l (e : Z) (b : Decimal) : dmul (Dec 0 e) b = Dec 0 (e + dexp b).
Proof. unfold dmul. cbn [coeff dexp]. rewrite Z.mul_0_l. apply dfix_zero. Qed.

Lemma dmul_zero_r (a : Decimal) (e : Z) : dmul a (Dec 0 e) = Dec 0 (dexp a + e).
Proof. unfold dmul. cbn [coeff dexp]. rewrite Z.mul_0_r. apply dfix_zero. Qed.

Lemma dadd_zero_zero (e1 e2 : Z) : dadd (Dec 0 e1) (Dec 0 e2) = Dec 0 (Z.min e1 e2).
Proof. unfold dadd, dadd_exact. cbn [coeff dexp]. rewrite !Z.mul_0_l. apply dfix_zero. Qed.

Lemma ndigits_pow10 (j : Z) : 0 <= j -> ndigits (10 ^ j) = j + 1.
Proof.
  intros Hj. pose proof (pow10_pos j Hj).
  apply ndigits_unique; [|lia|lia].
  rewrite Z.abs_eq by lia. replace (j + 1 - 1) with j by lia.
  split; [lia | apply pow10_lt; lia].
Qed.

(** The context rounding of a one written with [j] zeros is a one. *)
Lemma dfix_one (j : Z) :
  0 <= j -> exists j', 0 <= j' /\ dfix (Dec (10 ^ j) (- j)) = Dec (10 ^ j') (- j').
Proof.
  intros Hj. unfold dfix. cbn [coeff dexp]. rewrite ndigits_pow10 by exact Hj.
  destruct (Z.leb_spec (j + 1) prec) as [_|Hbig]; [eauto|].
  unfold prec in *. exists 14. split; [lia|].
  pose proof (pow10_pos j Hj).
  rewrite Z.abs_eq by lia.
  replace (10 ^ j) with (10 ^ 14 * 10 ^ (j + 1 - 15))
    by (rewrite <- pow10_add by lia; f_equal; lia).
  rewrite round_half_up_exact by lia.
  change (10 ^ 14 =? 10 ^ 15) with false. cbv iota.
  rewrite Z.sgn_pos by (pose proof (pow10_pos (j + 1 - 15) ltac:(lia)); lia).
  f_equal; lia.
Qed.

Lemma dadd_one_zero (e : Z) :
  exists j, 0 <= j /\ dadd (Dec 10 (-1)) (Dec 0 e) = Dec (10 ^ j) (- j).
Proof.
  unfold dadd, dadd_exact. cbn [coeff dexp]. set (m := Z.min (-1) e).
  rewrite Z.mul_0_l, Z.add_0_r.
  replace (10 * 10 ^ (-1 - m)) with (10 ^ (- m)).
  2:{ replace (- m) with (1 + (-1 - m)) by lia. rewrite pow10_add by (unfold m; lia).
      reflexivity. }
  destruct (dfix_one (- m) ltac:(unfold m; lia)) as (j' & Hj' & Hd).
  rewrite Z.opp_involutive in Hd. eauto.
Qed.

Lemma dpow_one (j n : Z) :
  0 <= j -> 0 <= n ->
  exists j', 0 <= j' /\ dpow (Dec (10 ^ j) (- j)) (of_int n) = Ok (Dec (10 ^ j') (- j')).
Proof.
  intros Hj Hn. unfold dpow, of_int. cbn [coeff dexp].
  rewrite Z.pow_0_r, Z.mul_1_r. pose proof (pow10_pos j Hj).
  destruct (Z.eqb_spec n 0) as [->|Hn0].
  - destruct (Z.eqb_spec (10 ^ j) 0); [lia|]. exists 0. split; [lia | reflexivity].
  - destruct (Z.ltb_spec n 0); [lia|].
    rewrite <- Z.pow_mul_r by lia.
    replace (- j * n) with (- (j * n)) by lia.
    destruct (dfix_one (j * n) ltac:(nia)) as (j' & Hj' & ->). eauto.
Qed.

Lemma dsub_one (j : Z) :
  0 <= j -> coeff (dsub (Dec (10 ^ j) (- j)) (Dec 10 (-1))) = 0.
Proof.
  intros Hj. unfold dsub, dadd_exact, dneg. cbn [coeff dexp].
  set (m := Z.min (- j) (-1)).
  assert (Hz : 10 ^ j * 10 ^ (- j - m) + - (10) * 10 ^ (-1 - m) = 0).
  { rewrite <- pow10_add by (unfold m; lia).
    replace (j + (- j - m)) with (1 + (-1 - m)) by lia.
    rewrite pow10_add by (unfold m; lia). change (10 ^ 1) with 10. lia. }
  rewrite Hz. reflexivity.
Qed.

Lemma annuity_zero_rate (P b : Decimal) (e days num : Z) :
  days = 30 \/ days = 90 \/ days = 180 -> 0 <= num ->
  EqualInstallmentLoan.annuity P (Dec 0 e) b days num = Err InvalidOperation.
Proof.
  intros Hdays Hnum. unfold EqualInstallmentLoan.annuity.
  assert (Hpm : exists pm, ddiv (of_int days) (Dec 30 0) = Ok pm).
  { apply ddiv_Ok. simpl. lia. }
  destruct Hpm as (pm & ->). simpl.
  rewrite dmul_zero_l, dmul_zero_l, dadd_zero_zero.
  destruct (dadd_one_zero (Z.min (e + dexp pm) (e + dexp pm + dexp b)))
    as (j & Hj & ->).
  destruct (dpow_one j num Hj Hnum) as (j' & Hj' & ->). simpl.
  rewrite dmul_zero_r, dmul_zero_l.
  rewrite ddiv_zero_divisor by (apply dsub_one; exact Hj'). reflexivity.
Qed.

(** X9: with a monthly interest rate of zero, however it is written,
    [EqualInstallmentLoan] is never constructed: the annuity formula divides
    zero by [(1 + 0)^n - 1 = 0], and once the calendar is generated the
    constructor raises [InvalidOperation]. *)
Theorem X9_EqualInstallmentLoan_zero_rate (fuel : nat) (P c b : Decimal) (e : Z)
    (start : date) (term : Z) (freq : string) (holiday : date -> bool) :
  (forall loan,
      EqualInstallmentLoan.init fuel P (Dec 0 e) c start term freq b holiday
      <> Ok loan) /\
  (forall cal,
      PaymentCalendar.generate_schedule fuel
        (PaymentCalendar.init start term freq holiday) = Ok cal ->
      EqualInstallmentLoan.init fuel P (Dec 0 e) c start term freq b holiday
      = Err InvalidOperation).
Proof.
  assert (Hcal : forall cal,
      PaymentCalendar.generate_schedule fuel
        (PaymentCalendar.init start term freq holiday) = Ok cal ->
      EqualInstallmentLoan.init fuel P (Dec 0 e) c start term freq b holiday
      = Err InvalidOperation).
  { intros cal Hgen.
    pose proof (generate_schedule_periods _ _ _ _ _ _ Hgen) as (Hfd & Hm & _).
    unfold EqualInstallmentLoan.init. rewrite Hgen. simpl. rewrite Hfd. simpl.
    rewrite annuity_zero_rate; [reflexivity| |lia].
    apply frequency_to_days_cases in Hfd. lia. }
  split; [|exact Hcal].
  intros loan Hinit.
  destruct (PaymentCalendar.generate_schedule fuel
              (PaymentCalendar.init start term freq holiday)) as [cal|err] eqn:Hgen.
  - rewrite (Hcal cal eq_refl) in Hinit. discriminate.
  - unfold EqualInstallmentLoan.init in Hinit. rewrite Hgen in Hinit. discriminate.
Qed.

Lemma X9_EqualInstallmentLoan_zero_rate_witness :
  EqualInstallmentLoan.init 3 (Dec 1000000 (-1)) (Dec 0 (-1)) (Dec 1 (-2))
    (Date 2024 5 2) 12 "1m" (Dec 5 (-2)) no_holidays
  = Err InvalidOperation.
Proof.
  eassert (Hgen : PaymentCalendar.generate_schedule 3
                    (PaymentCalendar.init (Date 2024 5 2) 12 "1m" no_holidays) = Ok _)
    by (vm_compute; reflexivity).
  exact (proj2 (X9_EqualInstallmentLoan_zero_rate 3 (Dec 1000000 (-1)) (Dec 1 (-2))
                  (Dec 5 (-2)) (-1) (Date 2024 5 2) 12 "1m" no_holidays) _ Hgen).
Defined.

(** ** The two [_frequency_to_days] *)

(** X19: on a constructed [EqualInstallmentLoan] the class's own
    [_frequency_to_days] does not raise and answers, as a [Decimal], the same
    30, 90 or 180 days as the [_frequency_to_days] of its payment calendar,
    which is also the value of every entry of [fixed_accrual_days]. *)
Theorem X19_EqualInstallmentLoan_frequency_to_days (fuel : nat) (P r c b : Decimal)
    (start : date) (term : Z) (freq : string) (holiday : date -> bool)
    (loan : EqualInstallmentLoan.t) :
  EqualInstallmentLoan.init fuel P r c start term freq b holiday = Ok loan ->
  exists days,
    convention_days freq days /\
    PaymentCalendar._frequency_to_days (EqualInstallmentLoan.payment_calendar loan)
    = Ok days /\
    EqualInstallmentLoan._frequency_to_days loan = Ok (of_int days) /\
    forall k v, EqualInstallmentLoan.fixed_accrual_days loan !! k = Some v -> v = days.
Proof.
  intros Hinit. apply EqualInstallmentLoan_init_inv in Hinit.
  destruct Hinit as (fd & cal & T & Hfd & F & _ & ->).
  exists fd. cbn [EqualInstallmentLoan.payment_calendar
                  EqualInstallmentLoan.fixed_accrual_days].
  pose proof (frequency_to_days_cases _ _ Hfd) as Hcases.
  rewrite (filled_freq _ _ _ _ _ _ F) in Hcases.
  split; [exact Hcases|]. split; [exact Hfd|]. split.
  - unfold EqualInstallmentLoan._frequency_to_days. simpl.
    destruct Hcases as [[-> ->]|[[-> ->]|[-> ->]]]; reflexivity.
  - apply (filled_fixed_days _ _ _ _ _ _ F).
Qed.

Lemma X19_frequency_to_days_witness :
  exists loan days,
    EqualInstallmentLoan.init 3 (Dec 12000000 (-2)) (Dec 2 (-2)) (Dec 0 0)
      (Date 2024 1 10) 2 "1m" (Dec 5 (-2)) no_holidays = Ok loan /\
    convention_days "1m" days /\
    EqualInstallmentLoan._frequency_to_days loan = Ok (of_int days).
Proof.
  eassert (Hinit : EqualInstallmentLoan.init 3 (Dec 12000000 (-2)) (Dec 2 (-2))
                     (Dec 0 0) (Date 2024 1 10) 2 "1m" (Dec 5 (-2)) no_holidays = Ok _)
    by (vm_compute; reflexivity).
  destruct (X19_EqualInstallmentLoan_frequency_to_days _ _ _ _ _ _ _ _ _ _ Hinit)
    as (days & Hc & _ & Hown & _).
  eexists. exists days. split; [exact Hinit|]. split; assumption.
Defined.

(** ** A zero rate in the equal-principal schedule *)

Lemma quantize_zero (e : Z) : quantize (Dec 0 e) CENTS = Ok ZERO_00.
Proof. reflexivity. Qed.

Lemma fixed_period_rate_zero (freq : string) (e : Z) :
  coeff (fixed_period_rate freq (Dec 0 e)) = 0.
Proof.
  unfold fixed_period_rate. repeat case_match; try reflexivity;
    rewrite dmul_zero_l; reflexivity.
Qed.

Lemma dmul_coeff_zero_r (a b : Decimal) : coeff b = 0 -> coeff (dmul a b) = 0.
Proof. destruct b as [cb eb]. simpl. intros ->. rewrite dmul_zero_r. reflexivity. Qed.

Lemma dmul_coeff_zero_l (a b : Decimal) : coeff a = 0 -> coeff (dmul a b) = 0.
Proof. destruct a as [ca ea]. simpl. intros ->. rewrite dmul_zero_l. reflexivity. Qed.

Lemma quantize_coeff_zero (d q : Decimal) :
  coeff d = 0 -> quantize d CENTS = Ok q -> q = ZERO_00.
Proof.
  destruct d as [cd ed]. simpl. intros -> H. rewrite quantize_zero in H. congruence.
Qed.

(** Adding 0.00 twice does not change what [quantize] makes of a decimal of
    at most 15 digits. *)
Lemma quantize_plus_zero (a : Decimal) :
  Z.abs (coeff a) < 10 ^ prec ->
  quantize (dadd (dadd a ZERO_00) ZERO_00) CENTS = quantize a CENTS.
Proof.
  intros Hb. destruct (Z_le_gt_dec (dexp a) (-2)) as [He|He].
  - assert (Hid : dadd a ZERO_00 = a).
    { unfold ZERO_00. rewrite dadd_fine by exact He. rewrite Z.mul_0_l, Z.add_0_r.
      destruct a as [ca ea]. apply dfix_small. exact Hb. }
    rewrite Hid, Hid. reflexivity.
  - assert (Ha : in_cents a (coeff a * 10 ^ (dexp a + 2)))
      by (apply in_cents_ge; [lia | reflexivity]).
    set (v := coeff a * 10 ^ (dexp a + 2)) in *.
    pose proof (dadd_cents _ _ _ _ Ha (in_cents_Dec 0)) as H1.
    rewrite Z.add_0_r in H1. fold ZERO_00 in H1.
    destruct (Z.ltb_spec (Z.abs v) (10 ^ prec)) as [Hs|Hbig].
    + pose proof (dadd_cents _ _ _ _ H1 (in_cents_Dec 0)) as H2.
      rewrite Z.add_0_r in H2. fold ZERO_00 in H2.
      destruct (Z.ltb_spec (Z.abs v) (10 ^ prec)); [|lia].
      rewrite (quantize_cents _ _ H2), (quantize_cents _ _ Ha). reflexivity.
    + rewrite (quantize_oversized a) by (eapply in_cents_oversized; eassumption).
      apply quantize_oversized.
      unfold dadd at 1. apply dfix_oversized.
      destruct H1 as [Hnz Hdig]. unfold ZERO_00 in *.
      unfold dadd_exact, oversized. cbn [coeff dexp].
      set (x := dadd a (Dec 0 (-2))) in *.
      set (m := Z.min (dexp x) (-2)).
      rewrite Z.mul_0_l, Z.add_0_r.
      pose proof (pow10_pos (dexp x - m) ltac:(unfold m; lia)).
      split; [nia|]. rewrite ndigits_shift by (try assumption; unfold m; lia). lia.
Qed.

(** X10: with a monthly interest rate of zero, however it is written, every
    regular row of an [EqualPrincipalLoan] schedule carries an interest of
    0.00 and a tax of 0.00, and its installment is its principal payment,
    with fixed and with actual accrual days alike. *)
Theorem X10_EqualPrincipalLoan_zero_rate (fuel : nat) (P c b : Decimal) (e : Z)
    (start : date) (term : Z) (freq : string) (holiday : date -> bool)
    (variable : bool) (loan : EqualPrincipalLoan.t) (sched : list row) (row : row) :
  EqualPrincipalLoan.init fuel P (Dec 0 e) c start term freq b holiday variable
  = Ok loan ->
  EqualPrincipalLoan.calculate_schedule loan = Ok sched ->
  row ∈ sched -> installment_number row <> 0 ->
  interest_payment row = ZERO_00 /\ bsmv row = ZERO_00 /\
  installment_amount row = principal_payment row.
Proof.
  intros Hinit Hcalc. apply EqualPrincipalLoan_init_inv in Hinit.
  destruct Hinit as (fd & cal & fp & Hfd & F & Hfp & ->).
  pose proof (ddiv_bound _ _ _ Hfp) as Hb.
  revert row.
  refine (EqualPrincipalLoan_regular_rows
            (fun row => interest_payment row = ZERO_00 /\ bsmv row = ZERO_00 /\
                        installment_amount row = principal_payment row)
            _ sched _ Hcalc).
  intros i sch rem r0 rem' Hi Hs.
  unfold EqualPrincipalLoan.schedule_step in Hs. inv_bind Hs.
  destruct v as [period_rate accrual]. inv_bind Hs.
  apply snoc_inj in Hs. subst r0.
  cbn [interest_payment bsmv installment_amount principal_payment].
  cbn [EqualPrincipalLoan.fixed_principal EqualPrincipalLoan.bsmv_rate] in *.
  assert (Hrate : coeff period_rate = 0).
  { unfold EqualPrincipalLoan.period_terms in Hv.
    cbn [EqualPrincipalLoan.use_variable_accrual_days
         EqualPrincipalLoan.monthly_interest_rate
         EqualPrincipalLoan.payment_frequency] in Hv.
    destruct variable; inv_bind Hv.
    - subst period_rate. rewrite dmul_zero_l. reflexivity.
    - subst period_rate. apply fixed_period_rate_zero. }
  match goal with
  | HI : quantize (dmul rem period_rate) CENTS = Ok ?I |- _ =>
      apply quantize_coeff_zero in HI; [subst I | apply dmul_coeff_zero_r, Hrate]
  end.
  match goal with
  | HB : quantize (dmul ZERO_00 b) CENTS = Ok ?B |- _ =>
      apply quantize_coeff_zero in HB; [subst B | apply dmul_coeff_zero_l; reflexivity]
  end.
  split; [reflexivity|]. split; [reflexivity|].
  match goal with
  | HT : quantize (dadd (dadd fp ZERO_00) ZERO_00) CENTS = Ok ?T,
    HP : quantize fp CENTS = Ok ?Q |- _ =>
      rewrite (quantize_plus_zero fp Hb) in HT; congruence
  end.
Qed.

Lemma X10_EqualPrincipalLoan_zero_rate_witness :
  let row1 :=
    Row 1 (Date 2024 6 3) 30 (Dec 4000000 (-2)) (Dec 0 (-2)) ZERO_00 (Dec 0 (-2))
      (Dec 4000000 (-2)) (Dec 8000000 (-2)) in
  interest_payment row1 = ZERO_00 /\ bsmv row1 = ZERO_00 /\
  installment_amount row1 = principal_payment row1.
Proof.
  intros row1.
  eassert (Hinit : EqualPrincipalLoan.init 3 (Dec 12000000 (-2)) (Dec 0 (-1))
                     (Dec 0 0) (Date 2024 5 2) 3 "1m" (Dec 5 (-2)) no_holidays false
                   = Ok _)
    by (vm_compute; reflexivity).
  match type of Hinit with
  | _ = Ok ?l =>
      eassert (Hcalc : EqualPrincipalLoan.calculate_schedule l = Ok _)
        by (vm_compute; reflexivity)
  end.
  exact (X10_EqualPrincipalLoan_zero_rate _ _ _ _ _ _ _ _ _ _ _ _ row1 Hinit Hcalc
           ltac:(left) ltac:(discriminate)).
Defined.

(** ** The rows of a schedule *)

Lemma commission_rows_cases P c b start rem first :
  commission_rows P c b start rem = Ok first ->
  (dltb (of_int 0) c = false /\ first = []) \/
  (dltb (of_int 0) c = true /\
   exists amount tax inst rem',
     first = [Row 0 start 0 ZERO_00 ZERO_00 amount tax inst rem'] /\
     quantize rem CENTS = Ok rem').
Proof.
  unfold commission_rows. destruct (dltb (of_int 0) c).
  - intros H. inv_bind H. right. split; [reflexivity|].
    subst first. eauto 10.
  - intros [= <-]. auto.
Qed.

Lemma schedule_shape (step : list row * Decimal -> Z -> result (list row * Decimal))
    (P c b : Decimal) (start : date) (dates : gmap Z date) (N : Z)
    (sched : list row) (rem : Decimal) :
  (forall sch rem k sch' rem',
      step (sch, rem) k = Ok (sch', rem') ->
      exists r, sch' = sch ++ [r] /\ installment_number r = k) ->
  (forall i sch rem0 r rem',
      0 <= i < N -> step (sch, rem0) (i + 1) = Ok (sch ++ [r], rem') ->
      dates !! (i + 1) = Some (payment_date r) /\ commission_payment r = ZERO_00) ->
  (first ← commission_rows P c b start P;
   for_each step (first, P) (range1 N)) = Ok (sched, rem) ->
  installment_number <$> sched
  = (if dltb (of_int 0) c then [0] else []) ++ range1 N /\
  Forall (row_shape start dates) sched.
Proof.
  intros Hsnoc Hstep H. apply bind_Ok in H. destruct H as (first & Hfirst & Hrun).
  apply (loop_rows step Hsnoc (fun _ _ => True)
           (fun r => installment_number r <> 0 /\ row_shape start dates r))
    in Hrun; [|exact I|].
  - destruct Hrun as (regs & -> & Hn & HQ & _).
    rewrite fmap_app, Hn.
    apply commission_rows_cases in Hfirst.
    destruct Hfirst as [[-> ->]|[-> (amount & tax & inst & rem' & -> & _)]].
    + split; [reflexivity|]. simpl. eapply Forall_impl; [exact HQ|]. intros ? [_ ?]. assumption.
    + split; [reflexivity|]. apply Forall_app. split.
      * constructor; [|constructor]. unfold row_shape. simpl. auto.
      * eapply Forall_impl; [exact HQ|]. intros ? [_ ?]. assumption.
  - intros i sch rem0 r rem' Hi _ Hs Hk. split; [exact I|].
    destruct (Hstep _ _ _ _ _ Hi Hs) as [Hd Hc]. split; [lia|].
    unfold row_shape. rewrite Hk.
    destruct (Z.eqb_spec (i + 1) 0); [lia|]. auto.
Qed.

(** X11: the rows of a schedule of either class are numbered [0] (only when
    the commission is positive), then [1 .. num_payments], in this order.
    Row 0 is dated on the start date, with 0 accrual days, a principal of 0.00
    and an interest of 0.00; row [k >= 1] is dated on [payment_dates[k]] and
    carries a commission of 0.00. *)
Theorem X11_schedule_rows_numbered_and_dated :
  (forall (self : EqualPrincipalLoan.t) (sched : list row),
      EqualPrincipalLoan.calculate_schedule self = Ok sched ->
      installment_number <$> sched
      = (if dltb (of_int 0) (EqualPrincipalLoan.commission self) then [0] else [])
        ++ range1 (EqualPrincipalLoan.num_payments self) /\
      Forall (row_shape (EqualPrincipalLoan.start_date self)
                (EqualPrincipalLoan.payment_dates self)) sched) /\
  (forall (self : EqualInstallmentLoan.t) (sched : list row),
      EqualInstallmentLoan.calculate_schedule self = Ok sched ->
      installment_number <$> sched
      = (if dltb (of_int 0) (EqualInstallmentLoan.commission self) then [0] else [])
        ++ range1 (EqualInstallmentLoan.num_payments self) /\
      Forall (row_shape (EqualInstallmentLoan.start_date self)
                (EqualInstallmentLoan.payment_dates self)) sched).
Proof.
  split.
  - intros self sched H. unfold EqualPrincipalLoan.calculate_schedule in H.
    inv_bind H. destruct v as [sched' rem]. simpl in H. subst sched'.
    refine (schedule_shape _ _ _ (EqualPrincipalLoan.bsmv_rate self) _ _ _ _ rem
              (EqualPrincipalLoan_step_snoc self) _ Hv).
    intros i sch rem0 r rem' _ Hs.
    unfold EqualPrincipalLoan.schedule_step in Hs. inv_bind Hs.
    destruct v as [period_rate accrual]. inv_bind Hs.
    apply snoc_inj in Hs. subst r. simpl.
    match goal with H : of_option _ KeyError = Ok _ |- _ => apply of_option_Ok in H; rewrite H end.
    auto.
  - intros self sched H. unfold EqualInstallmentLoan.calculate_schedule in H.
    inv_bind H. destruct v as [sched' rem]. simpl in H. subst sched'.
    refine (schedule_shape _ _ _ (EqualInstallmentLoan.bsmv_rate self) _ _ _ _ rem
              (EqualInstallmentLoan_step_snoc self) _ Hv).
    intros i sch rem0 r rem' _ Hs.
    unfold EqualInstallmentLoan.schedule_step in Hs. inv_bind Hs.
    apply snoc_inj in Hs. subst r. simpl.
    match goal with
    | H : of_option (EqualInstallmentLoan.payment_dates _ !! _) KeyError = Ok _ |- _ =>
        apply of_option_Ok in H; rewrite H
    end.
    auto.
Qed.

Lemma X11_schedule_rows_witness :
  exists loan sched,
    EqualPrincipalLoan.init 3 (Dec 1000000 (-1)) (Dec 25 (-3)) (Dec 1 (-2))
      (Date 2024 5 2) 2 "1m" (Dec 5 (-2)) no_holidays false = Ok loan /\
    EqualPrincipalLoan.calculate_schedule loan = Ok sched /\
    installment_number <$> sched = [0; 1; 2].
Proof.
  eassert (Hinit : EqualPrincipalLoan.init 3 (Dec 1000000 (-1)) (Dec 25 (-3))
                     (Dec 1 (-2)) (Date 2024 5 2) 2 "1m" (Dec 5 (-2)) no_holidays
                     false = Ok _)
    by (vm_compute; reflexivity).
  match type of Hinit with
  | _ = Ok ?l =>
      eassert (Hcalc : EqualPrincipalLoan.calculate_schedule l = Ok _)
        by (vm_compute; reflexivity)
  end.
  eexists. eexists. split; [exact Hinit|]. split; [exact Hcalc|].
  exact (proj1 (proj1 X11_schedule_rows_numbered_and_dated _ _ Hcalc)).
Defined.

(** ** The exceptions of [calculate_schedule] *)

Lemma quantize_Err (d ex : Decimal) (e : exn) :
  quantize d ex = Err e -> e = InvalidOperation.
Proof. unfold quantize. repeat case_match; congruence. Qed.

Lemma commission_rows_Err P c b start rem e :
  commission_rows P c b start rem = Err e -> e = InvalidOperation.
Proof.
  unfold commission_rows. destruct (dltb (of_int 0) c); [|discriminate].
  intros H.
  repeat (apply bind_Err in H; destruct H as [H|(? & _ & H)];
          [eapply quantize_Err, H|]).
  discriminate.
Qed.

(** An exception of a loop over [xs] is an exception of a round on an
    element of [xs]. *)
Lemma for_each_Err_elem {A S} (Q : exn -> Prop)
    (body : S -> A -> result S) (xs : list A) (s0 : S) (e : exn) :
  (forall s x e, x ∈ xs -> body s x = Err e -> Q e) ->
  for_each body s0 xs = Err e -> Q e.
Proof.
  revert s0. induction xs as [|x xs IH]; intros s0 Hstep; simpl; [discriminate|].
  destruct (body s0 x) as [s1|e1] eqn:Hb.
  - apply IH. intros s y e' Hy. apply Hstep. right. exact Hy.
  - intros [= <-]. eapply Hstep; [left | exact Hb].
Qed.

Lemma in_range1_list (k n : Z) : k ∈ range1 n <-> 1 <= k <= n.
Proof. unfold range1. rewrite elem_of_seqZ. lia. Qed.

Lemma EqualPrincipalLoan_step_Err fuel P r c start term freq b holiday variable loan
    st k e :
  EqualPrincipalLoan.init fuel P r c start term freq b holiday variable = Ok loan ->
  1 <= k <= EqualPrincipalLoan.num_payments loan ->
  EqualPrincipalLoan.schedule_step loan st k = Err e -> e = InvalidOperation.
Proof.
  intros Hinit Hk H. apply EqualPrincipalLoan_init_inv in Hinit.
  destruct Hinit as (fd & cal & fp & Hfd & F & Hfp & ->).
  cbn [EqualPrincipalLoan.num_payments] in Hk.
  destruct (filled_lookup _ _ _ _ _ _ k F Hk) as (d & a & Hd & Ha & _).
  destruct st as [sch rem]. unfold EqualPrincipalLoan.schedule_step in H.
  assert (Hterms : exists pr, EqualPrincipalLoan.period_terms
            (EqualPrincipalLoan.Build P r c start term freq b variable cal
               (PaymentCalendar.payment_dates cal) (periods term fd)
               (PaymentCalendar.accrual_days cal)
               (foldl (fun m k => <[k := EqualPrincipalLoan.fixed_days_of freq]> m) ∅
                  (range1 (periods term fd))) fp) k = Ok pr).
  { unfold EqualPrincipalLoan.period_terms. simpl. destruct variable.
    - rewrite Ha. simpl.
      destruct (ddiv_Ok (of_int a) (Dec 30 0)) as (q & ->); [simpl; lia|].
      simpl. eauto.
    - rewrite foldl_insert_const.
      destruct (decide (k ∈ range1 (periods term fd))) as [_|Hn].
      + simpl. eauto.
      + exfalso. apply Hn. apply in_range1_list. exact Hk. }
  destruct Hterms as ([period_rate accrual] & Hterms). rewrite Hterms in H.
  cbn [mbind result_bind] in H. simpl in H.
  apply bind_Err in H; destruct H as [H|(? & _ & H)]; [eapply quantize_Err, H|].
  apply bind_Err in H; destruct H as [H|(? & _ & H)]; [eapply quantize_Err, H|].
  apply bind_Err in H; destruct H as [H|(? & _ & H)]; [eapply quantize_Err, H|].
  rewrite Hd in H. simpl in H.
  apply bind_Err in H; destruct H as [H|(? & _ & H)]; [eapply quantize_Err, H|].
  apply bind_Err in H; destruct H as [H|(? & _ & H)]; [eapply quantize_Err, H|].
  discriminate.
Qed.

Lemma EqualInstallmentLoan_step_Err fuel P r c start term freq b holiday loan st k e :
  EqualInstallmentLoan.init fuel P r c start term freq b holiday = Ok loan ->
  1 <= k <= EqualInstallmentLoan.num_payments loan ->
  EqualInstallmentLoan.schedule_step loan st k = Err e -> e = InvalidOperation.
Proof.
  intros Hinit Hk H. apply EqualInstallmentLoan_init_inv in Hinit.
  destruct Hinit as (fd & cal & T & Hfd & F & HT & ->).
  cbn [EqualInstallmentLoan.num_payments] in Hk.
  destruct (filled_lookup _ _ _ _ _ _ k F Hk) as (d & a & Hd & _ & Ht).
  destruct st as [sch rem]. unfold EqualInstallmentLoan.schedule_step in H.
  simpl in H.
  apply bind_Err in H; destruct H as [H|(? & _ & H)]; [eapply quantize_Err, H|].
  apply bind_Err in H; destruct H as [H|(? & _ & H)]; [eapply quantize_Err, H|].
  apply bind_Err in H; destruct H as [H|(? & _ & H)]; [eapply quantize_Err, H|].
  apply bind_Err in H; destruct H as [H|(? & _ & H)]; [eapply quantize_Err, H|].
  rewrite Hd, Ht in H. simpl in H.
  apply bind_Err in H; destruct H as [H|(? & _ & H)]; [eapply quantize_Err, H|].
  discriminate.
Qed.

(** X12: on a constructed loan of either class the only exception
    [calculate_schedule] can raise is [decimal.InvalidOperation], from a
    [quantize] whose result does not fit 15 digits: every dictionary lookup
    of the loop finds its key, and the division by 30 of the actual accrual
    days cannot fail. *)
Theorem X12_calculate_schedule_raises_only_InvalidOperation (fuel : nat)
    (P r c b : Decimal) (start : date) (term : Z) (freq : string)
    (holiday : date -> bool) (variable : bool) (e : exn) :
  (forall loan,
      EqualPrincipalLoan.init fuel P r c start term freq b holiday variable = Ok loan ->
      EqualPrincipalLoan.calculate_schedule loan = Err e -> e = InvalidOperation) /\
  (forall loan,
      EqualInstallmentLoan.init fuel P r c start term freq b holiday = Ok loan ->
      EqualInstallmentLoan.calculate_schedule loan = Err e -> e = InvalidOperation).
Proof.
  split; intros loan Hinit H.
  - unfold EqualPrincipalLoan.calculate_schedule in H.
    apply bind_Err in H. destruct H as [H|(? & _ & H)]; [|discriminate].
    unfold EqualPrincipalLoan.run_schedule in H.
    apply bind_Err in H. destruct H as [H|(first & _ & H)];
      [eapply commission_rows_Err, H|].
    eapply (for_each_Err_elem (fun e => e = InvalidOperation)); [|exact H].
    intros s k e' Hk Hs. apply in_range1_list in Hk.
    eapply EqualPrincipalLoan_step_Err; eassumption.
  - unfold EqualInstallmentLoan.calculate_schedule in H.
    apply bind_Err in H. destruct H as [H|(? & _ & H)]; [|discriminate].
    unfold EqualInstallmentLoan.run_schedule in H.
    apply bind_Err in H. destruct H as [H|(first & _ & H)];
      [eapply commission_rows_Err, H|].
    eapply (for_each_Err_elem (fun e => e = InvalidOperation)); [|exact H].
    intros s k e' Hk Hs. apply in_range1_list in Hk.
    eapply EqualInstallmentLoan_step_Err; eassumption.
Qed.

Lemma X12_only_InvalidOperation_witness :
  exists loan e,
    EqualPrincipalLoan.init 3 (Dec 1 14) (Dec 2 (-2)) (Dec 1 (-2)) (Date 2024 5 2) 3
      "1m" (Dec 5 (-2)) no_holidays false = Ok loan /\
    EqualPrincipalLoan.calculate_schedule loan = Err e /\ e = InvalidOperation.
Proof.
  eassert (Hinit : EqualPrincipalLoan.init 3 (Dec 1 14) (Dec 2 (-2)) (Dec 1 (-2))
                     (Date 2024 5 2) 3 "1m" (Dec 5 (-2)) no_holidays false = Ok _)
    by (vm_compute; reflexivity).
  match type of Hinit with
  | _ = Ok ?l =>
      eassert (Hcalc : EqualPrincipalLoan.calculate_schedule l = Err _)
        by (vm_compute; reflexivity)
  end.
  eexists. eexists. split; [exact Hinit|]. split; [exact Hcalc|].
  exact (proj1 (X12_calculate_schedule_raises_only_InvalidOperation _ _ _ _ _ _ _ _ _
                  _ _) _ Hinit Hcalc).
Defined.

Lemma commission_rows_oversized P c b start rem :
  dltb (of_int 0) c = true -> oversized rem ->
  commission_rows P c b start rem = Err InvalidOperation.
Proof.
  intros Hc Hbig. unfold commission_rows. rewrite Hc.
  destruct (quantize (dmul P c) CENTS) as [amount|e] eqn:H1;
    [|apply quantize_Err in H1; subst e; reflexivity].
  simpl.
  destruct (quantize (dmul amount b) CENTS) as [tax|e] eqn:H2;
    [|apply quantize_Err in H2; subst e; reflexivity].
  simpl.
  destruct (quantize (dadd amount tax) CENTS) as [inst|e] eqn:H3;
    [|apply quantize_Err in H3; subst e; reflexivity].
  simpl. rewrite (quantize_oversized _ Hbig). reflexivity.
Qed.

(** X13: with a positive commission and a principal of 14 or more integer
    digits, [calculate_schedule] of either class raises [InvalidOperation]
    before any row is built: the commission row has to quantize the
    remaining principal to cents, which needs more than 15 digits. *)
Theorem X13_oversized_principal_with_commission :
  (forall self : EqualPrincipalLoan.t,
      dltb (of_int 0) (EqualPrincipalLoan.commission self) = true ->
      oversized (EqualPrincipalLoan.principal self) ->
      EqualPrincipalLoan.calculate_schedule self = Err InvalidOperation) /\
  (forall self : EqualInstallmentLoan.t,
      dltb (of_int 0) (EqualInstallmentLoan.commission self) = true ->
      oversized (EqualInstallmentLoan.principal self) ->
      EqualInstallmentLoan.calculate_schedule self = Err InvalidOperation).
Proof.
  split; intros self Hc Hbig.
  - unfold EqualPrincipalLoan.calculate_schedule, EqualPrincipalLoan.run_schedule.
    rewrite commission_rows_oversized by assumption. reflexivity.
  - unfold EqualInstallmentLoan.calculate_schedule, EqualInstallmentLoan.run_schedule.
    rewrite commission_rows_oversized by assumption. reflexivity.
Qed.

Lemma X13_oversized_principal_witness :
  EqualPrincipalLoan.calculate_schedule
    (EqualPrincipalLoan.Build (Dec 1 14) (Dec 2 (-2)) (Dec 1 (-2)) (Date 2024 5 2) 3
       "1m" (Dec 5 (-2)) false
       (PaymentCalendar.init (Date 2024 5 2) 3 "1m" no_holidays) ∅ 3 ∅ ∅
       (Dec 333333333333333 (-1)))
  = Err InvalidOperation.
Proof.
  apply (proj1 X13_oversized_principal_with_commission).
  - vm_compute. reflexivity.
  - split; [simpl; discriminate | vm_compute; discriminate].
Defined.

(** ** The remaining principal of the equal-installment schedule *)

Lemma sum_cents_snoc (f : row -> Decimal) (rows : list row) (r : row) :
  sum_cents f (rows ++ [r]) = sum_cents f rows + coeff (f r).
Proof.
  unfold sum_cents. induction rows as [|x rows IH]; simpl; [lia|]. rewrite IH. lia.
Qed.

Lemma sum_cents_app (f : row -> Decimal) (xs ys : list row) :
  sum_cents f (xs ++ ys) = sum_cents f xs + sum_cents f ys.
Proof.
  unfold sum_cents. induction xs as [|x xs IH]; simpl; [lia|]. rewrite IH. lia.
Qed.

(** X14: in an [EqualInstallmentLoan] schedule over a principal of a whole
    number [p] of cents, every principal payment has two places and the
    remaining principal of every row, the commission row included, is
    exactly [p] minus the principal payments of the rows up to and including
    it: the rounded principal parts and the reported balance never drift
    apart. *)
Theorem X14_EqualInstallmentLoan_remaining_chain (self : EqualInstallmentLoan.t)
    (sched : list row) (p : Z) (i : nat) (row : row) :
  in_cents (EqualInstallmentLoan.principal self) p ->
  EqualInstallmentLoan.calculate_schedule self = Ok sched ->
  sched !! i = Some row ->
  dexp (principal_payment row) = -2 /\
  remaining_principal row
  = Dec (p - sum_cents principal_payment (take (S i) sched)) (-2).
Proof.
  intros HP Hcalc. revert i row.
  unfold EqualInstallmentLoan.calculate_schedule in Hcalc. inv_bind Hcalc.
  destruct v as [sched' rem]. simpl in Hcalc. subst sched'.
  unfold EqualInstallmentLoan.run_schedule in Hv. inv_bind Hv. rename v into first.
  set (I := fun (_ : Z) (st : list row * Decimal) =>
              in_cents (snd st) (p - sum_cents principal_payment (fst st)) /\
              forall (j : nat) (row : row), fst st !! j = Some row ->
                dexp (principal_payment row) = -2 /\
                remaining_principal row
                = Dec (p - sum_cents principal_payment (take (S j) (fst st))) (-2)).
  assert (HI : I (Z.max 0 (EqualInstallmentLoan.num_payments self)) (sched, rem)).
  { eapply (for_each_range1 I); [| |exact Hv].
    - unfold I. cbn [fst snd]. apply commission_rows_cases in Hv0.
      destruct Hv0 as [[_ ->]|[_ (amount & tax & inst & rem' & -> & Hq)]].
      + split; [simpl; rewrite Z.sub_0_r; exact HP|].
        intros j row. simpl. rewrite lookup_nil. discriminate.
      + split; [simpl; rewrite Z.sub_0_r; exact HP|].
        intros [|j] row; simpl; [|rewrite lookup_nil; discriminate].
        intros [= <-]. simpl. split; [reflexivity|].
        apply (quantize_cents_Ok _ _ _ HP) in Hq. destruct Hq as [-> _].
        f_equal. lia.
    - intros k [sch rem0] [sch' rem1] Hk [Hrem Hrows] Hs. simpl in Hrem, Hrows.
      unfold EqualInstallmentLoan.schedule_step in Hs. inv_bind Hs.
      subst sch' rem1. unfold I. cbn [fst snd].
      rename v1 into pp, v5 into shown.
      match goal with
      | Hpp : quantize (dsub (dsub _ _) _) CENTS = Ok pp,
        Hrm : quantize (dsub rem0 pp) CENTS = Ok shown |- _ =>
          pose proof (quantize_form _ _ Hpp) as [Hform _];
          pose proof (dsub_cents rem0 pp _ (coeff pp) Hrem
                        ltac:(rewrite Hform; apply in_cents_Dec)) as Hsub;
          destruct (Z.ltb_spec
                      (Z.abs (p - sum_cents principal_payment sch - coeff pp))
                      (10 ^ prec));
            [apply (quantize_cents_Ok _ _ _ Hsub) in Hrm; destruct Hrm as [-> _]
            |rewrite (quantize_oversized _ Hsub) in Hrm; discriminate]
      end.
      rewrite sum_cents_snoc. cbn [principal_payment].
      split.
      { replace (p - (sum_cents principal_payment sch + coeff pp))
          with (p - sum_cents principal_payment sch - coeff pp) by lia.
        exact Hsub. }
      intros j row Hj. apply lookup_app_Some in Hj.
      destruct Hj as [Hj|[Hlen Hj]].
      + destruct (Hrows j row Hj) as [He Hr]. split; [exact He|].
        rewrite take_app_le by (apply lookup_lt_Some in Hj; lia). exact Hr.
      + destruct (j - length sch)%nat as [|n] eqn:Hn; simpl in Hj;
          [|rewrite lookup_nil in Hj; discriminate].
        injection Hj as <-. cbn [principal_payment remaining_principal].
        split; [rewrite Hform; reflexivity|].
        rewrite take_ge by (rewrite length_app; simpl; lia).
        rewrite sum_cents_snoc. cbn [principal_payment]. f_equal. lia. }
  intros i row Hi. exact (proj2 HI i row Hi).
Qed.

Lemma X14_remaining_chain_witness :
  let row1 :=
    Row 1 (Date 2024 2 12) 30 (Dec 5937655 (-2)) (Dec 240000 (-2)) ZERO_00
      (Dec 12000 (-2)) (Dec 6189655 (-2)) (Dec 6062345 (-2)) in
  dexp (principal_payment row1) = -2 /\
  remaining_principal row1
  = Dec (12000000 - sum_cents principal_payment [row1]) (-2).
Proof.
  intros row1.
  eassert (Hinit : EqualInstallmentLoan.init 3 (Dec 12000000 (-2)) (Dec 2 (-2))
                     (Dec 0 0) (Date 2024 1 10) 2 "1m" (Dec 5 (-2)) no_holidays = Ok _)
    by (vm_compute; reflexivity).
  match type of Hinit with
  | _ = Ok ?l =>
      eassert (Hcalc : EqualInstallmentLoan.calculate_schedule l = Ok _)
        by (vm_compute; reflexivity)
  end.
  refine (X14_EqualInstallmentLoan_remaining_chain _ _ 12000000 0%nat row1 _ Hcalc _).
  - vm_compute. reflexivity.
  - reflexivity.
Defined.

(** ** Rows that add up *)

(** The commission rows and the regular rows of a schedule. *)
Lemma schedule_parts (step : list row * Decimal -> Z -> result (list row * Decimal))
    (P c b : Decimal) (start : date) (N : Z) (sched : list row) (rem : Decimal) :
  (forall sch rem k sch' rem',
      step (sch, rem) k = Ok (sch', rem') ->
      exists r, sch' = sch ++ [r] /\ installment_number r = k) ->
  (first ← commission_rows P c b start P;
   for_each step (first, P) (range1 N)) = Ok (sched, rem) ->
  exists first regs,
    commission_rows P c b start P = Ok first /\ sched = first ++ regs /\
    Forall (fun r => installment_number r = 0) first /\
    Forall (fun r => installment_number r <> 0) regs.
Proof.
  intros Hsnoc H. apply bind_Ok in H. destruct H as (first & Hfirst & Hrun).
  apply (loop_rows step Hsnoc (fun _ _ => True) (fun r => installment_number r <> 0))
    in Hrun; [|exact I|].
  - destruct Hrun as (regs & -> & _ & HQ & _). exists first, regs.
    split; [exact Hfirst|]. split; [reflexivity|]. split; [|exact HQ].
    eapply commission_rows_number, Hfirst.
  - intros i sch rem0 r rem' Hi _ _ Hk. split; [exact I | lia].
Qed.

Lemma EqualPrincipalLoan_parts self sched :
  EqualPrincipalLoan.calculate_schedule self = Ok sched ->
  exists first regs,
    commission_rows (EqualPrincipalLoan.principal self)
      (EqualPrincipalLoan.commission self) (EqualPrincipalLoan.bsmv_rate self)
      (EqualPrincipalLoan.start_date self) (EqualPrincipalLoan.principal self)
    = Ok first /\
    sched = first ++ regs /\
    Forall (fun r => installment_number r = 0) first /\
    Forall (fun r => installment_number r <> 0) regs.
Proof.
  intros H. unfold EqualPrincipalLoan.calculate_schedule in H. inv_bind H.
  destruct v as [sched' rem]. simpl in H. subst sched'.
  exact (schedule_parts _ _ _ _ _ _ _ _ (EqualPrincipalLoan_step_snoc self) Hv).
Qed.

Lemma EqualInstallmentLoan_parts self sched :
  EqualInstallmentLoan.calculate_schedule self = Ok sched ->
  exists first regs,
    commission_rows (EqualInstallmentLoan.principal self)
      (EqualInstallmentLoan.commission self) (EqualInstallmentLoan.bsmv_rate self)
      (EqualInstallmentLoan.start_date self) (EqualInstallmentLoan.principal self)
    = Ok first /\
    sched = first ++ regs /\
    Forall (fun r => installment_number r = 0) first /\
    Forall (fun r => installment_number r <> 0) regs.
Proof.
  intros H. unfold EqualInstallmentLoan.calculate_schedule in H. inv_bind H.
  destruct v as [sched' rem]. simpl in H. subst sched'.
  exact (schedule_parts _ _ _ _ _ _ _ _ (EqualInstallmentLoan_step_snoc self) Hv).
Qed.

Lemma commission_row_adds_up P c b start rem first regs row :
  commission_rows P c b start rem = Ok first ->
  Forall (fun r => installment_number r <> 0) regs ->
  row ∈ first ++ regs -> installment_number row = 0 ->
  value_eq (installment_amount row) (row_sum row).
Proof.
  intros Hfirst Hregs Hin Hz. apply elem_of_app in Hin. destruct Hin as [Hin|Hin].
  - apply commission_rows_sum in Hfirst. rewrite Forall_forall in Hfirst.
    apply Hfirst, Hin.
  - rewrite Forall_forall in Hregs. destruct (Hregs _ Hin Hz).
Qed.

(** X15: every row of an [EqualInstallmentLoan] schedule, the commission row
    included, whose principal, interest and tax are not negative has an
    installment equal to principal + interest + tax + commission. *)
Theorem X15_EqualInstallmentLoan_rows_add_up (self : EqualInstallmentLoan.t)
    (sched : list row) (row : row) :
  EqualInstallmentLoan.calculate_schedule self = Ok sched ->
  row ∈ sched ->
  0 <= coeff (principal_payment row) ->
  0 <= coeff (interest_payment row) ->
  0 <= coeff (bsmv row) ->
  value_eq (installment_amount row) (row_sum row).
Proof.
  intros Hcalc Hin Hp Hi Hb.
  destruct (Z.eq_dec (installment_number row) 0) as [Hz|Hnz].
  - destruct (EqualInstallmentLoan_parts _ _ Hcalc) as (first & regs & Hf & -> & _ & Hr).
    eapply commission_row_adds_up; eassumption.
  - eapply EqualInstallmentLoan_row_sum; eassumption.
Qed.

Lemma X15_rows_add_up_witness :
  let row1 :=
    Row 1 (Date 2024 2 12) 30 (Dec 5937655 (-2)) (Dec 240000 (-2)) ZERO_00
      (Dec 12000 (-2)) (Dec 6189655 (-2)) (Dec 6062345 (-2)) in
  value_eq (installment_amount row1) (row_sum row1).
Proof.
  intros row1.
  eassert (Hinit : EqualInstallmentLoan.init 3 (Dec 12000000 (-2)) (Dec 2 (-2))
                     (Dec 0 0) (Date 2024 1 10) 2 "1m" (Dec 5 (-2)) no_holidays = Ok _)
    by (vm_compute; reflexivity).
  match type of Hinit with
  | _ = Ok ?l =>
      eassert (Hcalc : EqualInstallmentLoan.calculate_schedule l = Ok _)
        by (vm_compute; reflexivity)
  end.
  refine (X15_EqualInstallmentLoan_rows_add_up _ _ row1 Hcalc _ _ _ _).
  - left.
  - vm_compute. discriminate.
  - vm_compute. discriminate.
  - vm_compute. discriminate.
Defined.

(** X16: a row of an [EqualPrincipalLoan] schedule, the commission row
    included, has an installment equal to principal + interest + tax +
    commission whenever its amounts are not negative and the unrounded
    quotient [fixed_principal] plus interest plus tax needs no more than 15
    digits. *)
Theorem X16_EqualPrincipalLoan_rows_add_up_within_precision (self : EqualPrincipalLoan.t)
    (sched : list row) (row : row) :
  EqualPrincipalLoan.calculate_schedule self = Ok sched ->
  row ∈ sched ->
  0 <= coeff (EqualPrincipalLoan.fixed_principal self) ->
  0 <= coeff (interest_payment row) ->
  0 <= coeff (bsmv row) ->
  Z.abs (coeff (dadd_exact
                  (dadd_exact (EqualPrincipalLoan.fixed_principal self)
                     (interest_payment row))
                  (bsmv row))) < 10 ^ prec ->
  value_eq (installment_amount row) (row_sum row).
Proof.
  intros Hcalc Hin Hp Hi Hb Hfit.
  destruct (Z.eq_dec (installment_number row) 0) as [Hz|Hnz].
  - destruct (EqualPrincipalLoan_parts _ _ Hcalc) as (first & regs & Hf & -> & _ & Hr).
    eapply commission_row_adds_up; eassumption.
  - eapply EqualPrincipalLoan_row_sum_within_precision; eassumption.
Qed.

Lemma X16_rows_add_up_witness :
  let row1 :=
    Row 1 (Date 2024 6 3) 30 (Dec 4000000 (-2)) (Dec 240000 (-2)) (Dec 0 (-2))
      (Dec 12000 (-2)) (Dec 4252000 (-2)) (Dec 8000000 (-2)) in
  value_eq (installment_amount row1) (row_sum row1).
Proof.
  intros row1.
  eassert (Hinit : EqualPrincipalLoan.init 3 (Dec 12000000 (-2)) (Dec 2 (-2))
                     (Dec 0 0) (Date 2024 5 2) 3 "1m" (Dec 5 (-2)) no_holidays false
                   = Ok _)
    by (vm_compute; reflexivity).
  match type of Hinit with
  | _ = Ok ?l =>
      eassert (Hcalc : EqualPrincipalLoan.calculate_schedule l = Ok _)
        by (vm_compute; reflexivity)
  end.
  refine (X16_EqualPrincipalLoan_rows_add_up_within_precision _ _ row1 Hcalc
            _ _ _ _ _).
  - left.
  - vm_compute. discriminate.
  - vm_compute. discriminate.
  - vm_compute. discriminate.
  - vm_compute. reflexivity.
Defined.

(** ** [get_totals] *)

Lemma in_cents_sign (d : Decimal) (c : Z) :
  in_cents d c -> (0 < c -> 0 < coeff d) /\ (0 <= c -> 0 <= coeff d).
Proof.
  intros H. destruct (Z_le_gt_dec (-2) (dexp d)) as [Hd|Hd].
  - apply in_cents_ge in H; [|lia].
    pose proof (pow10_pos (dexp d + 2) ltac:(lia)). split; nia.
  - apply in_cents_lt in H; [|lia].
    pose proof (pow10_pos (-2 - dexp d) ltac:(lia)). split; nia.
Qed.

Lemma dadd_comm (a b : Decimal) : dadd a b = dadd b a.
Proof.
  unfold dadd, dadd_exact. rewrite (Z.min_comm (dexp a) (dexp b)).
  do 2 f_equal. lia.
Qed.

Lemma tracks_coeff (a : Decimal) (A : Z) : tracks a A -> 0 <= coeff a.
Proof.
  intros [HA H]. destruct (A <? 10 ^ prec).
  - apply (in_cents_sign _ _ H). exact HA.
  - lia.
Qed.

Lemma tracks_cent_amount (d : Decimal) : cent_amount d -> tracks d (coeff d).
Proof.
  destruct d as [c e]. intros [He Hc]. simpl in He, Hc. subst e. split; [exact Hc|].
  cbn [coeff]. destruct (Z.ltb_spec c (10 ^ prec)) as [Hs|Hb].
  - apply in_cents_Dec.
  - assert (0 < c) by (unfold prec in Hb; lia). split; [|simpl; lia].
    split; [simpl; lia|]. cbn [coeff dexp].
    pose proof (ndigits_ge c (prec + 1)
                  ltac:(rewrite Z.abs_eq by lia; replace (prec + 1 - 1) with prec by lia;
                        exact Hb)).
    unfold prec in *. lia.
Qed.

Lemma dadd_exact_positive (a b : Decimal) :
  0 < coeff a -> 0 <= coeff b -> 0 < coeff (dadd_exact a b).
Proof.
  intros Ha Hb. unfold dadd_exact. cbn [coeff]. set (e := Z.min (dexp a) (dexp b)).
  pose proof (pow10_pos (dexp a - e) ltac:(unfold e; lia)).
  pose proof (pow10_pos (dexp b - e) ltac:(unfold e; lia)). nia.
Qed.

Lemma dadd_tracks_big (a b : Decimal) :
  oversized a -> 0 < coeff a -> 0 <= coeff b ->
  oversized (dadd a b) /\ 0 < coeff (dadd a b).
Proof.
  intros Ho Ha Hb. split; [apply dadd_oversized; assumption|].
  unfold dadd. apply dfix_positive, dadd_exact_positive; assumption.
Qed.

Lemma dadd_tracks (a b : Decimal) (A B : Z) :
  tracks a A -> tracks b B -> tracks (dadd a b) (A + B).
Proof.
  intros Ha Hb. pose proof (tracks_coeff _ _ Ha) as Hca.
  pose proof (tracks_coeff _ _ Hb) as Hcb.
  destruct Ha as [HA Ha], Hb as [HB Hb]. split; [lia|].
  destruct (Z.ltb_spec A (10 ^ prec)) as [HAs|HAb].
  - destruct (Z.ltb_spec B (10 ^ prec)) as [HBs|HBb].
    + pose proof (dadd_cents _ _ _ _ Ha Hb) as Hs.
      rewrite (Z.abs_eq (A + B)) in Hs by lia.
      destruct (Z.ltb_spec (A + B) (10 ^ prec)) as [|Hbig]; [exact Hs|].
      split; [exact Hs|]. unfold dadd. apply dfix_positive.
      pose proof (dadd_exact_cents _ _ _ _ Ha Hb) as He.
      apply (in_cents_sign _ _ He). unfold prec in Hbig. lia.
    + destruct (Z.ltb_spec (A + B) (10 ^ prec)); [lia|].
      rewrite dadd_comm. apply dadd_tracks_big; tauto.
  - destruct (Z.ltb_spec (A + B) (10 ^ prec)); [lia|].
    apply dadd_tracks_big; tauto.
Qed.

Lemma foldl_dadd_tracks (f : row -> Decimal) (rows : list row) (acc : Decimal) (A : Z) :
  Forall (fun r => cent_amount (f r)) rows -> tracks acc A ->
  tracks (foldl dadd acc (f <$> rows)) (A + sum_cents f rows).
Proof.
  intros H. revert acc A. induction H as [|r rows Hr _ IH]; intros acc A Hacc.
  - simpl. rewrite Z.add_0_r. exact Hacc.
  - simpl. replace (A + (coeff (f r) + sum_cents f rows))
      with (A + coeff (f r) + sum_cents f rows) by lia.
    apply IH. apply dadd_tracks; [exact Hacc | apply tracks_cent_amount, Hr].
Qed.

Lemma quantize_tracks (acc : Decimal) (A : Z) :
  tracks acc A ->
  quantize acc CENTS = if A <? 10 ^ prec then Ok (Dec A (-2)) else Err InvalidOperation.
Proof.
  intros [HA H]. destruct (Z.ltb_spec A (10 ^ prec)) as [Hs|Hb].
  - rewrite (quantize_cents _ _ H). rewrite Z.abs_eq by lia.
    destruct (Z.ltb_spec A (10 ^ prec)); [reflexivity | lia].
  - apply quantize_oversized, H.
Qed.

Lemma totals_fold (rows : list row) (a b c d : Decimal) :
  foldl totals_step (a, b, c, d) rows
  = (foldl dadd a (installment_amount <$> filter (fun r => installment_number r = 0) rows),
     foldl dadd b (bsmv <$> rows),
     foldl dadd c (installment_amount <$> filter (fun r => installment_number r <> 0) rows),
     foldl dadd d (interest_payment <$> filter (fun r => installment_number r <> 0) rows)).
Proof.
  revert a b c d. induction rows as [|r rows IH]; intros a b c d; [reflexivity|].
  cbn [foldl]. unfold totals_step at 2. rewrite !filter_cons.
  destruct (Z.eqb_spec (installment_number r) 0) as [Hz|Hnz].
  - rewrite IH. rewrite decide_True by exact Hz.
    rewrite decide_False by (intros Hn; apply Hn, Hz). reflexivity.
  - rewrite IH. rewrite decide_False by exact Hnz.
    rewrite decide_True by exact Hnz. reflexivity.
Qed.

Lemma sum_cents_split (f : row -> Decimal) (rows : list row) :
  sum_cents f rows
  = sum_cents f (filter (fun r => installment_number r <> 0) rows)
    + sum_cents f (filter (fun r => installment_number r = 0) rows).
Proof.
  induction rows as [|r rows IH]; [reflexivity|]. rewrite !filter_cons.
  destruct (decide (installment_number r = 0)) as [Hz|Hnz].
  - rewrite decide_False by (intros Hn; apply Hn, Hz).
    change (sum_cents f (r :: ?l)) with (coeff (f r) + sum_cents f l).
    unfold sum_cents in *. simpl. rewrite IH. lia.
  - rewrite decide_True by exact Hnz.
    unfold sum_cents in *. simpl. rewrite IH. lia.
Qed.

Lemma sum_cents_nonneg (f : row -> Decimal) (rows : list row) :
  Forall (fun r => cent_amount (f r)) rows -> 0 <= sum_cents f rows.
Proof.
  induction 1 as [|r rows [_ Hr] _ IH]; unfold sum_cents in *; simpl; lia.
Qed.

Lemma tracks_zero : tracks ZERO_00 0.
Proof. split; [lia|]. apply in_cents_Dec. Qed.

(** X17: [get_totals] on rows whose installment, interest and tax are
    non-negative amounts of two places.  The total cost is the sum of the
    installments of all rows, regular and commission; the interest total
    runs over the regular rows, the tax total over all rows (the commission
    row's tax included); installments and commission are reported apart and
    add up to the cost.  It raises [InvalidOperation] exactly when the cost,
    the interest or the tax total reaches [10^15] cents. *)
Theorem X17_get_totals_sums (sched : list row) :
  Forall (fun r => cent_amount (installment_amount r) /\
                   cent_amount (interest_payment r) /\ cent_amount (bsmv r)) sched ->
  let regular := filter (fun r => installment_number r <> 0) sched in
  let commission := filter (fun r => installment_number r = 0) sched in
  let installments := sum_cents installment_amount regular in
  let fees := sum_cents installment_amount commission in
  let interest := sum_cents interest_payment regular in
  let tax := sum_cents bsmv sched in
  get_totals sched
  = if (installments + fees <? 10 ^ prec) && (interest <? 10 ^ prec)
       && (tax <? 10 ^ prec)
    then Ok (Totals (Dec (installments + fees) (-2)) (Dec interest (-2))
               (Dec tax (-2)) (Dec installments (-2)) (Dec fees (-2)))
    else Err InvalidOperation.
Proof.
  intros Hrows regular commission installments fees interest tax.
  assert (Hinst : Forall (fun r => cent_amount (installment_amount r)) sched)
    by (eapply Forall_impl; [exact Hrows|]; simpl; intros ?; tauto).
  assert (Hint : Forall (fun r => cent_amount (interest_payment r)) sched)
    by (eapply Forall_impl; [exact Hrows|]; simpl; intros ?; tauto).
  assert (Htax : Forall (fun r => cent_amount (bsmv r)) sched)
    by (eapply Forall_impl; [exact Hrows|]; simpl; intros ?; tauto).
  assert (Hreg : forall f, Forall (fun r => cent_amount (f r)) sched ->
                           Forall (fun r => cent_amount (f r)) regular)
    by (intros f Hf; rewrite Forall_forall in Hf |- *; intros x Hx;
        apply list_elem_of_filter in Hx; apply Hf, Hx).
  assert (Hcom : forall f, Forall (fun r => cent_amount (f r)) sched ->
                           Forall (fun r => cent_amount (f r)) commission)
    by (intros f Hf; rewrite Forall_forall in Hf |- *; intros x Hx;
        apply list_elem_of_filter in Hx; apply Hf, Hx).
  pose proof (foldl_dadd_tracks installment_amount regular ZERO_00 0
                (Hreg _ Hinst) tracks_zero) as Ti.
  pose proof (foldl_dadd_tracks installment_amount commission ZERO_00 0
                (Hcom _ Hinst) tracks_zero) as Tc.
  pose proof (foldl_dadd_tracks interest_payment regular ZERO_00 0
                (Hreg _ Hint) tracks_zero) as Tn.
  pose proof (foldl_dadd_tracks bsmv sched ZERO_00 0 Htax tracks_zero) as Tb.
  rewrite !Z.add_0_l in Ti, Tc, Tn, Tb.
  fold installments in Ti. fold fees in Tc. fold interest in Tn. fold tax in Tb.
  pose proof (dadd_tracks _ _ _ _ Ti Tc) as Tcost.
  pose proof (sum_cents_nonneg _ _ (Hreg _ Hinst)) as Hi0.
  pose proof (sum_cents_nonneg _ _ (Hcom _ Hinst)) as Hc0.
  fold installments in Hi0. fold fees in Hc0.
  unfold get_totals. rewrite totals_fold. fold regular commission.
  rewrite (quantize_tracks _ _ Tcost).
  destruct (Z.ltb_spec (installments + fees) (10 ^ prec)) as [Hcost|Hcost];
    [|reflexivity].
  cbn [mbind result_bind andb]. rewrite (quantize_tracks _ _ Tn).
  destruct (Z.ltb_spec interest (10 ^ prec)) as [Hn|Hn]; [|reflexivity].
  cbn [mbind result_bind andb]. rewrite (quantize_tracks _ _ Tb).
  destruct (Z.ltb_spec tax (10 ^ prec)) as [Ht|Ht]; [|reflexivity].
  cbn [mbind result_bind andb]. rewrite (quantize_tracks _ _ Ti).
  destruct (Z.ltb_spec installments (10 ^ prec)) as [_|]; [|lia].
  cbn [mbind result_bind]. rewrite (quantize_tracks _ _ Tc).
  destruct (Z.ltb_spec fees (10 ^ prec)) as [_|]; [|lia].
  reflexivity.
Qed.

Lemma X17_get_totals_witness :
  get_totals
    [ Row 0 (Date 2024 5 2) 0 ZERO_00 ZERO_00 (Dec 100000 (-2)) (Dec 5000 (-2))
        (Dec 105000 (-2)) (Dec 10000000 (-2));
      Row 1 (Date 2024 6 3) 30 (Dec 5000000 (-2)) (Dec 250000 (-2)) ZERO_00
        (Dec 12500 (-2)) (Dec 5262500 (-2)) (Dec 5000000 (-2));
      Row 2 (Date 2024 7 2) 30 (Dec 5000000 (-2)) (Dec 125000 (-2)) ZERO_00
        (Dec 6250 (-2)) (Dec 5131250 (-2)) (Dec 0 (-2)) ]
  = Ok (Totals (Dec 10498750 (-2)) (Dec 375000 (-2)) (Dec 23750 (-2))
          (Dec 10393750 (-2)) (Dec 105000 (-2))).
Proof.
  refine (X17_get_totals_sums _ _).
  repeat (constructor; [repeat split; vm_compute; discriminate|]). constructor.
Defined.

(** ** The cost the all-in rate divides *)

Lemma commission_rows_cost P c b start rem first :
  commission_rows P c b start rem = Ok first -> Forall cost_amounts first.
Proof.
  unfold commission_rows. destruct (dltb (of_int 0) c); [|intros [= <-]; constructor].
  intros H. inv_bind H. subst first. constructor; [|constructor].
  pose proof (quantize_form _ _ Hv) as [Ha _].
  pose proof (quantize_form _ _ Hv0) as [Ht _].
  rewrite Ha, Ht in Hv1.
  pose proof (dadd_cents _ _ _ _ (in_cents_Dec (coeff v)) (in_cents_Dec (coeff v0))) as Hs.
  destruct (Z.ltb_spec (Z.abs (coeff v + coeff v0)) (10 ^ prec)).
  - apply (quantize_cents_Ok _ _ _ Hs) in Hv1. destruct Hv1 as [-> _].
    unfold cost_amounts. cbn. rewrite Ha, Ht. cbn. repeat split.
  - rewrite (quantize_oversized _ Hs) in Hv1. discriminate.
Qed.

Lemma regular_cost_amounts (I T inst : Decimal) (d x y : Decimal) (k : Z) (pd : date)
    (a : Z) (pp rem : Decimal) :
  k <> 0 ->
  quantize d CENTS = Ok I -> quantize x CENTS = Ok T -> quantize y CENTS = Ok inst ->
  cost_amounts (Row k pd a pp I ZERO_00 T inst rem).
Proof.
  intros Hk HI HT Hinst.
  apply quantize_result in HI, HT, Hinst.
  unfold cost_amounts. cbn. destruct (Z.eqb_spec k 0); [contradiction|]. tauto.
Qed.

Lemma EqualPrincipalLoan_cost_amounts self sched :
  EqualPrincipalLoan.calculate_schedule self = Ok sched -> Forall cost_amounts sched.
Proof.
  intros Hcalc.
  destruct (EqualPrincipalLoan_parts _ _ Hcalc) as (first & regs & Hf & -> & _ & Hr).
  apply Forall_forall. intros r Hin.
  destruct (Z.eq_dec (installment_number r) 0) as [Hz|Hnz].
  - apply elem_of_app in Hin. destruct Hin as [Hin|Hin].
    + apply commission_rows_cost in Hf. rewrite Forall_forall in Hf. apply Hf, Hin.
    + rewrite Forall_forall in Hr. destruct (Hr _ Hin Hz).
  - revert r Hin Hnz.
    refine (EqualPrincipalLoan_regular_rows cost_amounts self _ _ Hcalc).
    intros i sch rem r0 rem' Hi Hs.
    unfold EqualPrincipalLoan.schedule_step in Hs. inv_bind Hs.
    destruct v as [period_rate accrual]. inv_bind Hs.
    apply snoc_inj in Hs. subst r0.
    eapply regular_cost_amounts; [lia|eassumption..].
Qed.

Lemma EqualInstallmentLoan_cost_amounts self sched :
  EqualInstallmentLoan.calculate_schedule self = Ok sched -> Forall cost_amounts sched.
Proof.
  intros Hcalc.
  destruct (EqualInstallmentLoan_parts _ _ Hcalc) as (first & regs & Hf & -> & _ & Hr).
  apply Forall_forall. intros r Hin.
  destruct (Z.eq_dec (installment_number r) 0) as [Hz|Hnz].
  - apply elem_of_app in Hin. destruct Hin as [Hin|Hin].
    + apply commission_rows_cost in Hf. rewrite Forall_forall in Hf. apply Hf, Hin.
    + rewrite Forall_forall in Hr. destruct (Hr _ Hin Hz).
  - revert r Hin Hnz.
    refine (EqualInstallmentLoan_regular_rows cost_amounts self _ _ Hcalc).
    intros i sch rem r0 rem' Hi Hs.
    unfold EqualInstallmentLoan.schedule_step in Hs. inv_bind Hs.
    apply snoc_inj in Hs. subst r0.
    eapply regular_cost_amounts; [lia|eassumption..].
Qed.

Lemma EqualPrincipalLoan_maturity_fold self rows a :
  let a' := foldl (EqualPrincipalLoan.maturity_step self) a rows in
  acc_interest a'
  = foldl dadd (acc_interest a)
      (interest_payment <$> filter (fun r => installment_number r <> 0) rows) /\
  acc_bsmv a'
  = foldl dadd (acc_bsmv a) (bsmv <$> filter (fun r => installment_number r <> 0) rows) /\
  acc_commission a'
  = foldl dadd (acc_commission a)
      (installment_amount <$> filter (fun r => installment_number r = 0) rows).
Proof.
  revert a. induction rows as [|r rows IH]; intros a; [cbn; auto|].
  cbn [foldl]. cbv zeta in IH |- *. rewrite !filter_cons.
  destruct (IH (EqualPrincipalLoan.maturity_step self a r)) as (-> & -> & ->).
  unfold EqualPrincipalLoan.maturity_step.
  destruct (Z.eqb_spec (installment_number r) 0) as [Hz|Hnz];
    destruct (decide (installment_number r = 0)) as [Hz'|Hnz'];
    destruct (decide (installment_number r <> 0)); try contradiction; cbn; auto.
Qed.

Lemma EqualInstallmentLoan_maturity_fold self rows a :
  let a' := foldl (EqualInstallmentLoan.maturity_step self) a rows in
  acc_interest a'
  = foldl dadd (acc_interest a)
      (interest_payment <$> filter (fun r => installment_number r <> 0) rows) /\
  acc_bsmv a' = foldl dadd (acc_bsmv a) (bsmv <$> rows) /\
  acc_commission a'
  = foldl dadd (acc_commission a)
      (installment_amount <$> filter (fun r => installment_number r = 0) rows).
Proof.
  revert a. induction rows as [|r rows IH]; intros a; [cbn; auto|].
  cbn [foldl]. cbv zeta in IH |- *. rewrite !filter_cons.
  destruct (IH (EqualInstallmentLoan.maturity_step self a r)) as (-> & -> & ->).
  unfold EqualInstallmentLoan.maturity_step.
  destruct (Z.eqb_spec (installment_number r) 0) as [Hz|Hnz];
    destruct (decide (installment_number r = 0)) as [Hz'|Hnz'];
    destruct (decide (installment_number r <> 0)); try contradiction; cbn; auto.
Qed.

Lemma sum_cents_zero (f : row -> Decimal) (rows : list row) :
  Forall (fun r => coeff (f r) = 0) rows -> sum_cents f rows = 0.
Proof. induction 1 as [|r rows Hr _ IH]; unfold sum_cents in *; simpl; lia. Qed.

Lemma sum_cents_plus (f g h : row -> Decimal) (rows : list row) :
  Forall (fun r => coeff (f r) = coeff (g r) + coeff (h r)) rows ->
  sum_cents f rows = sum_cents g rows + sum_cents h rows.
Proof. induction 1 as [|r rows Hr _ IH]; unfold sum_cents in *; simpl; lia. Qed.

Lemma Forall_filter_sub {A} (P Q : A -> Prop) `{forall x, Decision (P x)} (l : list A) :
  Forall Q l -> Forall (fun x => P x /\ Q x) (filter P l).
Proof.
  rewrite !Forall_forall. intros HQ x Hx. apply list_elem_of_filter in Hx.
  split; [tauto | apply HQ; tauto].
Qed.

(** What the rows of a schedule with non-negative costs add up to, split by
    kind of row. *)
Lemma cost_sums (sched : list row) :
  Forall cost_amounts sched -> Forall nonneg_costs sched ->
  let regular := filter (fun r => installment_number r <> 0) sched in
  let commission := filter (fun r => installment_number r = 0) sched in
  Forall (fun r => cent_amount (interest_payment r)) regular /\
  Forall (fun r => cent_amount (bsmv r)) regular /\
  Forall (fun r => cent_amount (bsmv r)) sched /\
  Forall (fun r => cent_amount (installment_amount r)) commission /\
  sum_cents interest_payment sched + sum_cents bsmv sched
  + sum_cents commission_payment sched
  = sum_cents interest_payment regular + sum_cents bsmv regular
    + sum_cents installment_amount commission.
Proof.
  intros Hc Hn regular commission.
  assert (Hboth : Forall (fun r => cost_amounts r /\ nonneg_costs r) sched).
  { rewrite Forall_forall in Hc, Hn |- *. intros r Hr. split; auto. }
  pose proof (Forall_filter_sub (fun r => installment_number r <> 0) _ sched Hboth) as Hreg.
  pose proof (Forall_filter_sub (fun r => installment_number r = 0) _ sched Hboth) as Hcom.
  fold regular in Hreg. fold commission in Hcom.
  assert (Hcell : forall r, cost_amounts r -> nonneg_costs r ->
            cent_amount (interest_payment r) /\ cent_amount (bsmv r)).
  { intros r (E1 & E2 & _) (N1 & N2 & _). unfold cent_amount. tauto. }
  split; [|split; [|split; [|split]]].
  - eapply Forall_impl; [exact Hreg|]. intros r (_ & C & N). apply (Hcell r C N).
  - eapply Forall_impl; [exact Hreg|]. intros r (_ & C & N). apply (Hcell r C N).
  - eapply Forall_impl; [exact Hboth|]. intros r (C & N). apply (Hcell r C N).
  - eapply Forall_impl; [exact Hcom|].
    intros r (Hz & (_ & _ & _ & E4 & Hk) & (_ & N2 & N3)).
    rewrite Hz in Hk. cbn in Hk. unfold cent_amount. split; [exact E4 | lia].
  - rewrite (sum_cents_split interest_payment sched),
      (sum_cents_split bsmv sched), (sum_cents_split commission_payment sched).
    fold regular commission.
    assert (H1 : sum_cents interest_payment commission = 0).
    { apply sum_cents_zero. eapply Forall_impl; [exact Hcom|].
      intros r (Hz & (_ & _ & _ & _ & Hk) & _). rewrite Hz in Hk. cbn in Hk. tauto. }
    assert (H2 : sum_cents commission_payment regular = 0).
    { apply sum_cents_zero. eapply Forall_impl; [exact Hreg|].
      intros r (Hnz & (_ & _ & _ & _ & Hk) & _).
      destruct (Z.eqb_spec (installment_number r) 0); [contradiction | exact Hk]. }
    assert (H3 : sum_cents installment_amount commission
                 = sum_cents commission_payment commission + sum_cents bsmv commission).
    { apply sum_cents_plus. eapply Forall_impl; [exact Hcom|].
      intros r (Hz & (_ & _ & _ & _ & Hk) & _). rewrite Hz in Hk. cbn in Hk. tauto. }
    lia.
Qed.

Lemma tracks_in_cents (d : Decimal) (A : Z) : tracks d A -> A < 10 ^ prec -> in_cents d A.
Proof.
  intros [_ H] HA. destruct (Z.ltb_spec A (10 ^ prec)); [exact H | lia].
Qed.

(** X18: the cost [calculate_average_maturity_and_all_in_rate] divides, on a
    schedule of the class itself with non-negative interest, tax and
    commission and below [10^15] cents.  For [EqualPrincipalLoan] it is the
    interest, the tax and the commission of all rows, each once.  For
    [EqualInstallmentLoan] it is that sum plus the tax of the commission row
    once more. *)
Theorem X18_all_in_cost_of_a_schedule :
  (forall (self : EqualPrincipalLoan.t) (sched : list row),
      EqualPrincipalLoan.calculate_schedule self = Ok sched ->
      Forall nonneg_costs sched ->
      let once := sum_cents interest_payment sched + sum_cents bsmv sched
                  + sum_cents commission_payment sched in
      once < 10 ^ prec ->
      in_cents (toplam_maliyet (foldl (EqualPrincipalLoan.maturity_step self) acc0 sched))
        once) /\
  (forall (self : EqualInstallmentLoan.t) (sched : list row),
      EqualInstallmentLoan.calculate_schedule self = Ok sched ->
      Forall nonneg_costs sched ->
      let once := sum_cents interest_payment sched + sum_cents bsmv sched
                  + sum_cents commission_payment sched in
      let again := sum_cents bsmv (filter (fun r => installment_number r = 0) sched) in
      once + again < 10 ^ prec ->
      in_cents (toplam_maliyet (foldl (EqualInstallmentLoan.maturity_step self) acc0 sched))
        (once + again)).
Proof.
  split.
  - intros self sched Hcalc Hn once Hfit.
    pose proof (EqualPrincipalLoan_cost_amounts _ _ Hcalc) as Hc.
    destruct (cost_sums sched Hc Hn) as (Fi & Fb & _ & Fc & Hsum).
    destruct (EqualPrincipalLoan_maturity_fold self sched acc0) as (Ei & Eb & Ec).
    unfold toplam_maliyet. rewrite Ei, Eb, Ec. cbn [acc0 acc_interest acc_bsmv acc_commission].
    pose proof (foldl_dadd_tracks _ _ ZERO_00 0 Fi tracks_zero) as Ti.
    pose proof (foldl_dadd_tracks _ _ ZERO_00 0 Fb tracks_zero) as Tb.
    pose proof (foldl_dadd_tracks _ _ ZERO_00 0 Fc tracks_zero) as Tc.
    rewrite !Z.add_0_l in Ti, Tb, Tc.
    pose proof (dadd_tracks _ _ _ _ (dadd_tracks _ _ _ _ Ti Tb) Tc) as T.
    apply tracks_in_cents in T; [|unfold once in Hfit; lia].
    unfold once. rewrite Hsum. exact T.
  - intros self sched Hcalc Hn once again Hfit.
    pose proof (EqualInstallmentLoan_cost_amounts _ _ Hcalc) as Hc.
    destruct (cost_sums sched Hc Hn) as (Fi & _ & Fb & Fc & Hsum).
    destruct (EqualInstallmentLoan_maturity_fold self sched acc0) as (Ei & Eb & Ec).
    unfold toplam_maliyet. rewrite Ei, Eb, Ec. cbn [acc0 acc_interest acc_bsmv acc_commission].
    pose proof (foldl_dadd_tracks _ _ ZERO_00 0 Fi tracks_zero) as Ti.
    pose proof (foldl_dadd_tracks _ _ ZERO_00 0 Fb tracks_zero) as Tb.
    pose proof (foldl_dadd_tracks _ _ ZERO_00 0 Fc tracks_zero) as Tc.
    rewrite !Z.add_0_l in Ti, Tb, Tc.
    pose proof (dadd_tracks _ _ _ _ (dadd_tracks _ _ _ _ Ti Tb) Tc) as T.
    pose proof (sum_cents_split bsmv sched) as Hsplit. fold again in Hsplit.
    apply tracks_in_cents in T; [|unfold once in Hfit; lia].
    replace (once + again)
      with (sum_cents interest_payment
              (filter (fun r => installment_number r <> 0) sched)
            + sum_cents bsmv sched
            + sum_cents installment_amount
                (filter (fun r => installment_number r = 0) sched))
      by (unfold once; lia).
    exact T.
Qed.

Lemma X18_all_in_cost_witness :
  exists loan sched,
    EqualPrincipalLoan.init 3 (Dec 1000000 (-1)) (Dec 25 (-3)) (Dec 1 (-2))
      (Date 2024 5 2) 2 "1m" (Dec 5 (-2)) no_holidays false = Ok loan /\
    EqualPrincipalLoan.calculate_schedule loan = Ok sched /\
    in_cents (toplam_maliyet (foldl (EqualPrincipalLoan.maturity_step loan) acc0 sched))
      498750.
Proof.
  eassert (Hinit : EqualPrincipalLoan.init 3 (Dec 1000000 (-1)) (Dec 25 (-3))
                     (Dec 1 (-2)) (Date 2024 5 2) 2 "1m" (Dec 5 (-2)) no_holidays
                     false = Ok _)
    by (vm_compute; reflexivity).
  match type of Hinit with
  | _ = Ok ?l =>
      eassert (Hcalc : EqualPrincipalLoan.calculate_schedule l = Ok _)
        by (vm_compute; reflexivity)
  end.
  eexists. eexists. split; [exact Hinit|]. split; [exact Hcalc|].
  refine (proj1 X18_all_in_cost_of_a_schedule _ _ Hcalc _ _).
  - repeat (constructor; [repeat split; vm_compute; discriminate|]). constructor.
  - vm_compute. reflexivity.
Defined.
